(** * Meeting recorder agent

    A shallow embedding of the two notebooks of the repository:

    - [02-interact-and-execute-agent.ipynb]: the tool-call extractor
      [get_function_and_payload] and the conversation driver
      [MeetingAgent.run];
    - [01-initialize-and-setup-agent.ipynb]: the cells that get or create
      the agent and update [.env], list the interfaces, list the tools
      already attached, process the tools of the configuration file and
      attach the operations selected.

    Python [str] values are lists of characters, Python exceptions are the
    [Raise] outcome of a result type, and the calls into the xpander SDK, the
    chat-completion endpoint, [random] and [datetime] are the operations of a
    type class over an abstract world. The driver runs in a monad that
    threads the world, records every remote call with its outcome, stops at
    the first exception and counts the iterations of the [while] loop against
    a fuel: running out of fuel is the only way the model has to say that
    the loop is still going. *)

From Stdlib Require Import List Ascii String ZArith Lia Bool Arith DecimalString
  Permutation.
Import ListNotations.

Set Implicit Arguments.

(** ** Python strings *)

Module PyStr.

Definition str := list ascii.

Definition lit (s : string) : str := list_ascii_of_string s.

Definition newline : ascii := ascii_of_nat 10.

Fixpoint str_eqb (a b : str) : bool :=
  match a, b with
  | [], [] => true
  | x :: a', y :: b' => Ascii.eqb x y && str_eqb a' b'
  | _, _ => false
  end.

(** [s.startswith(p)] *)
Fixpoint startswith (p s : str) : bool :=
  match p, s with
  | [], _ => true
  | x :: p', y :: s' => Ascii.eqb x y && startswith p' s'
  | _ :: _, [] => false
  end.

(** [p in s] on strings: [p] occurs in [s] as a contiguous substring. *)
Fixpoint contains (p s : str) : bool :=
  startswith p s || match s with
                    | [] => false
                    | _ :: s' => contains p s'
                    end.

(** [s.lower()] on the ASCII range. *)
Definition lower_char (c : ascii) : ascii :=
  let n := nat_of_ascii c in
  if (65 <=? n) && (n <=? 90) then ascii_of_nat (n + 32) else c.

Definition lower (s : str) : str := map lower_char s.

(** Truth value of a string: the empty string is falsy. *)
Definition truthy (s : str) : bool :=
  match s with
  | [] => false
  | _ :: _ => true
  end.

(** The text up to the first newline. *)
Fixpoint first_line (s : str) : str :=
  match s with
  | c :: t => if Ascii.eqb c newline then [] else c :: first_line t
  | [] => []
  end.

(** [str(n)] for an integer. *)
Definition str_of_Z (n : Z) : str := lit (NilZero.string_of_int (Z.to_int n)).

End PyStr.
Import PyStr.

(** ** Exceptions and results *)

Inductive exn : Type :=
| IndexError                  (* [choices[0]] on an empty list *)
| TypeError                   (* [re.search] on a content that is [None] *)
| LiteralError                (* [ValueError] or [SyntaxError] of [ast.literal_eval] *)
| RemoteError (msg : str).    (* any exception raised inside an SDK or HTTP call *)

Inductive result (A : Type) : Type :=
| Ok (a : A)
| Raise (e : exn).
Arguments Ok {A} a.
Arguments Raise {A} e.

(** ** Python literals *)

(** The values [ast.literal_eval] builds for the payloads of this project. *)
#[warnings="-register-all"]
Inductive pyvalue : Type :=
| PNone
| PBool (b : bool)
| PInt (n : Z)
| PStr (s : str)
| PList (l : list pyvalue)
| PDict (items : list (pyvalue * pyvalue)).

(** [import ast]: the literal evaluator is the Python standard library's, so
    the extractor and the driver take it as an interface. *)
Class Ast : Type := { literal_eval : str -> result pyvalue }.

(** ** The pattern of the extractor

    [re.search(r"\[([A-Za-z0-9_\-]+)({.*})\]", content)]: the matcher below
    follows the backtracking semantics of the pattern, piece by piece. *)

Module Pattern.

(** The character class [[A-Za-z0-9_\-]]. *)
Definition is_name_char (c : ascii) : bool :=
  let n := nat_of_ascii c in
  ((65 <=? n) && (n <=? 90)) || ((97 <=? n) && (n <=? 122))
  || ((48 <=? n) && (n <=? 57)) || Ascii.eqb c "_" || Ascii.eqb c "-".

(** [.] without DOTALL: every character but the newline. *)
Definition dot_matches (c : ascii) : bool := negb (Ascii.eqb c newline).

(** The tail [}\]] of the pattern at the head of [s]. *)
Definition close_here (s : str) : bool :=
  match s with
  | c1 :: c2 :: _ => Ascii.eqb c1 "}" && Ascii.eqb c2 "]"
  | _ => false
  end.

(** [.*}\]]: the star first tries to take one more character and gives it
    back only when the rest fails (greedy). Returns the text the star took. *)
Fixpoint dot_star_close (s : str) : option str :=
  match s with
  | [] => None
  | c :: t =>
      if dot_matches c then
        match dot_star_close t with
        | Some b => Some (c :: b)
        | None => if close_here (c :: t) then Some [] else None
        end
      else if close_here (c :: t) then Some [] else None
  end.

(** Group 2 followed by the closing bracket: [({.*})\]]. *)
Definition brace_group (s : str) : option str :=
  match s with
  | c :: t =>
      if Ascii.eqb c "{" then
        match dot_star_close t with
        | Some b => Some ("{"%char :: b ++ ["}"%char])
        | None => None
        end
      else None
  | [] => None
  end.

(** Group 1, [([A-Za-z0-9_\-]+)], followed by the continuation [k]: one or
    more name characters, as many as possible first. *)
Fixpoint name_plus (R : Type) (k : str -> option R) (s : str) : option (str * R) :=
  match s with
  | c :: t =>
      if is_name_char c then
        match name_plus k t with
        | Some (n, r) => Some (c :: n, r)
        | None => match k t with
                  | Some r => Some ([c], r)
                  | None => None
                  end
        end
      else None
  | [] => None
  end.

(** The whole pattern anchored at the head of [s]: groups 1 and 2. *)
Definition match_here (s : str) : option (str * str) :=
  match s with
  | c :: t => if Ascii.eqb c "[" then name_plus brace_group t else None
  | [] => None
  end.

(** [re.search]: the first position, from the left, where the pattern
    matches; with it, [match.start()]. *)
Fixpoint search_from (i : nat) (s : str) : option (nat * (str * str)) :=
  match match_here s with
  | Some m => Some (i, m)
  | None => match s with
            | [] => None
            | _ :: t => search_from (S i) t
            end
  end.

Definition re_search (s : str) : option (str * str) :=
  option_map snd (search_from 0 s).

End Pattern.
Import Pattern.

(** ** The model reply *)

Record message_dict : Type := { role : str; content : option str }.
Record choice : Type := { message : message_dict }.
Record usage_dict : Type :=
  { completion_tokens : Z; prompt_tokens : Z; total_tokens : Z }.
Record model_response : Type := { choices : list choice; usage : usage_dict }.

(** ** The extractor *)

Section Extractor.
Context {ast : Ast}.

(** [get_function_and_payload(model_response)] *)
Definition get_function_and_payload (model_response : model_response)
  : result (option str * option pyvalue) :=
  match choices model_response with
  | [] => Raise IndexError
  | c :: _ =>
      match content (message c) with
      | None => Raise TypeError
      | Some text =>
          match re_search text with
          | Some (tool_name, payload_str) =>
              match literal_eval payload_str with
              | Ok payload => Ok (Some tool_name, Some payload)
              | Raise e => Raise e
              end
          | None => Ok (None, None)
          end
      end
  end.

End Extractor.

(** ** Objects of the xpander SDK that the driver handles *)

Inductive ToolCallType : Type := XPANDER.
Inductive LLMProvider : Type := NVIDIA_NIM.

Module ToolCall.
Record t : Type :=
  { name : option str;
    type : ToolCallType;
    payload : option pyvalue;
    tool_call_id : str }.
End ToolCall.

Module ToolCallResult.
Record t : Type :=
  { function_name : option str;
    status_code : Z;
    payload : option pyvalue;
    result : pyvalue;
    is_success : bool }.
End ToolCallResult.

Module ExecutionResult.
Record t : Type :=
  { status : str;              (* the name of the [ExecutionStatus] member *)
    result : str;
    memory_thread_id : str }.
End ExecutionResult.

(** [Tokens(worker=LLMTokens(...))] *)
Module LLMTokens.
Record t : Type :=
  { completion_tokens : Z; prompt_tokens : Z; total_tokens : Z }.
End LLMTokens.

Record Tokens : Type := { worker : LLMTokens.t }.

(** [agent.add_messages] receives a list of message dicts before the loop and
    the dump of a whole reply inside it. *)
Inductive messages_arg : Type :=
| MessageList (l : list message_dict)
| ResponseDump (r : model_response).

(** ** The remote collaborators

    Every call that leaves the notebook, over a world [W] that stands for the
    hosted agent, the completion endpoint, the clock and the random
    generator. A call either returns or raises. *)
Class Platform (W : Type) : Type :=
  { agent_add_task : str -> option str -> W -> result unit * W;
    agent_add_messages : messages_arg -> W -> result unit * W;
    agent_messages : W -> list message_dict;
    chat_completions_create : str -> list message_dict -> W -> result model_response * W;
    agent_report_llm_usage : model_response -> LLMProvider -> W -> result unit * W;
    agent_run_tools : list ToolCall.t -> W -> result (list ToolCallResult.t) * W;
    agent_retrieve_execution_result : W -> result ExecutionResult.t * W;
    agent_report_execution_metrics : Tokens -> str -> W -> result unit * W;
    random_randint : Z -> Z -> W -> Z * W;
    datetime_now_strftime : W -> str * W }.

(** What a run sends out and gets back, call by call. *)
Inductive event : Type :=
| AddTask (input : str) (thread_id : option str) (r : result unit)
| AddMessages (m : messages_arg) (r : result unit)
| ChatCompletion (model : str) (messages : list message_dict) (r : result model_response)
| ReportLLMUsage (response : model_response) (r : result unit)
| RunTools (tool_calls : list ToolCall.t) (r : result (list ToolCallResult.t))
| RetrieveExecutionResult (r : result ExecutionResult.t)
| ReportExecutionMetrics (llm_tokens : Tokens) (ai_model : str) (r : result unit).

(** ** The monad of the driver: world, trace of calls, exceptions, fuel *)

Inductive outcome (A : Type) : Type :=
| Done (a : A)
| Raised (e : exn)
| OutOfFuel.
Arguments Done {A} a.
Arguments Raised {A} e.
Arguments OutOfFuel {A}.

Module DriverMonad.

Definition M (W A : Type) : Type := W -> outcome A * W * list event.

Definition ret {W A} (a : A) : M W A := fun w => (Done a, w, []).

Definition bind {W A B} (m : M W A) (f : A -> M W B) : M W B :=
  fun w =>
    match m w with
    | (Done a, w1, e1) =>
        match f a w1 with
        | (o, w2, e2) => (o, w2, e1 ++ e2)
        end
    | (Raised e, w1, e1) => (Raised e, w1, e1)
    | (OutOfFuel, w1, e1) => (OutOfFuel, w1, e1)
    end.

(** A remote call: its outcome is recorded in the trace. *)
Definition call {W A} (f : W -> result A * W) (ev : result A -> event) : M W A :=
  fun w =>
    match f w with
    | (Ok a, w1) => (Done a, w1, [ev (Ok a)])
    | (Raise e, w1) => (Raised e, w1, [ev (Raise e)])
    end.

(** A local computation on the world (clock, random generator, attribute). *)
Definition local {W A} (f : W -> A * W) : M W A :=
  fun w => match f w with (a, w1) => (Done a, w1, []) end.

(** A pure call that may raise. *)
Definition lift {W A} (r : result A) : M W A :=
  fun w => match r with Ok a => (Done a, w, []) | Raise e => (Raised e, w, []) end.

Definition out_of_fuel {W A} : M W A := fun w => (OutOfFuel, w, []).

Declare Scope driver_scope.
Delimit Scope driver_scope with driver.
Notation "x <- m ;; k" := (bind m (fun x => k))
  (at level 61, m at next level, right associativity) : driver_scope.
Notation "m ;; k" := (bind m (fun _ => k))
  (at level 61, right associativity) : driver_scope.

End DriverMonad.
Import DriverMonad.

(** ** The conversation driver *)

Definition default_task : str :=
  lit "Please check the status of all recorded meetings.".

Definition sentinel : str := lit "xpfinish-agent-execution-finished".

Definition model_name : str := lit "nvidia/llama-3.1-nemotron-ultra-253b-v1".

Definition metrics_model : str := lit "meta/llama-3.1-405b-instruct".

(** [prompt or default]: [None] and the empty string are both falsy. *)
Definition py_or (prompt : option str) (default : str) : str :=
  match prompt with
  | Some p => if truthy p then p else default
  | None => default
  end.

(** [thread_id if thread_id else None] *)
Definition thread_or_none (thread_id : option str) : option str :=
  match thread_id with
  | Some t => if truthy t then Some t else None
  | None => None
  end.

(** [str(x)] for an optional string attribute. *)
Definition py_str (x : option str) : str :=
  match x with
  | Some s => s
  | None => lit "None"
  end.

(** The three [+=] on the token counters. *)
Definition add_usage (execution_tokens : Tokens) (u : usage_dict) : Tokens :=
  let w := worker execution_tokens in
  {| worker :=
      {| LLMTokens.completion_tokens := LLMTokens.completion_tokens w + completion_tokens u;
         LLMTokens.prompt_tokens := LLMTokens.prompt_tokens w + prompt_tokens u;
         LLMTokens.total_tokens := LLMTokens.total_tokens w + total_tokens u |} |}%Z.

(** [Tokens(worker=LLMTokens(completion_tokens=0, prompt_tokens=0, total_tokens=0))] *)
Definition zero_tokens : Tokens :=
  {| worker := {| LLMTokens.completion_tokens := 0;
                  LLMTokens.prompt_tokens := 0;
                  LLMTokens.total_tokens := 0 |} |}.

(** The [for response in responses] of the loop body. *)
Definition check_responses (is_finished : bool) (responses : list ToolCallResult.t) : bool :=
  fold_left
    (fun fin response =>
       if str_eqb (py_str (ToolCallResult.function_name response)) sentinel
       then true else fin)
    responses is_finished.

Section Driver.
Context {ast : Ast} {W : Type} {platform : Platform W}.
Local Open Scope driver_scope.

(** First half of the loop body: the completion, the token counters, the
    usage report and the reply appended to the agent messages. The timers
    ([time.perf_counter]) only feed the reports and are left out. *)
Definition get_response (execution_tokens : Tokens) : M W (model_response * Tokens) :=
  messages <- local (fun w => (agent_messages w, w)) ;;
  response <- call (chat_completions_create model_name messages)
                   (ChatCompletion model_name messages) ;;
  let execution_tokens := add_usage execution_tokens (usage response) in
  call (agent_report_llm_usage response NVIDIA_NIM) (ReportLLMUsage response) ;;
  call (agent_add_messages (ResponseDump response)) (AddMessages (ResponseDump response)) ;;
  ret (response, execution_tokens).

(** Second half: extract the tool call, execute it, look for the sentinel. *)
Definition execute_tool_calls (is_finished : bool) (response : model_response) : M W bool :=
  tp <- lift (get_function_and_payload response) ;;
  n <- local (random_randint 100000 999999) ;;
  let tool_calls :=
    [ {| ToolCall.name := fst tp;
         ToolCall.type := XPANDER;
         ToolCall.payload := snd tp;
         ToolCall.tool_call_id := lit "call_" ++ str_of_Z n |} ] in
  match tool_calls with
  | _ :: _ =>
      responses <- call (agent_run_tools tool_calls) (RunTools tool_calls) ;;
      ret (check_responses is_finished responses)
  | [] => ret is_finished
  end.

Definition loop_body (is_finished : bool) (execution_tokens : Tokens) : M W (bool * Tokens) :=
  rt <- get_response execution_tokens ;;
  is_finished <- execute_tool_calls is_finished (fst rt) ;;
  ret (is_finished, snd rt).

(** [while not is_finished: ...; if is_finished: break], one unit of fuel per
    iteration. *)
Fixpoint while_not_finished (fuel : nat) (is_finished : bool) (execution_tokens : Tokens)
  : M W Tokens :=
  if is_finished then ret execution_tokens
  else
    match fuel with
    | O => out_of_fuel
    | S fuel' =>
        st <- loop_body is_finished execution_tokens ;;
        if fst st then ret (snd st)
        else while_not_finished fuel' (fst st) (snd st)
    end.

(** [MeetingAgent.run(prompt, thread_id)] *)
Definition run (fuel : nat) (prompt thread_id : option str) : M W (str * str) :=
  let is_finished := false in
  let task := py_or prompt default_task in
  call (agent_add_task task (thread_or_none thread_id))
       (AddTask task (thread_or_none thread_id)) ;;
  now <- local datetime_now_strftime ;;
  let stamp := [ {| role := lit "assistant";
                    content := Some (lit "the time now is : " ++ now) |} ] in
  call (agent_add_messages (MessageList stamp)) (AddMessages (MessageList stamp)) ;;
  let execution_tokens := zero_tokens in
  execution_tokens <- while_not_finished fuel is_finished execution_tokens ;;
  result <- call agent_retrieve_execution_result RetrieveExecutionResult ;;
  let thread_id := ExecutionResult.memory_thread_id result in
  let result_text := ExecutionResult.result result in
  call (agent_report_execution_metrics execution_tokens metrics_model)
       (ReportExecutionMetrics execution_tokens metrics_model) ;;
  ret (result_text, thread_id).

End Driver.

(** ** Tool provisioning (first notebook) *)

Module Provisioning.

(** One entry of ["tools"] in [agent_config.json]; an absent key is [None]. *)
Record tool_config : Type :=
  { interface : option str; internal_name : option str }.

(** A remote interface; [name] is read with [getattr(interface, 'name', '')]. *)
Record AgenticInterface : Type :=
  { name : option str; id : str }.

(** A remote operation; [id_to_use_on_graph] is probed with [hasattr]. *)
Record AgenticOperation : Type :=
  { id_to_use_on_graph : option str; op_name : str }.

(** [d.get(key, "")] *)
Definition get_default (v : option str) : str :=
  match v with
  | Some s => s
  | None => []
  end.

(** [d[k] = v] on a dict kept as its list of items: a present key keeps its
    place and takes the new value, a new key goes last. *)
Fixpoint dict_set (V : Type) (k : str) (v : V) (d : list (str * V)) : list (str * V) :=
  match d with
  | [] => [(k, v)]
  | (k', v') :: d' =>
      if str_eqb k' k then (k, v) :: d' else (k', v') :: dict_set k v d'
  end.

(** The cell that fills [interfaces] from [agent.retrieve_agentic_interfaces()]. *)
Definition build_interfaces (remote : list AgenticInterface)
  : list (str * AgenticInterface) :=
  fold_left (fun interfaces i => dict_set (lower (get_default (name i))) i interfaces)
            remote [].

(** The inner [for name, intf in interfaces.items()] with its [break]. *)
Definition find_interface (interface_name : str) (interfaces : list (str * AgenticInterface))
  : option AgenticInterface :=
  option_map snd (find (fun ni => contains interface_name (fst ni)) interfaces).

(** [next((op for op in operations if hasattr(...) and ... == internal_name), None)] *)
Definition find_operation (internal_name : str) (operations : list AgenticOperation)
  : option AgenticOperation :=
  find (fun op => match id_to_use_on_graph op with
                  | Some i => str_eqb i internal_name
                  | None => false
                  end) operations.

Record lists : Type := { to_add : list AgenticOperation; missing : list str }.

Definition empty : lists := {| to_add := []; missing := [] |}.

(** The lists of one pass followed by those of another. *)
Definition merge (l d : lists) : lists :=
  {| to_add := to_add l ++ to_add d; missing := missing l ++ missing d |}.

Section Loop.
Variable W : Type.
(** [agent.retrieve_agentic_operations(agentic_interface=...)] *)
Variable retrieve_agentic_operations :
  AgenticInterface -> W -> result (list AgenticOperation) * W.
Variable existing_tools : list str.
Variable interfaces : list (str * AgenticInterface).

(** The body of [for tool_config in tools]. *)
Definition process_tool (acc : lists * W) (tool_config : tool_config) : lists * W :=
  let (l, w) := acc in
  let interface_name := lower (get_default (interface tool_config)) in
  let internal_name := get_default (internal_name tool_config) in
  if negb (truthy internal_name) then (l, w)
  else if existsb (str_eqb internal_name) existing_tools then (l, w)
  else
    match find_interface interface_name interfaces with
    | None =>
        ({| to_add := to_add l; missing := missing l ++ [internal_name] |}, w)
    | Some intf =>
        match retrieve_agentic_operations intf w with
        | (Ok operations, w1) =>
            match find_operation internal_name operations with
            | Some operation =>
                ({| to_add := to_add l ++ [operation]; missing := missing l |}, w1)
            | None =>
                ({| to_add := to_add l; missing := missing l ++ [internal_name] |}, w1)
            end
        | (Raise _, w1) =>
            ({| to_add := to_add l; missing := missing l ++ [internal_name] |}, w1)
        end
    end.

(** Why a tool is reported missing: no remote interface has a name that
    contains, case aside, the configured one; or the interface found has no
    operation with the configured internal name. The second case leaves the
    world as the lookup of the operations left it. *)
Inductive unmatched (remote : list AgenticInterface) (t : tool_config) (w : W) : W -> Prop :=
| no_interface :
    (forall i, In i remote ->
               contains (lower (get_default (interface t)))
                        (lower (get_default (name i))) = false) ->
    unmatched remote t w w
| no_operation (intf : AgenticInterface) (operations : list AgenticOperation) (w1 : W) :
    find_interface (lower (get_default (interface t))) (build_interfaces remote) = Some intf ->
    retrieve_agentic_operations intf w = (Ok operations, w1) ->
    (forall op, In op operations ->
                id_to_use_on_graph op <> Some (get_default (internal_name t))) ->
    unmatched remote t w w1.

Definition process_from (acc : lists * W) (tools : list tool_config) : lists * W :=
  fold_left process_tool tools acc.

(** The whole cell: [to_add = []], [missing = []], then the loop. *)
Definition process_tools (tools : list tool_config) (w : W) : lists * W :=
  process_from (empty, w) tools.

End Loop.

End Provisioning.

(** ** What "a substring of the form [[name{...}]]" means

    The shape the pattern asks for, stated on the text itself and not on the
    matcher: the reference the matcher is compared with. *)

Module Occurrence.

Definition call_text (name body : str) : str :=
  "["%char :: name ++ "{"%char :: body ++ ["}"%char; "]"%char].

(** [content] has, right after [pre], a bracketed call with this name and
    this text between the braces. *)
Definition occurs (content pre name body post : str) : Prop :=
  content = pre ++ call_text name body ++ post
  /\ name <> []
  /\ forallb is_name_char name = true
  /\ forallb dot_matches body = true.

(** No occurrence starts before [pre] ends. *)
Definition leftmost (content pre : str) : Prop :=
  forall p n b q, occurs content p n b q -> List.length pre <= List.length p.

(** No occurrence starting where [pre] ends has a longer brace part. *)
Definition widest (content pre body : str) : Prop :=
  forall n b q, occurs content pre n b q -> List.length b <= List.length body.

(** The occurrence the search selects. *)
Definition selected (content pre name body post : str) : Prop :=
  occurs content pre name body post /\ leftmost content pre /\ widest content pre body.

(** The content has exactly one occurrence. *)
Definition only_occurrence (content pre name body post : str) : Prop :=
  occurs content pre name body post
  /\ forall p n b q, occurs content p n b q -> p = pre /\ n = name /\ b = body.

(** All the occurrences, enumerated: start, name, brace part. *)
Fixpoint closes (s : str) : list str :=
  match s with
  | [] => []
  | c :: t =>
      (if close_here (c :: t) then [[]] else [])
      ++ (if dot_matches c then map (cons c) (closes t) else [])
  end.

Fixpoint name_span (s : str) : str * str :=
  match s with
  | c :: t =>
      if is_name_char c then let (n, r) := name_span t in (c :: n, r)
      else ([], s)
  | [] => ([], [])
  end.

Definition occurrences_here (s : str) : list (str * str) :=
  match s with
  | c :: t =>
      if Ascii.eqb c "[" then
        match name_span t with
        | ((_ :: _) as n, c' :: r) =>
            if Ascii.eqb c' "{" then map (pair n) (closes r) else []
        | _ => []
        end
      else []
  | [] => []
  end.

Fixpoint occurrences_from (i : nat) (s : str) : list (nat * (str * str)) :=
  map (pair i) (occurrences_here s)
  ++ match s with
     | [] => []
     | _ :: t => occurrences_from (S i) t
     end.

Definition occurrences (s : str) : list (nat * (str * str)) := occurrences_from 0 s.

End Occurrence.
Import Occurrence.

(** ** A reference evaluator for literals

    [ast.literal_eval] restricted to what the payloads of the notebook use:
    dicts, lists, quoted strings with the escapes of quote, backslash, [n]
    and [t], decimal integers, [True], [False] and [None]. Any other text
    raises. Used to run the extractor and the driver on concrete replies. *)

Module Literal.

Definition dquote : ascii := ascii_of_nat 34.
Definition backslash : ascii := ascii_of_nat 92.

Definition is_space (c : ascii) : bool :=
  Ascii.eqb c " " || Ascii.eqb c (ascii_of_nat 9) || Ascii.eqb c newline
  || Ascii.eqb c (ascii_of_nat 13).

Fixpoint skip_ws (s : str) : str :=
  match s with
  | c :: t => if is_space c then skip_ws t else s
  | [] => []
  end.

Definition is_digit (c : ascii) : bool :=
  let n := nat_of_ascii c in (48 <=? n) && (n <=? 57).

Definition is_ident_char (c : ascii) : bool :=
  is_name_char c && negb (Ascii.eqb c "-").

Fixpoint digits (acc : Z) (s : str) : Z * str :=
  match s with
  | c :: t =>
      if is_digit c
      then digits (10 * acc + Z.of_nat (nat_of_ascii c - 48)) t
      else (acc, s)
  | [] => (acc, [])
  end.

Definition unescape (c : ascii) : option ascii :=
  if Ascii.eqb c "n" then Some newline
  else if Ascii.eqb c "t" then Some (ascii_of_nat 9)
  else if Ascii.eqb c "'" || Ascii.eqb c dquote || Ascii.eqb c backslash then Some c
  else None.

(** The characters of a quoted string up to its closing quote [q]. *)
Fixpoint string_body (q : ascii) (s : str) : option (str * str) :=
  match s with
  | [] => None
  | c :: t =>
      if Ascii.eqb c q then Some ([], t)
      else if Ascii.eqb c newline then None
      else if Ascii.eqb c backslash then
        match t with
        | e :: t' =>
            match unescape e, string_body q t' with
            | Some x, Some (b, r) => Some (x :: b, r)
            | _, _ => None
            end
        | [] => None
        end
      else
        match string_body q t with
        | Some (b, r) => Some (c :: b, r)
        | None => None
        end
  end.

Definition keyword (k : string) (v : pyvalue) (s : str) : option (pyvalue * str) :=
  if startswith (lit k) s then
    match skipn (String.length k) s with
    | (c :: _) as r => if is_ident_char c then None else Some (v, r)
    | [] => Some (v, [])
    end
  else None.

Definition number (s : str) : option (pyvalue * str) :=
  match s with
  | c :: t =>
      if is_digit c then
        match t with
        | d :: _ => if Ascii.eqb c "0" && is_digit d then None
                    else let (n, r) := digits 0 s in Some (PInt n, r)
        | [] => let (n, r) := digits 0 s in Some (PInt n, r)
        end
      else None
  | [] => None
  end.

Definition atom (s : str) : option (pyvalue * str) :=
  match s with
  | c :: t =>
      if Ascii.eqb c "'" || Ascii.eqb c dquote then
        match string_body c t with
        | Some (b, r) => Some (PStr b, r)
        | None => None
        end
      else if Ascii.eqb c "-" then
        match number t with
        | Some (PInt n, r) => Some (PInt (- n), r)
        | _ => None
        end
      else if is_digit c then number s
      else
        match keyword "True" (PBool true) s with
        | Some x => Some x
        | None =>
            match keyword "False" (PBool false) s with
            | Some x => Some x
            | None => keyword "None" PNone s
            end
        end
  | [] => None
  end.

Fixpoint value (fuel : nat) (s : str) : option (pyvalue * str) :=
  match fuel with
  | O => None
  | S fuel' =>
      match skip_ws s with
      | c :: t =>
          if Ascii.eqb c "{" then dict_items fuel' [] t
          else if Ascii.eqb c "[" then list_items fuel' [] t
          else atom (c :: t)
      | [] => None
      end
  end
with list_items (fuel : nat) (acc : list pyvalue) (s : str) : option (pyvalue * str) :=
  match fuel with
  | O => None
  | S fuel' =>
      match skip_ws s with
      | c :: t =>
          if Ascii.eqb c "]" then Some (PList (rev acc), t)
          else
            match value fuel' (c :: t) with
            | Some (v, r) =>
                match skip_ws r with
                | d :: r' =>
                    if Ascii.eqb d "," then list_items fuel' (v :: acc) r'
                    else if Ascii.eqb d "]" then Some (PList (rev (v :: acc)), r')
                    else None
                | [] => None
                end
            | None => None
            end
      | [] => None
      end
  end
with dict_items (fuel : nat) (acc : list (pyvalue * pyvalue)) (s : str)
  : option (pyvalue * str) :=
  match fuel with
  | O => None
  | S fuel' =>
      match skip_ws s with
      | c :: t =>
          if Ascii.eqb c "}" then Some (PDict (rev acc), t)
          else
            match value fuel' (c :: t) with
            | Some (k, r) =>
                match skip_ws r with
                | d :: r' =>
                    if Ascii.eqb d ":" then
                      match value fuel' r' with
                      | Some (v, r2) =>
                          match skip_ws r2 with
                          | e :: r3 =>
                              if Ascii.eqb e "," then dict_items fuel' ((k, v) :: acc) r3
                              else if Ascii.eqb e "}"
                                   then Some (PDict (rev ((k, v) :: acc)), r3)
                                   else None
                          | [] => None
                          end
                      | None => None
                      end
                    else None
                | [] => None
                end
            | None => None
            end
      | [] => None
      end
  end.

Definition literal_eval (s : str) : result pyvalue :=
  match value (2 * List.length s + 2) s with
  | Some (v, r) =>
      match skip_ws r with
      | [] => Ok v
      | _ :: _ => Raise LiteralError
      end
  | None => Raise LiteralError
  end.

Definition python : Ast := Build_Ast literal_eval.

End Literal.

(** ** Replies, calls and traces, as the properties speak of them *)

(** The content of a reply: [model_response["choices"][0]["message"]["content"]]
    when it is there and is a string. *)
Definition reply_content (r : model_response) : option str :=
  match choices r with
  | c :: _ => content (message c)
  | [] => None
  end.

(** A reply with the given content. *)
Definition reply (text : str) : model_response :=
  {| choices := [ {| message := {| role := lit "assistant"; content := Some text |} |} ];
     usage := {| completion_tokens := 1; prompt_tokens := 1; total_tokens := 2 |} |}.

Definition braces (body : str) : str := "{"%char :: body ++ ["}"%char].

(** A bracketed call on one line whose brace part is a valid literal. *)
Definition well_formed_call {ast : Ast} (name body : str) (v : pyvalue) : Prop :=
  name <> []
  /\ forallb is_name_char name = true
  /\ forallb dot_matches body = true
  /\ literal_eval (braces body) = Ok v.

(** The occurrences whose brace part is a valid literal, with its value. *)
Definition well_formed_calls {ast : Ast} (text : str) : list (nat * (str * pyvalue)) :=
  flat_map
    (fun o => match literal_eval (braces (snd (snd o))) with
              | Ok v => [(fst o, (fst (snd o), v))]
              | Raise _ => []
              end)
    (occurrences text).

(** Some executed tool result of the trace carries the sentinel name. *)
Definition sentinel_observed (evs : list event) : Prop :=
  exists tool_calls responses response,
    In (RunTools tool_calls (Ok responses)) evs
    /\ In response responses
    /\ py_str (ToolCallResult.function_name response) = sentinel.

Definition sentinel_in_trace (evs : list event) : bool :=
  existsb
    (fun ev => match ev with
               | RunTools _ (Ok responses) =>
                   existsb (fun response =>
                              str_eqb (py_str (ToolCallResult.function_name response)) sentinel)
                           responses
               | _ => false
               end)
    evs.

(** The [RunTools] calls of a trace, in order. *)
Definition tool_executions (evs : list event) : list (list ToolCall.t) :=
  flat_map (fun ev => match ev with
                      | RunTools tool_calls _ => [tool_calls]
                      | _ => []
                      end) evs.

(** ** A scripted platform

    A world that answers the completion calls from a script, executes every
    tool call by echoing its name, and keeps the thread it was given. *)

Module Mock.

Record world : Type :=
  { replies : list str;
    fallback : str;
    transcript : list message_dict;
    thread : option str }.

Definition start (replies : list str) (fallback : str) : world :=
  {| replies := replies; fallback := fallback; transcript := []; thread := None |}.

Definition add_task (input : str) (thread_id : option str) (w : world) : result unit * world :=
  (Ok tt,
   {| replies := replies w;
      fallback := fallback w;
      transcript := [ {| role := lit "user"; content := Some input |} ];
      thread := Some (match thread_id with
                      | Some t => t
                      | None => lit "thread-1"
                      end) |}).

Definition add_messages (m : messages_arg) (w : world) : result unit * world :=
  (Ok tt,
   {| replies := replies w;
      fallback := fallback w;
      transcript := transcript w ++ match m with
                                    | MessageList l => l
                                    | ResponseDump r => map message (choices r)
                                    end;
      thread := thread w |}).

Definition create (model : str) (messages : list message_dict) (w : world)
  : result model_response * world :=
  match replies w with
  | text :: rest =>
      (Ok (reply text),
       {| replies := rest; fallback := fallback w;
          transcript := transcript w; thread := thread w |})
  | [] => (Ok (reply (fallback w)), w)
  end.

Definition echo (c : ToolCall.t) : ToolCallResult.t :=
  {| ToolCallResult.function_name := ToolCall.name c;
     ToolCallResult.status_code := 200;
     ToolCallResult.payload := ToolCall.payload c;
     ToolCallResult.result := PNone;
     ToolCallResult.is_success := true |}.

Definition retrieve (w : world) : result ExecutionResult.t * world :=
  (Ok {| ExecutionResult.status := lit "COMPLETED";
         ExecutionResult.result := lit "done";
         ExecutionResult.memory_thread_id := match thread w with
                                             | Some t => t
                                             | None => []
                                             end |}, w).

Definition platform : Platform world :=
  {| agent_add_task := add_task;
     agent_add_messages := add_messages;
     agent_messages := transcript;
     chat_completions_create := create;
     agent_report_llm_usage := fun _ _ w => (Ok tt, w);
     agent_run_tools := fun tool_calls w => (Ok (map echo tool_calls), w);
     agent_retrieve_execution_result := retrieve;
     agent_report_execution_metrics := fun _ _ w => (Ok tt, w);
     random_randint := fun lo _ w => (lo, w);
     datetime_now_strftime := fun w => (lit "2025-04-23 08:00:00", w) |}.

(** [meeting_agent.run(prompt, thread_id)] against the script. *)
Definition run (fuel : nat) (prompt thread_id : option str) (w : world)
  : outcome (str * str) * world * list event :=
  @run Literal.python world platform fuel prompt thread_id w.

End Mock.

(** ** The thread contract of the platform

    What the driver relies on for context continuity: a task created in a
    thread stays in it, and the execution result reports that thread. *)
Class ThreadContinuity {W : Type} (P : Platform W) : Type :=
  { thread_of : W -> option str;
    add_task_sets_thread :
      forall input t w u w',
        agent_add_task input (Some t) w = (Ok u, w') -> thread_of w' = Some t;
    add_messages_keeps_thread :
      forall m w u w',
        agent_add_messages m w = (Ok u, w') -> thread_of w' = thread_of w;
    completion_keeps_thread :
      forall model ms w r w',
        chat_completions_create model ms w = (Ok r, w') -> thread_of w' = thread_of w;
    report_usage_keeps_thread :
      forall r p w u w',
        agent_report_llm_usage r p w = (Ok u, w') -> thread_of w' = thread_of w;
    run_tools_keeps_thread :
      forall cs w rs w',
        agent_run_tools cs w = (Ok rs, w') -> thread_of w' = thread_of w;
    randint_keeps_thread :
      forall lo hi w, thread_of (snd (random_randint lo hi w)) = thread_of w;
    now_keeps_thread :
      forall w, thread_of (snd (datetime_now_strftime w)) = thread_of w;
    result_reports_thread :
      forall w r w' t,
        agent_retrieve_execution_result w = (Ok r, w') ->
        thread_of w = Some t ->
        ExecutionResult.memory_thread_id r = t }.

(** ** Replies used as test inputs *)

Module Replies.

Definition no_call : str := lit "I have no tool to call for this request.".

Definition finish_body : str := lit "'bodyParams': {'result': 'ok', 'is_success': True}".

Definition finish_payload : pyvalue :=
  PDict [(PStr (lit "bodyParams"),
          PDict [(PStr (lit "result"), PStr (lit "ok"));
                 (PStr (lit "is_success"), PBool true)])].

(** The reply of the first recorded run, in its [<TOOLCALL>] tags. *)
Definition finish : str :=
  lit "<TOOLCALL>" ++ call_text sentinel finish_body ++ lit "</TOOLCALL>".

Definition calendar_body : str := lit "'pathParams': {'calendarId': 'primary'}".

Definition calendar : str :=
  call_text (lit "CalendarEventManagementGetCalendarEventsById") calendar_body.

(** A call followed, on the same line, by a stray [}\]]. *)
Definition trailing_close : str := lit "[foo{'a': 1}] }]".

(** A call whose mapping is written on two lines. *)
Definition two_line_body : str := lit "'a':" ++ newline :: lit " 1".
Definition two_line_call : str := call_text (lit "foo") two_line_body.

Definition malformed : str := lit "[foo{not valid}]".

(** A valid call, then a malformed one on the next line. *)
Definition valid_then_malformed : str :=
  lit "[a{'x': 1}]" ++ newline :: lit "[foo{not valid}]".

Definition two_on_one_line : str := lit "[a{'x': 1}] [b{'y': 2}]".

Definition two_on_two_lines : str :=
  call_text (lit "a") (lit "'x': 1") ++ newline :: call_text (lit "b") (lit "'y': 2").

(** The invocation the driver builds from [finish] on the scripted platform. *)
Definition finish_call : ToolCall.t :=
  {| ToolCall.name := Some sentinel;
     ToolCall.type := XPANDER;
     ToolCall.payload := Some finish_payload;
     ToolCall.tool_call_id := lit "call_100000" |}.

Definition thread_1 : str := lit "b1047931-665b-4101-80ed-8a24187dbbd2".

Definition x_is_1 : pyvalue := PDict [(PStr (lit "x"), PInt 1)].
Definition y_is_2 : pyvalue := PDict [(PStr (lit "y"), PInt 2)].
Definition a_is_1 : pyvalue := PDict [(PStr (lit "a"), PInt 1)].

End Replies.

(** ** An organization used as test input for the provisioning *)

Module Organization.
Import Provisioning.

Definition calendar_interface : AgenticInterface :=
  {| name := Some (lit "Ruben's Personal Google Calendar"); id := lit "intf-calendar" |}.

Definition tools_interface : AgenticInterface :=
  {| name := Some (lit "xpanderAI Tools"); id := lit "intf-tools" |}.

Definition remote : list AgenticInterface := [tools_interface; calendar_interface].

Definition get_events : AgenticOperation :=
  {| id_to_use_on_graph := Some (lit "CalendarEventManagementGetCalendarEventsById");
     op_name := lit "Get Calendar Events by ID" |}.

Definition create_bot : AgenticOperation :=
  {| id_to_use_on_graph := Some (lit "XpanderMeetingManagementCreateRecordingBot");
     op_name := lit "Create Meeting Recording Bot" |}.

Definition send_email : AgenticOperation :=
  {| id_to_use_on_graph := Some (lit "XpanderMessagingServiceSendEmailWithContent");
     op_name := lit "Send Email with Content" |}.

Definition retrieve (i : AgenticInterface) (w : unit)
  : result (list AgenticOperation) * unit :=
  if str_eqb (id i) (lit "intf-calendar")
  then (Ok [get_events], w)
  else (Ok [create_bot; send_email], w).

Definition bot_tool : tool_config :=
  {| interface := Some (lit "xpanderai tools");
     internal_name := Some (lit "XpanderMeetingManagementCreateRecordingBot") |}.

Definition email_tool : tool_config :=
  {| interface := Some (lit "xpanderai tools");
     internal_name := Some (lit "XpanderMessagingServiceSendEmailWithContent") |}.

(** The calendar tool as the earlier configuration spells its interface. *)
Definition calendar_tool : tool_config :=
  {| interface := Some (lit "google-calendar");
     internal_name := Some (lit "CalendarEventManagementGetCalendarEventsById") |}.

End Organization.

(** ** Reading a trace *)

(** The token counts of the completions that returned, added to [acc]. *)
Definition add_completions (acc : Tokens) (evs : list event) : Tokens :=
  fold_left
    (fun acc ev =>
       match ev with
       | ChatCompletion _ _ (Ok response) => add_usage acc (usage response)
       | _ => acc
       end)
    evs acc.

Definition completion_usage (evs : list event) : Tokens :=
  add_completions zero_tokens evs.

(** Some result of the list carries the sentinel name. *)
Definition carries_sentinel (responses : list ToolCallResult.t) : bool :=
  existsb (fun response =>
             str_eqb (py_str (ToolCallResult.function_name response)) sentinel)
          responses.

(** A call to the model or to the tools. *)
Definition asks_model_or_tools (ev : event) : bool :=
  match ev with
  | ChatCompletion _ _ _ => true
  | RunTools _ _ => true
  | _ => false
  end.

(** Every tool execution of the trace directly follows the recording of a
    reply, and executes the one call extracted from that reply. *)
Definition executes_what_was_extracted {ast : Ast} (evs : list event) : Prop :=
  forall tool_calls r,
    In (RunTools tool_calls r) evs ->
    exists before response tool_call after,
      evs = before ++ AddMessages (ResponseDump response) (Ok tt)
                   :: RunTools [tool_call] r :: after
      /\ tool_calls = [tool_call]
      /\ ToolCall.type tool_call = XPANDER
      /\ get_function_and_payload response
         = Ok (ToolCall.name tool_call, ToolCall.payload tool_call).

(** After a result that carries the sentinel, no completion is asked and no
    tool is executed. *)
Definition quiet_after_sentinel (evs : list event) : Prop :=
  forall e1 tool_calls responses e2,
    evs = e1 ++ RunTools tool_calls (Ok responses) :: e2 ->
    carries_sentinel responses = true ->
    forallb (fun ev => negb (asks_model_or_tools ev)) e2 = true.

(** The calls the loop body makes. *)
Definition loop_event (ev : event) : bool :=
  match ev with
  | ChatCompletion _ _ _ => true
  | ReportLLMUsage _ _ => true
  | AddMessages (ResponseDump _) _ => true
  | RunTools _ _ => true
  | _ => false
  end.

(** The exception a call of the trace raised, if it raised one. *)
Definition failure (ev : event) : option exn :=
  match ev with
  | AddTask _ _ (Raise e) => Some e
  | AddMessages _ (Raise e) => Some e
  | ChatCompletion _ _ (Raise e) => Some e
  | ReportLLMUsage _ (Raise e) => Some e
  | RunTools _ (Raise e) => Some e
  | RetrieveExecutionResult (Raise e) => Some e
  | ReportExecutionMetrics _ _ (Raise e) => Some e
  | _ => None
  end.

Definition succeeded (ev : event) : bool :=
  match failure ev with
  | Some _ => false
  | None => true
  end.

(** A failed call is the last call of the trace, and its exception is the
    outcome. *)
Definition stops_at_failure {A : Type} (out : outcome A) (evs : list event) : Prop :=
  forall e1 ev e2 e,
    evs = e1 ++ ev :: e2 -> failure ev = Some e -> e2 = [] /\ out = Raised e.

(** Where an exception that ends a trace comes from: the last call raised
    it, or the extractor raised it on the reply recorded last. *)
Definition raised_at_end {ast : Ast} (e : exn) (evs : list event) : Prop :=
  (exists before ev, evs = before ++ [ev] /\ failure ev = Some e)
  \/ (exists before response,
        evs = before ++ [AddMessages (ResponseDump response) (Ok tt)]
        /\ get_function_and_payload response = Raise e).

(** ** A platform whose completion endpoint is down *)

Module Outage.

Definition unavailable : exn := RemoteError (lit "503 Service Unavailable").

Definition platform : Platform Mock.world :=
  {| agent_add_task := Mock.add_task;
     agent_add_messages := Mock.add_messages;
     agent_messages := Mock.transcript;
     chat_completions_create := fun _ _ w => (Raise unavailable, w);
     agent_report_llm_usage := fun _ _ w => (Ok tt, w);
     agent_run_tools := fun tool_calls w => (Ok (map Mock.echo tool_calls), w);
     agent_retrieve_execution_result := Mock.retrieve;
     agent_report_execution_metrics := fun _ _ w => (Ok tt, w);
     random_randint := fun lo _ w => (lo, w);
     datetime_now_strftime := fun w => (lit "2025-04-23 08:00:00", w) |}.

Definition run (fuel : nat) (prompt thread_id : option str) (w : Mock.world)
  : outcome (str * str) * Mock.world * list event :=
  @run Literal.python Mock.world platform fuel prompt thread_id w.

End Outage.

(** ** Which configured tools the loop looks up *)

Module Lookup.
Import Provisioning.

(** The two guards of the loop body: the tool has an internal name, and no
    tool of that name is attached yet. *)
Definition eligible (existing_tools : list str) (t : tool_config) : bool :=
  truthy (get_default (internal_name t))
  && negb (existsb (str_eqb (get_default (internal_name t))) existing_tools).

(** The key of an interface in [interfaces]. *)
Definition key (i : AgenticInterface) : str := lower (get_default (name i)).

End Lookup.

(** ** More test input for the provisioning *)

Module Listing.
Import Provisioning.

(** A second interface whose name differs from [tools_interface] in case only. *)
Definition tools_interface_again : AgenticInterface :=
  {| name := Some (lit "XpanderAI TOOLS"); id := lit "intf-tools-2" |}.

Definition remote : list AgenticInterface :=
  [Organization.calendar_interface; Organization.tools_interface; tools_interface_again].

(** A tool configured without its ["interface"] key. *)
Definition bot_tool_anywhere : tool_config :=
  {| interface := None;
     internal_name := Some (lit "XpanderMeetingManagementCreateRecordingBot") |}.

(** The calendar tool as the configuration listed in the notebook spells its
    interface. *)
Definition calendar_tool : tool_config :=
  {| interface := Some (lit "google calendar");
     internal_name := Some (lit "CalendarEventManagementGetCalendarEventsById") |}.

Definition timeout : exn := RemoteError (lit "timed out").

(** The operations of the calendar interface cannot be listed. *)
Definition retrieve (i : AgenticInterface) (w : unit)
  : result (list AgenticOperation) * unit :=
  if str_eqb (id i) (lit "intf-calendar")
  then (Raise timeout, w)
  else (Ok [Organization.create_bot; Organization.send_email], w).

End Listing.

(** ** Attaching the operations (first notebook, the cell after the loop) *)

Module Attach.
Import Provisioning.

Inductive AgentGraphItemType : Type := TOOL.

(** [GraphItem(agent=agent, item_id=..., name=..., type=..., is_local_tool=...)] *)
Record GraphItem : Type :=
  { item_id : str;
    item_name : str;
    type : AgentGraphItemType;
    is_local_tool : bool }.

(** The three calls of the cell into the SDK. *)
Class Agent (W : Type) : Type :=
  { agent_attach_operations : list AgenticOperation -> W -> result unit * W;
    agent_graph_add_node : GraphItem -> W -> result unit * W;
    agent_sync : W -> result unit * W }.

Inductive call : Type :=
| AttachOperations (operations : list AgenticOperation) (r : result unit)
| AddNode (item : GraphItem) (r : result unit)
| Sync (r : result unit).

(** What [except Exception] catches here: the exception of a call, or the
    [AttributeError] of [op.id_to_use_on_graph] on an operation without it. *)
Inductive caught : Type :=
| AttributeError
| Remote (e : exn).

Inductive printed : Type :=
| Adding (n : nat)
| Added (n : nat)
| ErrorAdding (e : caught)
| NothingToAdd.

(** The graph item built for an operation; [None] when the attribute access
    raises. *)
Definition node (op : AgenticOperation) : option GraphItem :=
  match id_to_use_on_graph op with
  | Some i => Some {| item_id := i; item_name := op_name op;
                      type := TOOL; is_local_tool := false |}
  | None => None
  end.

Section Cell.
Context {W : Type} {agent : Agent W}.

(** [for op in to_add: agent.graph.add_node(GraphItem(...))] *)
Fixpoint add_nodes (ops : list AgenticOperation) (w : W)
  : option caught * W * list call :=
  match ops with
  | [] => (None, w, [])
  | op :: ops' =>
      match node op with
      | None => (Some AttributeError, w, [])
      | Some item =>
          match agent_graph_add_node item w with
          | (Ok _, w1) =>
              let '(r, w2, cs) := add_nodes ops' w1 in
              (r, w2, AddNode item (Ok tt) :: cs)
          | (Raise e, w1) => (Some (Remote e), w1, [AddNode item (Raise e)])
          end
      end
  end.

(** The whole cell: the world it leaves, the calls it made, what it printed. *)
Definition add_tools (to_add : list AgenticOperation) (w : W)
  : W * list call * list printed :=
  match to_add with
  | [] => (w, [], [NothingToAdd])
  | _ :: _ =>
      let n := List.length to_add in
      match agent_attach_operations to_add w with
      | (Raise e, w1) =>
          (w1, [AttachOperations to_add (Raise e)], [Adding n; ErrorAdding (Remote e)])
      | (Ok _, w1) =>
          match add_nodes to_add w1 with
          | (Some e, w2, cs) =>
              (w2, AttachOperations to_add (Ok tt) :: cs, [Adding n; ErrorAdding e])
          | (None, w2, cs) =>
              match agent_sync w2 with
              | (Ok _, w3) =>
                  (w3, AttachOperations to_add (Ok tt) :: cs ++ [Sync (Ok tt)],
                   [Adding n; Added n])
              | (Raise e, w3) =>
                  (w3, AttachOperations to_add (Ok tt) :: cs ++ [Sync (Raise e)],
                   [Adding n; ErrorAdding (Remote e)])
              end
          end
      end
  end.

End Cell.

(** The exception a call raised, if it raised one. *)
Definition raised (c : call) : option exn :=
  match c with
  | AttachOperations _ (Raise e) => Some e
  | AddNode _ (Raise e) => Some e
  | Sync (Raise e) => Some e
  | _ => None
  end.

(** An agent that accepts the operations but whose graph rejects a node
    whose id is in [rejected]. *)
Definition strict (rejected : list str) : Agent (list GraphItem) :=
  {| agent_attach_operations := fun _ w => (Ok tt, w);
     agent_graph_add_node :=
       fun item w =>
         if existsb (str_eqb (item_id item)) rejected
         then (Raise (RemoteError (lit "rejected")), w)
         else (Ok tt, w ++ [item]);
     agent_sync := fun w => (Ok tt, w) |}.

End Attach.

(** ** Getting or creating the agent (first notebook) *)

Module DotEnv.

Definition key : str := lit "XPANDER_AGENT_ID".

Definition prefix : str := lit "XPANDER_AGENT_ID=".

Definition carriage_return : ascii := ascii_of_nat 13.

(** The line boundaries of [str.splitlines] among the characters below 256:
    [\n], [\v], [\f], [\r], [\x1c], [\x1d], [\x1e], [\x85]. *)
Definition is_line_boundary (c : ascii) : bool :=
  existsb (Nat.eqb (nat_of_ascii c)) [10; 11; 12; 13; 28; 29; 30; 133].

(** [s.splitlines()]: [\r\n] is one boundary, and a boundary at the very end
    opens no last empty line. *)
Fixpoint splitlines (s : str) : list str :=
  match s with
  | [] => []
  | c :: t =>
      if is_line_boundary c then
        if Ascii.eqb c carriage_return then
          match t with
          | c2 :: t2 =>
              if Ascii.eqb c2 newline then [] :: splitlines t2
              else [] :: splitlines t
          | [] => [] :: splitlines t
          end
        else [] :: splitlines t
      else
        match splitlines t with
        | [] => [[c]]
        | l :: ls => (c :: l) :: ls
        end
  end.

(** [sep.join(lines)] *)
Fixpoint join (sep : str) (lines : list str) : str :=
  match lines with
  | [] => []
  | [l] => l
  | l :: rest => l ++ sep ++ join sep rest
  end.

(** [f"XPANDER_AGENT_ID={agent.id}"] *)
Definition assignment (agent_id : str) : str := prefix ++ agent_id.

(** [line if not line.startswith("XPANDER_AGENT_ID=") else f"..."] *)
Definition replace_line (agent_id : str) (line : str) : str :=
  if negb (startswith prefix line) then line else assignment agent_id.

(** What is written to [.env], from what was read from it. *)
Definition update_env (env_content agent_id : str) : str :=
  if contains key env_content
  then join [newline] (map (replace_line agent_id) (splitlines env_content))
  else env_content ++ [newline] ++ assignment agent_id.

(** A line holds no line boundary. *)
Definition one_line (l : str) : bool := forallb (fun c => negb (is_line_boundary c)) l.

End DotEnv.

Module Registration.
Import DotEnv.

Definition agent_name : str := lit "AI Meeting Recorder Agent".

(** What the cell reads of an agent. *)
Record Agent : Type := { name : str; id : str }.

(** [xpander_client.agents.get] and [xpander_client.agents.create]. *)
Class Client (W : Type) : Type :=
  { agents_get : str -> W -> result Agent * W;
    agents_create : str -> W -> result Agent * W }.

Inductive call : Type :=
| Get (agent_id : str) (r : result Agent)
| Create (name : str) (r : result Agent).

(** What [except Exception] catches here: the exception of a call, or the
    [FileNotFoundError] of [open(".env", "r")]. *)
Inductive caught : Type :=
| FileNotFoundError
| Remote (e : exn).

Inductive printed : Type :=
| UsingExisting (name id : str)
| CreatedNew (name id : str)
| ErrorWithAgent (e : caught).

(** The variables and the file after the cell. [agent] is [None] when the
    name is left unbound; [env_file] is [None] when there is no [.env]. *)
Record state (W : Type) : Type :=
  { agent : option Agent;
    agent_id : option str;
    env_file : option str;
    world : W;
    calls : list call;
    output : list printed }.

Section Cell.
Context {W : Type} {client : Client W}.

(** The cell, from [os.environ.get("XPANDER_AGENT_ID")], the file and the
    remote state. *)
Definition get_or_create (environ_agent_id : option str) (env_file : option str) (w : W)
  : state W :=
  if match environ_agent_id with Some i => truthy i | None => false end then
    let i := match environ_agent_id with Some i => i | None => [] end in
    match agents_get i w with
    | (Ok a, w1) =>
        {| agent := Some a; agent_id := environ_agent_id; env_file := env_file;
           world := w1; calls := [Get i (Ok a)];
           output := [UsingExisting (name a) (id a)] |}
    | (Raise e, w1) =>
        {| agent := None; agent_id := environ_agent_id; env_file := env_file;
           world := w1; calls := [Get i (Raise e)];
           output := [ErrorWithAgent (Remote e)] |}
    end
  else
    match agents_create agent_name w with
    | (Ok a, w1) =>
        match env_file with
        | Some env_content =>
            {| agent := Some a; agent_id := Some (id a);
               env_file := Some (update_env env_content (id a));
               world := w1; calls := [Create agent_name (Ok a)];
               output := [CreatedNew (name a) (id a)] |}
        | None =>
            {| agent := Some a; agent_id := Some (id a); env_file := None;
               world := w1; calls := [Create agent_name (Ok a)];
               output := [ErrorWithAgent FileNotFoundError] |}
        end
    | (Raise e, w1) =>
        {| agent := None; agent_id := environ_agent_id; env_file := env_file;
           world := w1; calls := [Create agent_name (Raise e)];
           output := [ErrorWithAgent (Remote e)] |}
    end.

End Cell.

(** A client that numbers the agents it creates; its state is the number of
    agents created so far. *)
Definition counting : Client nat :=
  {| agents_get := fun i n => (Ok {| name := agent_name; id := i |}, n);
     agents_create :=
       fun name n => (Ok {| name := name; id := lit "agent-" ++ str_of_Z (Z.of_nat n) |},
                      S n) |}.

End Registration.

(** ** Files used as test input *)

Module EnvFiles.

(** The key is there, with an empty value. *)
Definition template : str :=
  lit "XPANDER_API_KEY=abc" ++ newline :: lit "XPANDER_AGENT_ID=" ++ newline
  :: lit "NVIDIA_NIM_API_KEY=def" ++ [newline].

(** The key is exported, so that no line starts with it. *)
Definition exported : str :=
  lit "export XPANDER_API_KEY=abc" ++ newline :: lit "export XPANDER_AGENT_ID=" ++ [newline].

(** The key is not there, and the last line is not ended. *)
Definition without_key : str := lit "XPANDER_API_KEY=abc".

End EnvFiles.

(** ** The tools already attached (first notebook) *)

Module ExistingTools.
Import Provisioning.

(** [d.get(k)] for a string key, on a dict kept as its list of items: of two
    items with the key, the later one counts. *)
Definition get (k : str) (items : list (pyvalue * pyvalue)) : option pyvalue :=
  option_map snd
    (find (fun kv => match fst kv with
                     | PStr s => str_eqb s k
                     | _ => false
                     end) (rev items)).

(** Truth value of a Python value. *)
Definition truthy_value (v : pyvalue) : bool :=
  match v with
  | PNone => false
  | PBool b => b
  | PInt n => negb (n =? 0)%Z
  | PStr s => truthy s
  | PList l => match l with [] => false | _ :: _ => true end
  | PDict d => match d with [] => false | _ :: _ => true end
  end.

(** [fn.get('name')] when the tool passes the three tests of the [if], with
    [None] of Python as [PNone]; nothing when it does not. *)
Definition function_name (tool : pyvalue) : option pyvalue :=
  match tool with
  | PDict items =>
      match get (lit "function") items with
      | Some (PDict fn) =>
          Some match get (lit "name") fn with
               | Some v => v
               | None => PNone
               end
      | _ => None
      end
  | _ => None
  end.

(** The body of [for tool in tools_list], on the string keys of
    [existing_tools]: a key that is not a string equals no internal name, a
    list or a dict is not hashable. *)
Definition add_tool (existing_tools : list (str * bool)) (tool : pyvalue)
  : result (list (str * bool)) :=
  match function_name tool with
  | Some name =>
      if truthy_value name then
        match name with
        | PStr s => Ok (dict_set s true existing_tools)
        | PList _ => Raise TypeError
        | PDict _ => Raise TypeError
        | _ => Ok existing_tools
        end
      else Ok existing_tools
  | None => Ok existing_tools
  end.

Fixpoint add_tools_from (existing_tools : list (str * bool)) (tools_list : list pyvalue)
  : result (list (str * bool)) :=
  match tools_list with
  | [] => Ok existing_tools
  | tool :: rest =>
      match add_tool existing_tools tool with
      | Ok existing_tools' => add_tools_from existing_tools' rest
      | Raise e => Raise e
      end
  end.

(** The cell, from what [agent.get_tools()] returned. *)
Definition existing_tools (tools_list : list pyvalue) : result (list (str * bool)) :=
  add_tools_from [] tools_list.

(** A tool as [agent.get_tools()] lists it. *)
Definition tool (name : str) : pyvalue :=
  PDict [(PStr (lit "type"), PStr (lit "function"));
         (PStr (lit "function"),
          PDict [(PStr (lit "name"), PStr name);
                 (PStr (lit "description"), PStr (lit "..."))])].

End ExistingTools.

(** Every completion received is from the one model, and its usage is
    reported, and its reply then recorded, before anything else is called. *)
Definition reports_every_completion (evs : list event) : Prop :=
  forall model messages response,
    In (ChatCompletion model messages (Ok response)) evs ->
    model = model_name
    /\ exists before r after,
         evs = before ++ ChatCompletion model messages (Ok response)
                      :: ReportLLMUsage response r :: after
         /\ (r = Ok tt ->
             exists r' after',
               after = AddMessages (ResponseDump response) r' :: after').

(** ** A platform that opens a new thread for every task

    It runs the script as the scripted platform does, but pays no attention
    to the thread id of [add_task]. *)

Module Fresh.

Definition thread_name : str := lit "fresh-thread".

Definition add_task (input : str) (thread_id : option str) (w : Mock.world)
  : result unit * Mock.world :=
  (Ok tt,
   {| Mock.replies := Mock.replies w;
      Mock.fallback := Mock.fallback w;
      Mock.transcript := [ {| role := lit "user"; content := Some input |} ];
      Mock.thread := Some thread_name |}).

Definition platform : Platform Mock.world :=
  {| agent_add_task := add_task;
     agent_add_messages := Mock.add_messages;
     agent_messages := Mock.transcript;
     chat_completions_create := Mock.create;
     agent_report_llm_usage := fun _ _ w => (Ok tt, w);
     agent_run_tools := fun tool_calls w => (Ok (map Mock.echo tool_calls), w);
     agent_retrieve_execution_result := Mock.retrieve;
     agent_report_execution_metrics := fun _ _ w => (Ok tt, w);
     random_randint := fun lo _ w => (lo, w);
     datetime_now_strftime := fun w => (lit "2025-04-23 08:00:00", w) |}.

Definition run (fuel : nat) (prompt thread_id : option str) (w : Mock.world)
  : outcome (str * str) * Mock.world * list event :=
  @run Literal.python Mock.world platform fuel prompt thread_id w.

End Fresh.

(** * Properties *)

(** ** Strings *)

Module PyStrFacts.

Lemma str_eqb_refl (a : str) : str_eqb a a = true.
Proof.
  induction a as [|x a IH]; simpl; [reflexivity|].
  now rewrite Ascii.eqb_refl, IH.
Qed.

Lemma str_eqb_eq (a b : str) : str_eqb a b = true <-> a = b.
Proof.
  split.
  - revert b. induction a as [|x a IH]; intros [|y b]; simpl; try discriminate; auto.
    intros H. apply andb_true_iff in H as [Hx Hab].
    apply Ascii.eqb_eq in Hx. subst. f_equal. now apply IH.
  - intros ->. apply str_eqb_refl.
Qed.

Lemma str_eqb_neq (a b : str) : str_eqb a b = false <-> a <> b.
Proof.
  split.
  - intros H Heq. apply str_eqb_eq in Heq. congruence.
  - intros H. destruct (str_eqb a b) eqn:E; [|reflexivity].
    apply str_eqb_eq in E. contradiction.
Qed.

Lemma startswith_spec (p s : str) :
  startswith p s = true <-> exists t, s = p ++ t.
Proof.
  revert s. induction p as [|x p IH]; intros s; simpl.
  - split; [intros _; now exists s | reflexivity].
  - destruct s as [|y s].
    + split; [discriminate | intros [t Ht]; discriminate].
    + rewrite andb_true_iff, Ascii.eqb_eq, IH. split.
      * intros [-> [t ->]]. now exists t.
      * intros [t Ht]. injection Ht as -> ->. split; [reflexivity | now exists t].
Qed.

Lemma contains_spec (p s : str) :
  contains p s = true <-> exists a b, s = a ++ p ++ b.
Proof.
  induction s as [|y s IH]; simpl.
  - rewrite orb_false_r, startswith_spec. split.
    + intros [t Ht]. now exists [], t.
    + intros [a [b H]]. destruct a; simpl in H.
      * now exists b.
      * discriminate.
  - rewrite orb_true_iff, IH, startswith_spec. split.
    + intros [[t Ht] | [a [b Hab]]].
      * now exists [], t.
      * exists (y :: a), b. simpl. now rewrite Hab.
    + intros [a [b H]]. destruct a as [|z a]; simpl in H.
      * left. now exists b.
      * right. injection H as _ H. now exists a, b.
Qed.

(** Two prefixes of the same length of one text are the same prefix. *)
Lemma app_same_length (A : Type) (a b c d : list A) :
  a ++ b = c ++ d -> List.length a = List.length c -> a = c /\ b = d.
Proof.
  revert c. induction a as [|x a IH]; intros [|y c] H Hl; simpl in *; try discriminate.
  - now split.
  - injection H as -> H. injection Hl as Hl.
    destruct (IH _ H Hl) as [-> ->]. now split.
Qed.

(** Of two prefixes of one text, the shorter is a prefix of the longer. *)
Lemma app_shorter (A : Type) (a b c d : list A) :
  a ++ b = c ++ d -> List.length a <= List.length c -> exists m, c = a ++ m /\ b = m ++ d.
Proof.
  revert c. induction a as [|x a IH]; intros c H Hl; simpl in *.
  - exists c. now split.
  - destruct c as [|y c]; simpl in *; [lia|].
    injection H as -> H.
    destruct (IH c H ltac:(lia)) as [m [-> ->]].
    exists m. now split.
Qed.

(** A newline-free prefix of a text lies within its first line. *)
Lemma first_line_prefix (a q s : str) :
  a ++ q = s -> forallb dot_matches a = true -> exists m, first_line s = a ++ m.
Proof.
  revert s. induction a as [|x a IH]; intros s H Hd; simpl in *.
  - now exists (first_line s).
  - subst s. apply andb_true_iff in Hd as [Hx Ha]. simpl.
    unfold dot_matches in Hx. apply negb_true_iff in Hx. rewrite Hx.
    destruct (IH (a ++ q) eq_refl Ha) as [m Hm].
    exists m. now rewrite Hm.
Qed.

Lemma first_line_app_newline (mid rest : str) :
  forallb dot_matches mid = true -> first_line (mid ++ newline :: rest) = mid.
Proof.
  induction mid as [|x mid IH]; simpl; intros H.
  - reflexivity.
  - apply andb_true_iff in H as [Hx Hm].
    unfold dot_matches in Hx. apply negb_true_iff in Hx. rewrite Hx.
    now rewrite IH.
Qed.

End PyStrFacts.
Import PyStrFacts.

(** ** The matcher against the shape it searches for *)

Module PatternFacts.

Lemma name_char_not_open (c : ascii) : is_name_char c = true -> Ascii.eqb c "{" = false.
Proof.
  intros H. destruct (Ascii.eqb c "{") eqn:E; [|reflexivity].
  apply Ascii.eqb_eq in E. subst c. discriminate H.
Qed.

Lemma close_here_spec (s : str) :
  close_here s = true <-> exists post, s = "}"%char :: "]"%char :: post.
Proof.
  destruct s as [|c1 [|c2 t]]; simpl.
  - split; [discriminate | intros [? ?]; discriminate].
  - split; [discriminate | intros [? ?]; discriminate].
  - rewrite andb_true_iff, !Ascii.eqb_eq. split.
    + intros [-> ->]. now exists t.
    + intros [post H]. injection H as -> -> _. now split.
Qed.

Lemma dot_star_close_cons (c : ascii) (t : str) :
  dot_star_close (c :: t)
  = if dot_matches c then
      match dot_star_close t with
      | Some b => Some (c :: b)
      | None => if close_here (c :: t) then Some [] else None
      end
    else if close_here (c :: t) then Some [] else None.
Proof. reflexivity. Qed.

Lemma name_plus_cons (R : Type) (k : str -> option R) (c : ascii) (t : str) :
  name_plus k (c :: t)
  = if is_name_char c then
      match name_plus k t with
      | Some (n, r) => Some (c :: n, r)
      | None => match k t with
                | Some r => Some ([c], r)
                | None => None
                end
      end
    else None.
Proof. reflexivity. Qed.

(** What the star took is followed by [}\]] and has no newline. *)
Lemma dot_star_close_sound (s b : str) :
  dot_star_close s = Some b ->
  forallb dot_matches b = true
  /\ exists post, s = b ++ "}"%char :: "]"%char :: post.
Proof.
  revert b. induction s as [|c t IH]; intros b H; [discriminate|].
  rewrite dot_star_close_cons in H.
  assert (Hhere : (if close_here (c :: t) then Some [] else None) = Some b ->
                  forallb dot_matches b = true
                  /\ exists post, c :: t = b ++ "}"%char :: "]"%char :: post).
  { destruct (close_here (c :: t)) eqn:E; [|discriminate].
    intros [= <-]. split; [reflexivity|].
    apply close_here_spec in E as [post ->]. now exists post. }
  destruct (dot_matches c) eqn:Hc; [|now apply Hhere].
  destruct (dot_star_close t) as [b'|] eqn:Ht; [|now apply Hhere].
  injection H as <-. destruct (IH _ eq_refl) as [Hb [post ->]].
  split.
  - simpl. now rewrite Hc, Hb.
  - now exists post.
Qed.

(** The star takes at least as much as any other way to reach a [}\]]. *)
Lemma dot_star_close_longest (b post : str) :
  forallb dot_matches b = true ->
  exists b', dot_star_close (b ++ "}"%char :: "]"%char :: post) = Some b'
             /\ List.length b <= List.length b'.
Proof.
  induction b as [|c b IH]; intros Hb.
  - cbn [app]. rewrite dot_star_close_cons.
    change (dot_matches "}") with true. cbv iota.
    destruct (dot_star_close ("]"%char :: post)) as [b'|].
    + exists ("}"%char :: b'). split; [reflexivity | simpl; lia].
    + exists []. split; [reflexivity | simpl; lia].
  - simpl in Hb. apply andb_true_iff in Hb as [Hc Hb].
    destruct (IH Hb) as [b' [E Hl]].
    exists (c :: b'). cbn [app]. rewrite dot_star_close_cons, Hc, E.
    split; [reflexivity | simpl; lia].
Qed.

Lemma name_plus_sound (R : Type) (k : str -> option R) (s n : str) (r : R) :
  name_plus k s = Some (n, r) ->
  n <> [] /\ forallb is_name_char n = true
  /\ exists rest, s = n ++ rest /\ k rest = Some r.
Proof.
  revert n. induction s as [|c t IH]; intros n H; [discriminate|].
  rewrite name_plus_cons in H.
  destruct (is_name_char c) eqn:Hc; [|discriminate].
  destruct (name_plus k t) as [[n' r']|] eqn:Ht.
  - injection H as <- <-.
    destruct (IH _ eq_refl) as [_ [Hn [rest [-> Hk]]]].
    split; [discriminate|]. split.
    + simpl. now rewrite Hc, Hn.
    + now exists rest.
  - destruct (k t) as [r'|] eqn:Hk; [|discriminate].
    injection H as <- <-.
    split; [discriminate|]. split.
    + simpl. now rewrite Hc.
    + now exists t.
Qed.

(** On a run of name characters followed by an opening brace, the name is
    the whole run: giving characters back never helps. *)
Lemma name_plus_complete (n rest : str) :
  n <> [] -> forallb is_name_char n = true ->
  name_plus brace_group (n ++ "{"%char :: rest)
  = match brace_group ("{"%char :: rest) with
    | Some g => Some (n, g)
    | None => None
    end.
Proof.
  induction n as [|c n IH]; intros Hne Hn; [congruence|].
  simpl in Hn. apply andb_true_iff in Hn as [Hc Hn].
  cbn [app]. rewrite name_plus_cons, Hc.
  destruct n as [|c' n].
  - cbn [app]. rewrite name_plus_cons.
    change (is_name_char "{") with false. cbv iota.
    destruct (brace_group ("{"%char :: rest)); reflexivity.
  - rewrite (IH ltac:(discriminate) Hn).
    destruct (brace_group ("{"%char :: rest)) as [g|]; [reflexivity|].
    simpl in Hn. apply andb_true_iff in Hn as [Hc' _].
    cbn [app]. unfold brace_group at 1. now rewrite (name_char_not_open _ Hc').
Qed.

(** A name is determined by the text: the run of name characters up to the
    opening brace. *)
Lemma name_unique (n n' x y : str) :
  forallb is_name_char n = true -> forallb is_name_char n' = true ->
  n ++ "{"%char :: x = n' ++ "{"%char :: y -> n = n' /\ x = y.
Proof.
  revert n'. induction n as [|c n IH]; intros [|c' n'] Hn Hn' H; simpl in *.
  - injection H as ->. now split.
  - injection H as <- _. apply andb_true_iff in Hn' as [Hc _]. discriminate Hc.
  - injection H as -> _. apply andb_true_iff in Hn as [Hc _]. discriminate Hc.
  - injection H as -> H.
    apply andb_true_iff in Hn as [_ Hn]. apply andb_true_iff in Hn' as [_ Hn'].
    destruct (IH _ Hn Hn' H) as [-> ->]. now split.
Qed.

End PatternFacts.
Import PatternFacts.

(** ** The search against the occurrences of the shape *)

Module SearchFacts.

Lemma call_text_app (n b post : str) :
  call_text n b ++ post = "["%char :: n ++ "{"%char :: b ++ "}"%char :: "]"%char :: post.
Proof.
  unfold call_text. simpl. rewrite <- app_assoc. simpl. rewrite <- app_assoc. reflexivity.
Qed.

Lemma occurs_nil_inv (s n b post : str) :
  occurs s [] n b post ->
  exists t, s = "["%char :: t /\ t = n ++ "{"%char :: b ++ "}"%char :: "]"%char :: post.
Proof.
  intros [-> _]. eexists. split; [|reflexivity]. rewrite app_nil_l. apply call_text_app.
Qed.

Lemma occurs_cons (c : ascii) (s p n b q : str) :
  occurs (c :: s) (c :: p) n b q <-> occurs s p n b q.
Proof.
  unfold occurs. simpl. split.
  - intros [H Hr]. injection H as ->. now split.
  - intros [-> Hr]. now split.
Qed.

Lemma occurs_cons_inv (c : ascii) (s p n b q : str) :
  occurs (c :: s) p n b q ->
  p = [] \/ exists p', p = c :: p' /\ occurs s p' n b q.
Proof.
  intros H. destruct p as [|c' p']; [now left|right].
  assert (c' = c) as ->.
  { destruct H as [H _]. simpl in H. injection H as H _. now symmetry. }
  exists p'. split; [reflexivity | exact (proj1 (occurs_cons c s p' n b q) H)].
Qed.

(** Two occurrences that start at the same place have the same name, and
    their brace parts are prefixes of the same text. *)
Lemma occurs_same_start (s pre n b post n' b' post' : str) :
  occurs s pre n b post -> occurs s pre n' b' post' ->
  n = n' /\ b ++ "}"%char :: "]"%char :: post = b' ++ "}"%char :: "]"%char :: post'.
Proof.
  intros [H1 [_ [Hn _]]] [H2 [_ [Hn' _]]].
  rewrite H1 in H2. apply app_inv_head in H2.
  rewrite !call_text_app in H2. injection H2 as H2.
  destruct (name_unique _ _ _ _ Hn Hn' H2) as [-> H3]. now split.
Qed.

Lemma match_here_sound (s n g : str) :
  match_here s = Some (n, g) ->
  exists b post, g = braces b /\ occurs s [] n b post /\ widest s [] b.
Proof.
  destruct s as [|c t]; [discriminate|]. unfold match_here.
  destruct (Ascii.eqb c "[") eqn:Hc; [|discriminate].
  apply Ascii.eqb_eq in Hc. subst c. intros H.
  apply name_plus_sound in H as [Hne [Hn [rest [-> Hg]]]].
  destruct rest as [|c r]; [discriminate|]. unfold brace_group in Hg.
  destruct (Ascii.eqb c "{") eqn:Hc; [|discriminate].
  apply Ascii.eqb_eq in Hc. subst c.
  destruct (dot_star_close r) as [b|] eqn:Hb; [|discriminate].
  injection Hg as <-.
  destruct (dot_star_close_sound _ Hb) as [Hdot [post ->]].
  assert (Hocc : occurs ("["%char :: n ++ "{"%char :: b ++ "}"%char :: "]"%char :: post)
                        [] n b post).
  { split; [|now repeat split].
    now rewrite app_nil_l, call_text_app. }
  exists b, post. split; [reflexivity|]. split; [exact Hocc|].
  intros n' b' q' Hocc'.
  destruct (occurs_same_start Hocc' Hocc) as [-> E].
  destruct Hocc' as [_ [_ [_ Hdot']]].
  destruct (dot_star_close_longest b' q' Hdot') as [b2 [E2 Hl]].
  rewrite E, Hb in E2. injection E2 as <-. exact Hl.
Qed.

Lemma match_here_complete (s n b post : str) :
  occurs s [] n b post -> exists m, match_here s = Some m.
Proof.
  intros H. destruct (occurs_nil_inv H) as [t [-> ->]].
  destruct H as [_ [Hne [Hn Hdot]]].
  unfold match_here. change (Ascii.eqb "[" "[") with true. cbv iota.
  rewrite (name_plus_complete _ Hne Hn). unfold brace_group.
  change (Ascii.eqb "{" "{") with true. cbv iota.
  destruct (dot_star_close_longest b post Hdot) as [b' [-> _]].
  eexists. reflexivity.
Qed.

(** What the search returns is an occurrence, the leftmost one and, from
    its start, the widest. *)
Lemma search_from_sound (s : str) : forall i j n g,
  search_from i s = Some (j, (n, g)) ->
  exists pre b post,
    j = i + List.length pre /\ g = braces b /\ selected s pre n b post.
Proof.
  induction s as [|c t IH]; intros i j n g H.
  - discriminate.
  - cbn [search_from] in H.
    destruct (match_here (c :: t)) as [[n' g']|] eqn:Hm.
    + injection H as <- <- <-.
      destruct (match_here_sound _ Hm) as [b [post [-> [Hocc Hw]]]].
      exists [], b, post. split; [simpl; lia|]. split; [reflexivity|].
      split; [exact Hocc|]. split; [|exact Hw].
      intros p ? ? ? _. simpl. lia.
    + destruct (IH _ _ _ _ H) as [pre [b [post [-> [-> [Hocc [Hl Hw]]]]]]].
      exists (c :: pre), b, post. split; [simpl; lia|]. split; [reflexivity|].
      split; [exact (proj2 (occurs_cons c t pre n b post) Hocc)|]. split.
      * intros p n' b' q' Hocc'.
        destruct (occurs_cons_inv Hocc') as [-> | [p' [-> Hocc2]]].
        -- destruct (match_here_complete Hocc') as [m Hm']. congruence.
        -- simpl. specialize (Hl _ _ _ _ Hocc2). lia.
      * intros n' b' q' Hocc'. apply (Hw n' b' q').
        exact (proj1 (occurs_cons c t pre n' b' q') Hocc').
Qed.

Lemma search_from_complete (s : str) : forall i pre n b post,
  occurs s pre n b post -> exists m, search_from i s = Some m.
Proof.
  induction s as [|c t IH]; intros i pre n b post H.
  - destruct H as [H _]. destruct pre; discriminate.
  - cbn [search_from].
    destruct (match_here (c :: t)) as [m|] eqn:Hm; [eexists; reflexivity|].
    destruct (occurs_cons_inv H) as [-> | [p' [-> Hocc]]].
    + destruct (match_here_complete H) as [m Hm']. congruence.
    + eapply IH; eauto.
Qed.

(** The selected occurrence is unique. *)
Lemma selected_unique (s pre n b post pre' n' b' post' : str) :
  selected s pre n b post -> selected s pre' n' b' post' ->
  pre = pre' /\ n = n' /\ b = b' /\ post = post'.
Proof.
  intros [Hocc [Hl Hw]] [Hocc' [Hl' Hw']].
  assert (Hlen : List.length pre = List.length pre').
  { specialize (Hl _ _ _ _ Hocc'). specialize (Hl' _ _ _ _ Hocc). lia. }
  assert (pre = pre') as <-.
  { destruct Hocc as [E _], Hocc' as [E' _]. rewrite E in E'.
    now destruct (app_same_length _ _ _ _ E' Hlen). }
  destruct (occurs_same_start Hocc Hocc') as [<- E].
  assert (Hlb : List.length b = List.length b').
  { specialize (Hw _ _ _ Hocc'). specialize (Hw' _ _ _ Hocc). lia. }
  destruct (app_same_length _ _ _ _ E Hlb) as [<- E2].
  injection E2 as <-. now repeat split.
Qed.

(** The search returns the selected occurrence, and nothing else. *)
Theorem re_search_selected (s pre n b post : str) :
  selected s pre n b post -> re_search s = Some (n, braces b).
Proof.
  intros Hsel. unfold re_search.
  destruct Hsel as [Hocc Hrest].
  destruct (@search_from_complete _ 0 _ _ _ _ Hocc) as [[j [n' g]] Hs].
  rewrite Hs. simpl.
  destruct (@search_from_sound _ _ _ _ _ Hs) as [pre' [b' [post' [_ [-> Hsel']]]]].
  destruct (selected_unique (conj Hocc Hrest) Hsel') as [_ [-> [-> _]]].
  reflexivity.
Qed.

Theorem re_search_sound (s n g : str) :
  re_search s = Some (n, g) ->
  exists pre b post, g = braces b /\ selected s pre n b post.
Proof.
  unfold re_search. destruct (search_from 0 s) as [[j [n' g']]|] eqn:Hs; [|discriminate].
  simpl. intros [= <- <-].
  destruct (@search_from_sound _ _ _ _ _ Hs) as [pre [b [post [_ [-> Hsel]]]]].
  now exists pre, b, post.
Qed.

Theorem re_search_none (s : str) :
  re_search s = None <-> forall pre n b post, ~ occurs s pre n b post.
Proof.
  unfold re_search. split.
  - intros H pre n b post Hocc.
    destruct (@search_from_complete _ 0 _ _ _ _ Hocc) as [m Hm]. rewrite Hm in H. discriminate.
  - intros H. destruct (search_from 0 s) as [[j [n g]]|] eqn:Hs; [|reflexivity].
    destruct (@search_from_sound _ _ _ _ _ Hs) as [pre [b [post [_ [_ [Hocc _]]]]]].
    now apply H in Hocc.
Qed.

(** Deciding [selected] on a concrete text: run the search. *)
Lemma selected_by_search (pre n b post : str) :
  search_from 0 (pre ++ call_text n b ++ post) = Some (List.length pre, (n, braces b)) ->
  selected (pre ++ call_text n b ++ post) pre n b post.
Proof.
  intros Hs.
  destruct (@search_from_sound _ _ _ _ _ Hs) as [pre' [b' [post' [Hj [Hg Hsel]]]]].
  simpl in Hj. unfold braces in Hg. injection Hg as Hg.
  apply app_inv_tail in Hg. subst b'.
  assert (pre' = pre /\ post' = post) as [-> ->].
  { destruct Hsel as [[E _] _].
    destruct (app_same_length _ _ _ _ E Hj) as [<- E2].
    apply app_inv_head in E2. now subst. }
  exact Hsel.
Qed.

(** An occurrence followed by no [}\]] on its line is the widest from its
    start. *)
Lemma widest_of_clean_line (s pre n b post : str) :
  occurs s pre n b post ->
  contains (lit "}]") (first_line post) = false ->
  widest s pre b.
Proof.
  intros Hocc Hclean n' b' q' Hocc'.
  destruct (occurs_same_start Hocc' Hocc) as [_ E].
  destruct (Nat.le_gt_cases (List.length b') (List.length b)) as [Hle|Hgt]; [exact Hle|].
  exfalso.
  destruct (app_shorter _ _ _ _ (eq_sym E) ltac:(lia)) as [m [Hb' Hm]].
  destruct Hocc' as [_ [_ [_ Hdot']]].
  rewrite Hb', forallb_app in Hdot'. apply andb_true_iff in Hdot' as [_ Hdm].
  destruct m as [|c1 m]; [subst b'; rewrite app_nil_r in Hgt; lia|].
  simpl in Hm. injection Hm as <- Hm.
  destruct m as [|c2 m]; simpl in Hm; [discriminate|].
  injection Hm as <- Hm.
  assert (Hdm' : forallb dot_matches m = true).
  { change ("}"%char :: "]"%char :: m) with (lit "}]" ++ m) in Hdm.
    rewrite forallb_app in Hdm. now apply andb_true_iff in Hdm as [_ Hdm]. }
  assert (Hpre : forallb dot_matches (m ++ lit "}]") = true).
  { rewrite forallb_app, Hdm'. reflexivity. }
  destruct (@first_line_prefix (m ++ lit "}]") q' post) as [m' Hm'].
  - rewrite Hm. rewrite <- app_assoc. reflexivity.
  - exact Hpre.
  - assert (Hc : contains (lit "}]") (first_line post) = true).
    { apply contains_spec. exists m, m'. now rewrite Hm', <- app_assoc. }
    congruence.
Qed.

End SearchFacts.
Import SearchFacts.

(** ** The enumeration of the occurrences *)

Module OccurrenceFacts.

Lemma closes_spec (s b : str) :
  In b (closes s) <->
  forallb dot_matches b = true /\ exists post, s = b ++ "}"%char :: "]"%char :: post.
Proof.
  revert b. induction s as [|c t IH]; intros b.
  - simpl. split; [tauto|]. intros [_ [post H]]. destruct b; discriminate.
  - cbn [closes]. rewrite in_app_iff. split.
    + intros [H | H].
      * destruct (close_here (c :: t)) eqn:E; [|destruct H].
        destruct H as [<- | []]. split; [reflexivity|].
        apply close_here_spec in E as [post ->]. now exists post.
      * destruct (dot_matches c) eqn:Hc; [|destruct H].
        apply in_map_iff in H as [b0 [<- Hb0]].
        apply IH in Hb0 as [Hd [post ->]].
        split; [simpl; now rewrite Hc, Hd | now exists post].
    + intros [Hd [post H]]. destruct b as [|c' b0].
      * left. assert (E : close_here (c :: t) = true).
        { apply close_here_spec. now exists post. }
        rewrite E. now left.
      * right. simpl in H. injection H as -> ->.
        simpl in Hd. apply andb_true_iff in Hd as [Hc Hd]. rewrite Hc.
        apply in_map. apply IH. split; [exact Hd | now exists post].
Qed.

Lemma name_span_sound (s : str) :
  s = fst (name_span s) ++ snd (name_span s)
  /\ forallb is_name_char (fst (name_span s)) = true.
Proof.
  induction s as [|c t [IH1 IH2]]; simpl; [now split|].
  destruct (is_name_char c) eqn:Hc; simpl.
  - destruct (name_span t) as [n r]. simpl in *.
    split; [now rewrite <- IH1 | now rewrite Hc, IH2].
  - now split.
Qed.

Lemma name_span_complete (n r : str) :
  forallb is_name_char n = true ->
  name_span (n ++ "{"%char :: r) = (n, "{"%char :: r).
Proof.
  induction n as [|c n IH]; intros Hn.
  - reflexivity.
  - simpl in Hn. apply andb_true_iff in Hn as [Hc Hn].
    cbn [app name_span]. rewrite Hc, (IH Hn). reflexivity.
Qed.

Lemma occurrences_here_spec (s n b : str) :
  In (n, b) (occurrences_here s) <-> exists post, occurs s [] n b post.
Proof.
  split.
  - destruct s as [|c t]; [intros []|]. unfold occurrences_here.
    destruct (Ascii.eqb c "[") eqn:Hc; [|intros []].
    apply Ascii.eqb_eq in Hc. subst c.
    destruct (name_span_sound t) as [Ht Hn].
    destruct (name_span t) as [[|x n0] [|c' r]]; try (intros []).
    destruct (Ascii.eqb c' "{") eqn:Hc'; [|intros []].
    apply Ascii.eqb_eq in Hc'. subst c'.
    intros H. apply in_map_iff in H as [b0 [E Hb0]]. injection E as <- <-.
    apply closes_spec in Hb0 as [Hd [post ->]].
    exists post. simpl in Ht, Hn. split; [|repeat split; [discriminate | exact Hn | exact Hd]].
    rewrite app_nil_l, call_text_app, Ht. reflexivity.
  - intros [post H]. destruct (occurs_nil_inv H) as [t [-> ->]].
    destruct H as [_ [Hne [Hn Hd]]].
    unfold occurrences_here. change (Ascii.eqb "[" "[") with true. cbv iota.
    rewrite (@name_span_complete n _ Hn).
    destruct n as [|x n0]; [congruence|].
    change (Ascii.eqb "{" "{") with true. cbv iota.
    apply in_map. apply closes_spec. split; [exact Hd | now exists post].
Qed.

(** The enumeration lists exactly the occurrences. *)
Lemma occurrences_from_spec (s : str) : forall i j n b,
  In (j, (n, b)) (occurrences_from i s) <->
  exists pre post, j = i + List.length pre /\ occurs s pre n b post.
Proof.
  induction s as [|c t IH]; intros i j n b.
  - simpl. split; [tauto|]. intros [pre [post [_ [H _]]]].
    destruct pre; discriminate.
  - cbn [occurrences_from]. rewrite in_app_iff. split.
    + intros [H | H].
      * apply in_map_iff in H as [[n0 b0] [E H]]. injection E as <- <- <-.
        apply occurrences_here_spec in H as [post H].
        exists [], post. split; [simpl; lia | exact H].
      * apply IH in H as [pre [post [-> H]]].
        exists (c :: pre), post. split; [simpl; lia|].
        exact (proj2 (occurs_cons c t pre n b post) H).
    + intros [pre [post [-> H]]].
      destruct (occurs_cons_inv H) as [-> | [p' [-> H']]].
      * left. change (List.length (@nil ascii)) with 0. rewrite Nat.add_0_r.
        apply (in_map (pair i)). apply occurrences_here_spec. now exists post.
      * right. apply IH. exists p', post. split; [simpl; lia | exact H'].
Qed.

Lemma occurrences_spec (s : str) (j : nat) (n b : str) :
  In (j, (n, b)) (occurrences s) <->
  exists pre post, j = List.length pre /\ occurs s pre n b post.
Proof. apply occurrences_from_spec. Qed.

(** Deciding [only_occurrence] on a concrete text: enumerate. *)
Lemma only_occurrence_by_enumeration (pre n b post : str) :
  occurrences (pre ++ call_text n b ++ post) = [(List.length pre, (n, b))] ->
  only_occurrence (pre ++ call_text n b ++ post) pre n b post.
Proof.
  intros Henum.
  assert (Hin : forall j n' b', In (j, (n', b')) (occurrences (pre ++ call_text n b ++ post))
                                -> j = List.length pre /\ n' = n /\ b' = b).
  { intros j n' b' H. rewrite Henum in H. destruct H as [E | []].
    injection E as <- <- <-. now repeat split. }
  assert (Hsame : forall p n' b' q, occurs (pre ++ call_text n b ++ post) p n' b' q ->
                                    p = pre /\ n' = n /\ b' = b /\ q = post).
  { intros p n' b' q H.
    assert (Hi : In (List.length p, (n', b')) (occurrences (pre ++ call_text n b ++ post))).
    { apply occurrences_spec. now exists p, q. }
    apply Hin in Hi as [Hl [-> ->]].
    destruct H as [E _].
    destruct (app_same_length _ _ _ _ E (eq_sym Hl)) as [<- E2].
    apply app_inv_head in E2. now subst. }
  assert (Hi : In (List.length pre, (n, b)) (occurrences (pre ++ call_text n b ++ post))).
  { rewrite Henum. now left. }
  apply occurrences_spec in Hi as [p [q [_ H]]].
  destruct (Hsame _ _ _ _ H) as [-> [_ [_ ->]]].
  split; [exact H|].
  intros p' n' b' q' H'. destruct (Hsame _ _ _ _ H') as [-> [-> [-> _]]]. now repeat split.
Qed.

(** An occurrence that is the only one is the selected one. *)
Lemma only_occurrence_selected (s pre n b post : str) :
  only_occurrence s pre n b post -> selected s pre n b post.
Proof.
  intros [Hocc Hu]. split; [exact Hocc|]. split.
  - intros p n' b' q H. destruct (Hu _ _ _ _ H) as [-> _]. lia.
  - intros n' b' q H. destruct (Hu _ _ _ _ H) as [_ [_ ->]]. lia.
Qed.

End OccurrenceFacts.
Import OccurrenceFacts.

(** ** The extractor *)

Unset Implicit Arguments.

Section ExtractorProperties.
Context {ast : Ast}.

(** On a reply whose content is a string, the extractor evaluates the brace
    part of the selected occurrence and nothing else. *)
Lemma extractor_on_selected (r : model_response) (text pre n b post : str) :
  reply_content r = Some text ->
  selected text pre n b post ->
  get_function_and_payload r
  = match literal_eval (braces b) with
    | Ok v => Ok (Some n, Some v)
    | Raise e => Raise e
    end.
Proof.
  intros Hr Hsel. unfold get_function_and_payload, reply_content in *.
  destruct (choices r) as [|c cs]; [discriminate|].
  rewrite Hr, (re_search_selected Hsel). reflexivity.
Qed.

(** C7. A reply whose content has no substring of the bracketed tool-call
    shape makes the extractor return [(None, None)], without raising. *)
Theorem no_bracketed_call_returns_none (r : model_response) (text : str) :
  reply_content r = Some text ->
  (forall pre name body post, ~ occurs text pre name body post) ->
  get_function_and_payload r = Ok (None, None).
Proof.
  intros Hr Hnone. unfold get_function_and_payload, reply_content in *.
  destruct (choices r) as [|c cs]; [discriminate|].
  rewrite Hr. apply re_search_none in Hnone. now rewrite Hnone.
Qed.

(** In particular, a call that is the only substring of the bracketed shape
    in the content, valid or not, is extracted when its brace part is a
    valid literal. *)
Lemma sole_occurrence_is_extracted
  (r : model_response) (text pre name body post : str) (v : pyvalue) :
  reply_content r = Some text ->
  only_occurrence text pre name body post ->
  literal_eval (braces body) = Ok v ->
  get_function_and_payload r = Ok (Some name, Some v).
Proof.
  intros Hr Honly Hv.
  rewrite (extractor_on_selected r text pre name body post Hr
             (only_occurrence_selected Honly)).
  now rewrite Hv.
Qed.

(** C2, as amended. A well-formed call [[name{mapping}]] in the content of a
    reply, its mapping a valid literal written on one line, is what the
    extractor returns, whatever else surrounds it, when no substring of the
    bracketed shape, valid or not, starts before it, and none that starts
    where it starts has a longer brace part on the line. The content may
    hold other substrings of the shape: inside the mapping, later on, valid
    or not. When the call is the only well-formed one of the content, as the
    claim has it, the two conditions are also necessary. *)
Theorem well_formed_call_is_extracted
  (r : model_response) (text pre name body post : str) (v : pyvalue) :
  reply_content r = Some text ->
  text = pre ++ call_text name body ++ post ->
  well_formed_call name body v ->
  (leftmost text pre -> widest text pre body ->
   get_function_and_payload r = Ok (Some name, Some v))
  /\ ((forall p n b q v',
         text = p ++ call_text n b ++ q -> well_formed_call n b v' ->
         p = pre /\ b = body) ->
      get_function_and_payload r = Ok (Some name, Some v) ->
      leftmost text pre /\ widest text pre body).
Proof.
  intros Hr Ht (Hne & Hn & Hd & Hv). split.
  - intros Hleft Hwide.
    assert (Hsel : selected text pre name body post).
    { split; [|now split]. split; [exact Ht | now repeat split]. }
    rewrite (extractor_on_selected r text pre name body post Hr Hsel). now rewrite Hv.
  - intros Hone Hret.
    unfold get_function_and_payload, reply_content in *.
    destruct (choices r) as [|c cs]; [discriminate Hr|]. rewrite Hr in Hret.
    destruct (re_search text) as [[n g]|] eqn:Hs; [|discriminate Hret].
    destruct (literal_eval g) as [v'|e] eqn:Hg; [|discriminate Hret].
    injection Hret as -> ->.
    apply re_search_sound in Hs as (p & b & q & -> & Hsel).
    destruct Hsel as ((Hp & Hne' & Hn' & Hd') & Hleft & Hwide).
    destruct (Hone p name b q v Hp) as [-> ->]; [now repeat split|].
    now split.
Qed.

(** C5, as amended. When the brace part of the occurrence the extractor
    selects, the leftmost one taken up to the last [}\]] of its line, is not
    a valid literal, the error of the evaluator is raised to the caller and
    [(None, None)] is not returned. *)
Theorem malformed_selected_call_raises
  (r : model_response) (text pre name body post : str) (e : exn) :
  reply_content r = Some text ->
  selected text pre name body post ->
  literal_eval (braces body) = Raise e ->
  get_function_and_payload r = Raise e
  /\ get_function_and_payload r <> Ok (None, None).
Proof.
  intros Hr Hsel He.
  rewrite (extractor_on_selected r text pre name body post Hr Hsel), He.
  split; [reflexivity | discriminate].
Qed.


End ExtractorProperties.

(** *** The extractor on concrete replies *)

Lemma no_bracketed_call_returns_none_witness :
  @get_function_and_payload Literal.python (reply Replies.no_call) = Ok (None, None).
Proof.
  apply (no_bracketed_call_returns_none (ast := Literal.python)
           (reply Replies.no_call) Replies.no_call).
  - reflexivity.
  - apply re_search_none. vm_compute. reflexivity.
Defined.

(** The reply of the first recorded run holds one substring of the shape. *)
Example finish_reply_is_extracted :
  @get_function_and_payload Literal.python (reply Replies.finish)
  = Ok (Some sentinel, Some Replies.finish_payload).
Proof.
  apply (sole_occurrence_is_extracted (ast := Literal.python)
           (reply Replies.finish) Replies.finish
           (lit "<TOOLCALL>") sentinel Replies.finish_body (lit "</TOOLCALL>")).
  - reflexivity.
  - apply only_occurrence_by_enumeration. vm_compute. reflexivity.
  - vm_compute. reflexivity.
Qed.

(** Two replies with more than one substring of the shape: a call whose
    mapping holds a list of mappings, so that a shorter brace part ends
    inside it, and a valid call followed on the next line by a bracketed
    substring that is not valid. Both calls are returned. *)
Lemma well_formed_call_is_extracted_witness :
  @get_function_and_payload Literal.python (reply (lit "[f{'to': [{'a': 1}]}]"))
  = Ok (Some (lit "f"),
        Some (PDict [(PStr (lit "to"), PList [PDict [(PStr (lit "a"), PInt 1)]])]))
  /\ @get_function_and_payload Literal.python (reply Replies.valid_then_malformed)
     = Ok (Some (lit "a"), Some Replies.x_is_1).
Proof.
  assert (Hnested : selected (lit "[f{'to': [{'a': 1}]}]") []
                             (lit "f") (lit "'to': [{'a': 1}]") []).
  { apply (@selected_by_search [] (lit "f") (lit "'to': [{'a': 1}]") []).
    vm_compute. reflexivity. }
  assert (Hlater : selected Replies.valid_then_malformed [] (lit "a") (lit "'x': 1")
                            (newline :: lit "[foo{not valid}]")).
  { apply (@selected_by_search [] (lit "a") (lit "'x': 1")
             (newline :: lit "[foo{not valid}]")).
    vm_compute. reflexivity. }
  split.
  - refine (proj1 (well_formed_call_is_extracted (ast := Literal.python)
                     (reply (lit "[f{'to': [{'a': 1}]}]")) (lit "[f{'to': [{'a': 1}]}]")
                     [] (lit "f") (lit "'to': [{'a': 1}]") []
                     (PDict [(PStr (lit "to"), PList [PDict [(PStr (lit "a"), PInt 1)]])])
                     _ _ _)
                  (proj1 (proj2 Hnested)) (proj2 (proj2 Hnested))).
    + reflexivity.
    + reflexivity.
    + repeat split; (discriminate || (vm_compute; reflexivity)).
  - refine (proj1 (well_formed_call_is_extracted (ast := Literal.python)
                     (reply Replies.valid_then_malformed) Replies.valid_then_malformed
                     [] (lit "a") (lit "'x': 1") (newline :: lit "[foo{not valid}]")
                     Replies.x_is_1 _ _ _)
                  (proj1 (proj2 Hlater)) (proj2 (proj2 Hlater))).
    + reflexivity.
    + reflexivity.
    + repeat split; (discriminate || (vm_compute; reflexivity)).
Defined.

(** Both replies have two substrings of the shape. *)
Example two_occurrences_in_each :
  map fst (occurrences (lit "[f{'to': [{'a': 1}]}]")) = [0; 0]
  /\ map fst (occurrences Replies.valid_then_malformed) = [0; 12].
Proof. vm_compute. split; reflexivity. Qed.

(** C2, as stated, fails. In the first reply the only well-formed call is
    [[foo{'a': 1}]], but a [}\]] later on the line is taken into the brace
    part and the evaluator raises. In the second the mapping is spread over
    two lines, which the literal allows and the pattern does not: the
    extractor returns [(None, None)]. *)
Lemma only_well_formed_call_not_extracted :
  (@well_formed_calls Literal.python Replies.trailing_close
   = [(0, (lit "foo", Replies.a_is_1))]
   /\ @get_function_and_payload Literal.python (reply Replies.trailing_close)
      = Raise LiteralError)
  /\ (Literal.literal_eval (braces Replies.two_line_body) = Ok Replies.a_is_1
      /\ @get_function_and_payload Literal.python (reply Replies.two_line_call)
         = Ok (None, None)).
Proof. vm_compute. repeat split. Qed.

Lemma malformed_selected_call_raises_witness :
  @get_function_and_payload Literal.python (reply Replies.malformed)
  = Raise LiteralError
  /\ @get_function_and_payload Literal.python (reply Replies.malformed)
     <> Ok (None, None).
Proof.
  apply (malformed_selected_call_raises (ast := Literal.python)
           (reply Replies.malformed) Replies.malformed
           [] (lit "foo") (lit "not valid") []).
  - reflexivity.
  - apply (@selected_by_search [] (lit "foo") (lit "not valid") []).
    vm_compute. reflexivity.
  - vm_compute. reflexivity.
Defined.

(** C5, as stated, fails. The reply holds the bracketed substring
    [[foo{not valid}]], whose brace part is not a literal, on the line after
    a valid call: the extractor returns the valid call and raises nothing. *)
Lemma malformed_call_on_later_line_not_raised :
  occurs Replies.valid_then_malformed
         (lit "[a{'x': 1}]" ++ [newline]) (lit "foo") (lit "not valid") []
  /\ Literal.literal_eval (braces (lit "not valid")) = Raise LiteralError
  /\ @get_function_and_payload Literal.python (reply Replies.valid_then_malformed)
     = Ok (Some (lit "a"), Some Replies.x_is_1).
Proof.
  split; [|split]; [|vm_compute; reflexivity|vm_compute; reflexivity].
  split; [reflexivity|]. split; [discriminate|]. split; reflexivity.
Qed.



(** ** The monad of the driver *)

Module DriverMonadFacts.

Section Inversion.
Context {W : Type}.

Lemma bind_inv {A B : Type} (m : M W A) (f : A -> M W B)
      (w w' : W) (out : outcome B) (evs : list event) :
  bind m f w = (out, w', evs) ->
  (exists a w1 e1 e2,
      m w = (Done a, w1, e1) /\ f a w1 = (out, w', e2) /\ evs = e1 ++ e2)
  \/ (exists e, m w = (Raised e, w', evs) /\ out = Raised e)
  \/ (m w = (OutOfFuel, w', evs) /\ out = OutOfFuel).
Proof.
  unfold bind. destruct (m w) as [[[a|e|] w1] e1].
  - destruct (f a w1) as [[o w2] e2] eqn:Hf. intros [= <- <- <-].
    left. now exists a, w1, e1, e2.
  - intros [= <- <- <-]. right. left. now exists e.
  - intros [= <- <- <-]. right. right. now split.
Qed.

Lemma bind_done {A B : Type} (m : M W A) (f : A -> M W B)
      (w w1 : W) (a : A) (e1 : list event) :
  m w = (Done a, w1, e1) ->
  bind m f w = (fst (fst (f a w1)), snd (fst (f a w1)), e1 ++ snd (f a w1)).
Proof.
  intros H. unfold bind. rewrite H. now destruct (f a w1) as [[o w2] e2].
Qed.

End Inversion.

(** Case analysis on every call whose outcome a hypothesis depends on. *)
Ltac innermost x :=
  lazymatch x with
  | context [match _ with _ => _ end] => fail
  | _ => idtac
  end.

Ltac cases H :=
  repeat (match type of H with
          | context [match ?x with _ => _ end] => innermost x; destruct x eqn:?
          end; cbv beta iota in H).

End DriverMonadFacts.
Import DriverMonadFacts.

(** ** The conversation driver *)

Module DriverFacts.

Lemma check_responses_spec (responses : list ToolCallResult.t) : forall is_finished,
  check_responses is_finished responses
  = is_finished
    || existsb (fun response =>
                  str_eqb (py_str (ToolCallResult.function_name response)) sentinel)
               responses.
Proof.
  unfold check_responses.
  induction responses as [|r rs IH]; intros fin; simpl.
  - now rewrite orb_false_r.
  - rewrite IH.
    destruct (str_eqb (py_str (ToolCallResult.function_name r)) sentinel), fin; reflexivity.
Qed.

Lemma sentinel_observed_app (e1 e2 : list event) :
  sentinel_observed (e1 ++ e2) <-> sentinel_observed e1 \/ sentinel_observed e2.
Proof.
  unfold sentinel_observed. split.
  - intros (cs & rs & r & Hin & Hr & Hs). apply in_app_iff in Hin as [Hin | Hin];
      [left | right]; now exists cs, rs, r.
  - intros [(cs & rs & r & Hin & Hr & Hs) | (cs & rs & r & Hin & Hr & Hs)];
      exists cs, rs, r; (split; [apply in_app_iff; auto | now split]).
Qed.

Lemma sentinel_in_trace_spec (evs : list event) :
  sentinel_in_trace evs = true <-> sentinel_observed evs.
Proof.
  unfold sentinel_in_trace, sentinel_observed. rewrite existsb_exists. split.
  - intros [ev [Hin Hev]]. destruct ev; try discriminate.
    destruct r as [rs|]; [|discriminate].
    apply existsb_exists in Hev as [r [Hr Hs]]. apply str_eqb_eq in Hs.
    now exists tool_calls, rs, r.
  - intros (cs & rs & r & Hin & Hr & Hs). exists (RunTools cs (Ok rs)).
    split; [exact Hin|]. apply existsb_exists. exists r.
    split; [exact Hr | now apply str_eqb_eq].
Qed.

Lemma tool_executions_app (e1 e2 : list event) :
  tool_executions (e1 ++ e2) = tool_executions e1 ++ tool_executions e2.
Proof. unfold tool_executions. apply flat_map_app. Qed.

Section Iteration.
Context {ast : Ast} {W : Type} {platform : Platform W}.

(** One iteration that completes executed exactly one list of tool calls,
    holding one call, and its flag tells whether a result carried the
    sentinel. *)
Lemma loop_body_done (is_finished : bool) (tokens : Tokens) (w w' : W)
      (fin : bool) (tokens' : Tokens) (evs : list event) :
  loop_body is_finished tokens w = (Done (fin, tokens'), w', evs) ->
  exists model messages response tool_call responses,
    evs = [ ChatCompletion model messages (Ok response);
            ReportLLMUsage response (Ok tt);
            AddMessages (ResponseDump response) (Ok tt);
            RunTools [tool_call] (Ok responses) ]
    /\ get_function_and_payload response
       = Ok (ToolCall.name tool_call, ToolCall.payload tool_call)
    /\ fin = check_responses is_finished responses.
Proof.
  intros H.
  unfold loop_body, get_response, execute_tool_calls, bind, call, local, lift, ret in H.
  cases H; try discriminate.
  injection H as <- <- <- <-.
  repeat match goal with u : unit |- _ => destruct u end.
  do 5 eexists. split; [reflexivity|]. split; [|reflexivity].
  match goal with
  | E : get_function_and_payload _ = Ok ?tp |- _ =>
      simpl in E; simpl; rewrite E; now destruct tp
  end.
Qed.

Lemma loop_body_never_out_of_fuel (is_finished : bool) (tokens : Tokens) (w w' : W)
      (evs : list event) :
  loop_body is_finished tokens w <> (OutOfFuel, w', evs).
Proof.
  intros H.
  unfold loop_body, get_response, execute_tool_calls, bind, call, local, lift, ret in H.
  cases H; discriminate.
Qed.

Lemma loop_body_true_sentinel (tokens tokens' : Tokens) (w w' : W) (evs : list event) :
  loop_body false tokens w = (Done (true, tokens'), w', evs) -> sentinel_observed evs.
Proof.
  intros H. apply loop_body_done in H.
  destruct H as (model & messages & response & tool_call & responses & -> & _ & Hfin).
  rewrite check_responses_spec in Hfin. simpl in Hfin. symmetry in Hfin.
  apply existsb_exists in Hfin as [r [Hr Hs]]. apply str_eqb_eq in Hs.
  exists [tool_call], responses, r. split; [simpl; auto | now split].
Qed.

(** One step of the loop when the flag is still down. *)
Lemma while_not_finished_step (fuel : nat) (tokens : Tokens) :
  while_not_finished (S fuel) false tokens
  = bind (loop_body false tokens)
         (fun st => if fst st then ret (snd st)
                    else while_not_finished fuel (fst st) (snd st)).
Proof. reflexivity. Qed.

(** The loop is left normally only after a result carried the sentinel. *)
Lemma while_done_sentinel (fuel : nat) : forall tokens w tokens' w' evs,
  while_not_finished fuel false tokens w = (Done tokens', w', evs) ->
  sentinel_observed evs.
Proof.
  induction fuel as [|fuel IH]; intros tokens w tokens' w' evs H.
  - discriminate H.
  - rewrite while_not_finished_step in H.
    apply bind_inv in H as [(st & w1 & e1 & e2 & Hm & Hk & ->) | [(e & _ & E) | (_ & E)]];
      try discriminate E.
    destruct st as [[|] tk]; cbn [fst snd] in Hk; apply sentinel_observed_app.
    + left. eapply loop_body_true_sentinel; eauto.
    + right. eapply IH; eauto.
Qed.

(** A loop that ran out of fuel made one tool execution per unit of fuel. *)
Lemma while_out_of_fuel_count (fuel : nat) : forall tokens w w' evs,
  while_not_finished fuel false tokens w = (OutOfFuel, w', evs) ->
  List.length (tool_executions evs) = fuel.
Proof.
  induction fuel as [|fuel IH]; intros tokens w w' evs H.
  - unfold while_not_finished, out_of_fuel in H. now injection H as <- <-.
  - rewrite while_not_finished_step in H.
    apply bind_inv in H as [(st & w1 & e1 & e2 & Hm & Hk & ->) | [(e & _ & E) | (Hm & _)]];
      try discriminate E.
    + destruct st as [[|] tk]; cbn [fst snd] in Hk; [discriminate Hk|].
      apply loop_body_done in Hm.
      destruct Hm as (model & messages & response & tool_call & responses & -> & _).
      rewrite tool_executions_app, length_app, (IH _ _ _ _ Hk). reflexivity.
    + now apply loop_body_never_out_of_fuel in Hm.
Qed.

(** Fuel only bounds the number of iterations: a loop that ended, by its exit
    or by an exception, ends the same way with any more fuel. *)
Lemma while_fuel_monotone (fuel : nat) : forall is_finished tokens w out w' evs,
  while_not_finished fuel is_finished tokens w = (out, w', evs) ->
  out <> OutOfFuel ->
  forall k, while_not_finished (fuel + k) is_finished tokens w = (out, w', evs).
Proof.
  induction fuel as [|fuel IH]; intros [|] tokens w out w' evs H Hout k.
  - destruct k; exact H.
  - cbn in H. injection H as <- <- <-. congruence.
  - exact H.
  - change (S fuel + k) with (S (fuel + k)).
    rewrite while_not_finished_step in *.
    apply bind_inv in H as [(st & w1 & e1 & e2 & Hm & Hk & ->) | [(e & Hm & ->) | (_ & E)]];
      [| | congruence].
    + rewrite (bind_done _ _ _ _ _ _ Hm).
      destruct (fst st) eqn:Hfin.
      * now rewrite Hk.
      * rewrite <- Hfin in Hk at 1. rewrite <- Hfin at 1 2 3.
        now rewrite (IH _ _ _ _ _ _ Hk Hout k).
    + unfold bind. now rewrite Hm.
Qed.

Lemma run_fuel_monotone (fuel : nat) (prompt thread_id : option str) (w w' : W)
      (out : outcome (str * str)) (evs : list event) :
  run fuel prompt thread_id w = (out, w', evs) ->
  out <> OutOfFuel ->
  forall k, run (fuel + k) prompt thread_id w = (out, w', evs).
Proof.
  intros H Hout k. unfold run, bind, call, local, ret in *.
  cases H; injection H as <- <- <-; try congruence;
    try match goal with
        | E : while_not_finished _ _ _ _ = _ |- _ =>
            rewrite (while_fuel_monotone _ _ _ _ _ _ _ E ltac:(discriminate) k)
        end;
    repeat match goal with
           | E : ?x = _ |- context [?x] => rewrite E
           end;
    reflexivity.
Qed.

(** Whatever happens next, the first call of a run creates the task. *)
Lemma run_first_event (fuel : nat) (prompt thread_id : option str) (w : W) :
  exists r rest,
    snd (run fuel prompt thread_id w)
    = AddTask (py_or prompt default_task) (thread_or_none thread_id) r :: rest.
Proof.
  unfold run. generalize (py_or prompt default_task). intros task.
  unfold bind at 1. unfold call at 1.
  destruct (agent_add_task task (thread_or_none thread_id) w) as [[u|e] w1].
  - match goal with
    | |- context [match ?k with _ => _ end] => destruct k as [[o w2] e2]
    end.
    simpl. eexists. eexists. reflexivity.
  - simpl. eexists. eexists. reflexivity.
Qed.

End Iteration.

End DriverFacts.
Import DriverFacts.

Section DriverProperties.
Context {ast : Ast} {W : Type} {platform : Platform W}.


(** C3. In an iteration where the reply has been recorded and the extractor
    finds no call in it, the driver still makes exactly one tool-execution
    call, with exactly one invocation, whose name and payload are [None]. *)
Theorem absent_call_is_still_executed
  (tokens : Tokens) (w w' : W) (out : outcome (bool * Tokens)) (evs : list event)
  (response : model_response) :
  loop_body false tokens w = (out, w', evs) ->
  In (AddMessages (ResponseDump response) (Ok tt)) evs ->
  get_function_and_payload response = Ok (None, None) ->
  exists call_id,
    tool_executions evs
    = [[ {| ToolCall.name := None;
            ToolCall.type := XPANDER;
            ToolCall.payload := None;
            ToolCall.tool_call_id := call_id |} ]].
Proof.
  intros H Hin Hnone.
  unfold loop_body, get_response, execute_tool_calls, bind, call, local, lift, ret in H.
  cases H; injection H as <- <- <-; simpl in Hin;
    repeat match goal with
           | D : _ \/ _ |- _ => destruct D as [D | D]
           | D : False |- _ => destruct D
           end;
    try discriminate;
    injection Hin as <-;
    match goal with
    | E : get_function_and_payload _ = _ |- _ =>
        simpl in E; rewrite Hnone in E; try discriminate E; injection E as <-
    end;
    simpl; eexists; reflexivity.
Qed.

(** C4. When a tool result executed in an iteration carries the sentinel
    name, the iteration ends with the flag up and the loop is left at once,
    whatever the other fields of that result and the other results are. *)
Theorem sentinel_result_ends_loop
  (tokens : Tokens) (w w' : W) (out : outcome (bool * Tokens)) (evs : list event)
  (tool_calls : list ToolCall.t) (responses : list ToolCallResult.t)
  (response : ToolCallResult.t) :
  loop_body false tokens w = (out, w', evs) ->
  In (RunTools tool_calls (Ok responses)) evs ->
  In response responses ->
  ToolCallResult.function_name response = Some sentinel ->
  exists tokens',
    out = Done (true, tokens')
    /\ forall fuel,
         while_not_finished (S fuel) false tokens w = (Done tokens', w', evs).
Proof.
  intros H Hin Hr Hname.
  assert (Hfin : check_responses false responses = true).
  { rewrite check_responses_spec. simpl. apply existsb_exists. exists response.
    split; [exact Hr|]. rewrite Hname. apply str_eqb_refl. }
  assert (Hout : exists tokens', out = Done (true, tokens')).
  { unfold loop_body, get_response, execute_tool_calls, bind, call, local, lift, ret in H.
    cases H; injection H as <- <- <-; simpl in Hin;
      repeat match goal with
             | D : _ \/ _ |- _ => destruct D as [D | D]
             | D : False |- _ => destruct D
             end;
      try discriminate.
    injection Hin as <- <-. rewrite Hfin. eexists. reflexivity. }
  destruct Hout as [tokens' ->]. exists tokens'. split; [reflexivity|].
  intros fuel. rewrite while_not_finished_step, (bind_done _ _ _ _ _ _ H).
  cbn [fst snd ret]. now rewrite app_nil_r.
Qed.

(** C10, as amended. The task submitted to the agent is the default task
    when the prompt is [None] or the empty string, and the prompt itself when
    it is a non-empty string. *)
Theorem submitted_task (fuel : nat) (prompt thread_id : option str) (w : W) :
  exists r rest,
    snd (run fuel prompt thread_id w)
    = AddTask match prompt with
              | None => default_task
              | Some [] => default_task
              | Some (c :: p) => c :: p
              end
              (thread_or_none thread_id) r
      :: rest.
Proof.
  assert (Htask : py_or prompt default_task
                  = match prompt with
                    | None => default_task
                    | Some [] => default_task
                    | Some (c :: p) => c :: p
                    end)
    by (destruct prompt as [[|c p]|]; reflexivity).
  rewrite <- Htask. apply run_first_event.
Qed.

End DriverProperties.

(** ** Context continuity *)

Section ThreadProperties.
Context {ast : Ast} {W : Type} {platform : Platform W}.
Context {continuity : ThreadContinuity platform}.

(** Turn the equation of a call that returned into what it did to the
    thread. *)
Ltac thread_step :=
  match goal with
  | E : agent_add_messages _ _ = (Ok _, _) |- _ => apply add_messages_keeps_thread in E
  | E : chat_completions_create _ _ _ = (Ok _, _) |- _ => apply completion_keeps_thread in E
  | E : agent_report_llm_usage _ _ _ = (Ok _, _) |- _ => apply report_usage_keeps_thread in E
  | E : agent_run_tools _ _ = (Ok _, _) |- _ => apply run_tools_keeps_thread in E
  | E : random_randint ?a ?b ?w = (_, _) |- _ =>
      let T := fresh "T" in
      pose proof (randint_keeps_thread a b w) as T; rewrite E in T; cbn [snd] in T; clear E
  | E : datetime_now_strftime ?w = (_, _) |- _ =>
      let T := fresh "T" in
      pose proof (now_keeps_thread w) as T; rewrite E in T; cbn [snd] in T; clear E
  end.

Lemma loop_body_keeps_thread (is_finished : bool) (tokens : Tokens) (w w' : W)
      (st : bool * Tokens) (evs : list event) :
  loop_body is_finished tokens w = (Done st, w', evs) -> thread_of w' = thread_of w.
Proof.
  intros H.
  unfold loop_body, get_response, execute_tool_calls, bind, call, local, lift, ret in H.
  cases H; try discriminate. injection H as <- <- <-. repeat thread_step. congruence.
Qed.

Lemma while_keeps_thread (fuel : nat) : forall is_finished tokens w tokens' w' evs,
  while_not_finished fuel is_finished tokens w = (Done tokens', w', evs) ->
  thread_of w' = thread_of w.
Proof.
  induction fuel as [|fuel IH]; intros [|] tokens w tokens' w' evs H;
    try (cbn in H; injection H as <- <- <-; reflexivity);
    try discriminate H.
  rewrite while_not_finished_step in H.
  apply bind_inv in H as [(st & w1 & e1 & e2 & Hm & Hk & ->) | [(e & _ & E) | (_ & E)]];
    try discriminate E.
  apply loop_body_keeps_thread in Hm. rewrite <- Hm.
  destruct (fst st).
  - now injection Hk as <- <- <-.
  - eapply IH; eauto.
Qed.

(** On a platform that keeps a task in the thread it was created in, a run
    that is given a thread id and returns, returns that id. *)
Lemma run_keeps_thread
  (fuel : nat) (prompt : option str) (t : str) (w w' : W)
  (out : outcome (str * str)) (evs : list event) :
  t <> [] ->
  run fuel prompt (Some t) w = (out, w', evs) ->
  (exists r rest, evs = AddTask (py_or prompt default_task) (Some t) r :: rest)
  /\ (forall result_text thread_id, out = Done (result_text, thread_id) -> thread_id = t).
Proof.
  intros Ht H.
  assert (Hsome : thread_or_none (Some t) = Some t)
    by (destruct t; [congruence | reflexivity]).
  split.
  - destruct (run_first_event fuel prompt (Some t) w) as (r & rest & E).
    rewrite H, Hsome in E. now exists r, rest.
  - intros result_text thread_id ->.
    unfold run in H. rewrite Hsome in H.
    unfold bind, call, local, ret in H.
    cases H; try discriminate. injection H as <- <- <- <-.
    match goal with
    | E : agent_add_task _ (Some t) _ = (Ok _, _) |- _ => apply add_task_sets_thread in E
    end.
    match goal with
    | E : while_not_finished _ _ _ _ = _ |- _ => apply while_keeps_thread in E
    end.
    repeat thread_step.
    match goal with
    | E : agent_retrieve_execution_result _ = _ |- _ =>
        eapply result_reports_thread; [exact E | congruence]
    end.
Qed.

End ThreadProperties.

(** *** The driver on scripted runs *)

(** The scripted platform keeps the thread contract. *)
Lemma mock_thread_continuity : ThreadContinuity Mock.platform.
Proof.
  refine {| thread_of := Mock.thread |}; try reflexivity; simpl.
  - intros input t w u w' H. inversion H. reflexivity.
  - intros m w u w' H. inversion H. reflexivity.
  - intros model ms w r w'. unfold Mock.create.
    destruct (Mock.replies w); intros H; inversion H; reflexivity.
  - intros r p w u w' H. inversion H. reflexivity.
  - intros cs w rs w' H. inversion H. reflexivity.
  - intros w r w' t H Hw. unfold Mock.retrieve in H.
    rewrite Hw in H. now inversion H.
Defined.



Lemma absent_call_is_still_executed_witness :
  exists call_id,
    tool_executions
      (snd (@loop_body Literal.python _ Mock.platform false zero_tokens
              (Mock.start [] Replies.no_call)))
    = [[ {| ToolCall.name := None;
            ToolCall.type := XPANDER;
            ToolCall.payload := None;
            ToolCall.tool_call_id := call_id |} ]].
Proof.
  apply (absent_call_is_still_executed (ast := Literal.python) (platform := Mock.platform)
           zero_tokens (Mock.start [] Replies.no_call)
           (snd (fst (@loop_body Literal.python _ Mock.platform false zero_tokens
                        (Mock.start [] Replies.no_call))))
           (fst (fst (@loop_body Literal.python _ Mock.platform false zero_tokens
                        (Mock.start [] Replies.no_call))))
           (snd (@loop_body Literal.python _ Mock.platform false zero_tokens
                   (Mock.start [] Replies.no_call)))
           (reply Replies.no_call)).
  - vm_compute. reflexivity.
  - vm_compute. right. right. left. reflexivity.
  - vm_compute. reflexivity.
Defined.

Lemma sentinel_result_ends_loop_witness :
  exists tokens',
    fst (fst (@loop_body Literal.python _ Mock.platform false zero_tokens
                (Mock.start [Replies.finish] Replies.no_call)))
    = Done (true, tokens')
    /\ forall fuel,
         @while_not_finished Literal.python _ Mock.platform (S fuel) false zero_tokens
           (Mock.start [Replies.finish] Replies.no_call)
         = (Done tokens',
            snd (fst (@loop_body Literal.python _ Mock.platform false zero_tokens
                        (Mock.start [Replies.finish] Replies.no_call))),
            snd (@loop_body Literal.python _ Mock.platform false zero_tokens
                   (Mock.start [Replies.finish] Replies.no_call))).
Proof.
  apply (sentinel_result_ends_loop (ast := Literal.python) (platform := Mock.platform)
           zero_tokens (Mock.start [Replies.finish] Replies.no_call)
           (snd (fst (@loop_body Literal.python _ Mock.platform false zero_tokens
                        (Mock.start [Replies.finish] Replies.no_call))))
           (fst (fst (@loop_body Literal.python _ Mock.platform false zero_tokens
                        (Mock.start [Replies.finish] Replies.no_call))))
           (snd (@loop_body Literal.python _ Mock.platform false zero_tokens
                   (Mock.start [Replies.finish] Replies.no_call)))
           [Replies.finish_call] [Mock.echo Replies.finish_call]
           (Mock.echo Replies.finish_call)).
  - vm_compute. reflexivity.
  - vm_compute. right. right. right. left. reflexivity.
  - left. reflexivity.
  - reflexivity.
Defined.

(** A scripted run returns, with the thread it was given. *)
Example scripted_run_returns_its_thread :
  fst (fst (Mock.run 3 (Some (lit "What meetings do I have?")) (Some Replies.thread_1)
              (Mock.start [Replies.calendar; Replies.finish] Replies.no_call)))
  = Done (lit "done", Replies.thread_1).
Proof. vm_compute. reflexivity. Qed.

(** The second recorded run: one calendar call, then the sentinel. *)
Example calendar_then_finish :
  map (map ToolCall.name)
      (tool_executions
         (snd (Mock.run 2 None None
                 (Mock.start [Replies.calendar; Replies.finish] Replies.no_call))))
  = [[Some (lit "CalendarEventManagementGetCalendarEventsById")]; [Some sentinel]]
  /\ fst (fst (Mock.run 2 None None
                 (Mock.start [Replies.calendar; Replies.finish] Replies.no_call)))
     = Done (lit "done", lit "thread-1").
Proof. vm_compute. split; reflexivity. Qed.

(** C10, as stated, fails. The empty string is a prompt that is not [None],
    and the task submitted for it is the default task, not the prompt. *)
Lemma empty_prompt_is_replaced :
  hd_error (snd (Mock.run 1 (Some []) None (Mock.start [Replies.finish] Replies.no_call)))
  = Some (AddTask default_task None (Ok tt))
  /\ default_task <> [].
Proof. split; [vm_compute; reflexivity | discriminate]. Qed.

(** ** Tool provisioning *)

Module ProvisioningFacts.
Import Provisioning.

Lemma find_all_false (A : Type) (f : A -> bool) (l : list A) :
  (forall x, In x l -> f x = false) -> find f l = None.
Proof.
  induction l as [|x l IH]; intros H; simpl; [reflexivity|].
  rewrite (H x (or_introl eq_refl)). apply IH. intros y Hy. apply H. now right.
Qed.

Lemma dict_set_in (V : Type) (k : str) (v : V) (d : list (str * V)) (k' : str) (v' : V) :
  In (k', v') (dict_set k v d) -> (k' = k /\ v' = v) \/ In (k', v') d.
Proof.
  induction d as [|[k0 v0] d IH]; simpl.
  - intros [[= <- <-] | []]. now left.
  - destruct (str_eqb k0 k); simpl.
    + intros [[= <- <-] | H]; [now left | right; now right].
    + intros [H | H]; [right; now left|].
      destruct (IH H) as [E | E]; [now left | right; now right].
Qed.

(** Every key of [interfaces] is the lower-cased name of a remote interface,
    paired with an interface of that name. *)
Lemma build_interfaces_in (remote : list AgenticInterface) (k : str) (i : AgenticInterface) :
  In (k, i) (build_interfaces remote) ->
  In i remote /\ k = lower (get_default (name i)).
Proof.
  unfold build_interfaces.
  assert (G : forall d,
             (forall k' i', In (k', i') d ->
                            In i' remote /\ k' = lower (get_default (name i'))) ->
             forall rs, (forall r, In r rs -> In r remote) ->
             In (k, i) (fold_left
                          (fun interfaces i0 =>
                             dict_set (lower (get_default (name i0))) i0 interfaces)
                          rs d) ->
             In i remote /\ k = lower (get_default (name i))).
  { intros d Hd rs. revert d Hd. induction rs as [|r rs IH]; intros d Hd Hrs H; simpl in H.
    - now apply Hd.
    - apply IH in H; [exact H | | intros r' Hr'; apply Hrs; now right].
      intros k' i' Hin. apply dict_set_in in Hin as [[-> ->] | Hin].
      + split; [apply Hrs; now left | reflexivity].
      + now apply Hd. }
  apply (G [] ltac:(intros ? ? []) remote); auto.
Qed.

Lemma no_interface_find (remote : list AgenticInterface) (interface_name : str) :
  (forall i, In i remote ->
             contains interface_name (lower (get_default (name i))) = false) ->
  find_interface interface_name (build_interfaces remote) = None.
Proof.
  intros H. unfold find_interface. rewrite find_all_false; [reflexivity|].
  intros [k i] Hin. apply build_interfaces_in in Hin as [Hi ->]. simpl. now apply H.
Qed.

Lemma no_operation_find (internal_name : str) (operations : list AgenticOperation) :
  (forall op, In op operations -> id_to_use_on_graph op <> Some internal_name) ->
  find_operation internal_name operations = None.
Proof.
  intros H. unfold find_operation. apply find_all_false. intros op Hop.
  specialize (H op Hop). destruct (id_to_use_on_graph op) as [i|]; [|reflexivity].
  apply str_eqb_neq. congruence.
Qed.

Section Loop.
Variable W : Type.
Variable retrieve : AgenticInterface -> W -> result (list AgenticOperation) * W.
Variable existing_tools : list str.
Variable interfaces : list (str * AgenticInterface).

(** What a tool adds to the two lists does not depend on what they hold. *)
Lemma process_tool_acc (l : lists) (w : W) (t : tool_config) :
  process_tool retrieve existing_tools interfaces (l, w) t
  = (merge l (fst (process_tool retrieve existing_tools interfaces (empty, w) t)),
     snd (process_tool retrieve existing_tools interfaces (empty, w) t)).
Proof.
  unfold process_tool, merge, empty. destruct l as [a m]. simpl.
  repeat match goal with
         | |- context [match ?x with _ => _ end] => innermost x; destruct x eqn:?
         | |- context [if ?x then _ else _] => innermost x; destruct x eqn:?
         end; simpl; rewrite ?app_nil_r; reflexivity.
Qed.

Lemma process_from_acc (tools : list tool_config) : forall l w,
  process_from retrieve existing_tools interfaces (l, w) tools
  = (merge l (fst (process_from retrieve existing_tools interfaces (empty, w) tools)),
     snd (process_from retrieve existing_tools interfaces (empty, w) tools)).
Proof.
  unfold process_from.
  induction tools as [|t tools IH]; intros l w; cbn [fold_left].
  - unfold merge. destruct l. simpl. now rewrite !app_nil_r.
  - rewrite process_tool_acc.
    destruct (process_tool retrieve existing_tools interfaces (empty, w) t) as [d w1].
    cbn [fst snd]. rewrite IH. rewrite (IH d w1).
    destruct (fold_left (process_tool retrieve existing_tools interfaces) tools (empty, w1))
      as [d2 w2].
    cbn [fst snd]. unfold merge. simpl. now rewrite !app_assoc.
Qed.

End Loop.

End ProvisioningFacts.

Section ProvisioningProperties.
Import Provisioning ProvisioningFacts.
Variable W : Type.
Variable retrieve : AgenticInterface -> W -> result (list AgenticOperation) * W.
Variable existing_tools : list str.
Variable remote : list AgenticInterface.

Lemma process_tool_unmatched (l : lists) (t : tool_config) (w w1 : W) :
  get_default (internal_name t) <> [] ->
  ~ In (get_default (internal_name t)) existing_tools ->
  unmatched retrieve remote t w w1 ->
  process_tool retrieve existing_tools (build_interfaces remote) (l, w) t
  = ({| to_add := to_add l;
        missing := missing l ++ [get_default (internal_name t)] |}, w1).
Proof.
  intros Hname Hnew Hun. unfold process_tool.
  assert (E1 : truthy (get_default (internal_name t)) = true)
    by (destruct (get_default (internal_name t)); [congruence | reflexivity]).
  assert (E2 : existsb (str_eqb (get_default (internal_name t))) existing_tools = false).
  { destruct (existsb _ existing_tools) eqn:E; [|reflexivity].
    apply existsb_exists in E as [x [Hx Heq]]. apply str_eqb_eq in Heq. now subst x. }
  rewrite E1, E2. cbn [negb].
  destruct Hun as [Hno | intf operations w1 Hfind Hops Hno].
  - now rewrite (no_interface_find remote _ Hno).
  - now rewrite Hfind, Hops, (no_operation_find _ _ Hno).
Qed.

(** C9, as amended. A configured tool with a non-empty internal name that is
    not attached yet, whose interface matches no remote interface or whose
    internal name matches no operation of the interface found, adds nothing
    to [to_add] and its internal name to [missing]; the tools before it and
    after it are processed as they would be without it. *)
Theorem unmatched_tool_is_reported_missing
  (before after : list tool_config) (t : tool_config) (w w1 w2 w3 : W) (l1 l2 : lists) :
  get_default (internal_name t) <> [] ->
  ~ In (get_default (internal_name t)) existing_tools ->
  process_tools retrieve existing_tools (build_interfaces remote) before w = (l1, w1) ->
  unmatched retrieve remote t w1 w2 ->
  process_tools retrieve existing_tools (build_interfaces remote) after w2 = (l2, w3) ->
  process_tools retrieve existing_tools (build_interfaces remote) (before ++ t :: after) w
  = ({| to_add := to_add l1 ++ to_add l2;
        missing := missing l1 ++ get_default (internal_name t) :: missing l2 |}, w3).
Proof.
  intros Hname Hnew Hbefore Hun Hafter.
  unfold process_tools, process_from in *.
  rewrite fold_left_app, Hbefore. cbn [fold_left].
  rewrite (process_tool_unmatched l1 t w1 w2 Hname Hnew Hun).
  pose proof (process_from_acc W retrieve existing_tools (build_interfaces remote) after
                {| to_add := to_add l1;
                   missing := missing l1 ++ [get_default (internal_name t)] |} w2) as Hacc.
  unfold process_from in Hacc. rewrite Hacc, Hafter.
  unfold merge. cbn [fst snd to_add missing]. now rewrite <- app_assoc.
Qed.

End ProvisioningProperties.

Lemma unmatched_tool_is_reported_missing_witness :
  Provisioning.process_tools Organization.retrieve [sentinel]
    (Provisioning.build_interfaces Organization.remote)
    ([Organization.bot_tool] ++ Organization.calendar_tool :: [Organization.email_tool]) tt
  = ({| Provisioning.to_add := [Organization.create_bot; Organization.send_email];
        Provisioning.missing := [lit "CalendarEventManagementGetCalendarEventsById"] |}, tt).
Proof.
  apply (unmatched_tool_is_reported_missing unit Organization.retrieve [sentinel]
           Organization.remote
           [Organization.bot_tool] [Organization.email_tool] Organization.calendar_tool
           tt tt tt tt
           {| Provisioning.to_add := [Organization.create_bot]; Provisioning.missing := [] |}
           {| Provisioning.to_add := [Organization.send_email]; Provisioning.missing := [] |}).
  - discriminate.
  - intros [H | []]. discriminate H.
  - vm_compute. reflexivity.
  - apply Provisioning.no_interface. intros i [<- | [<- | []]]; vm_compute; reflexivity.
  - vm_compute. reflexivity.
Defined.

(** C9, as stated, fails. The calendar tool is already attached to the agent
    and the interface its configuration names matches no remote interface:
    it is skipped, but its internal name is not put in [missing]. *)
Lemma attached_tool_with_unmatched_interface_not_missing :
  Provisioning.find_interface
    (lower (Provisioning.get_default (Provisioning.interface Organization.calendar_tool)))
    (Provisioning.build_interfaces Organization.remote)
  = None
  /\ Provisioning.process_tools Organization.retrieve
       [sentinel; lit "CalendarEventManagementGetCalendarEventsById"]
       (Provisioning.build_interfaces Organization.remote)
       [Organization.calendar_tool] tt
     = ({| Provisioning.to_add := []; Provisioning.missing := [] |}, tt).
Proof. vm_compute. split; reflexivity. Qed.

(** * Further properties *)

(** ** The extractor, line by line *)

Module ExtractorFacts.

(** The start index only numbers the match. *)
Lemma search_from_index (s : str) : forall i j,
  option_map snd (search_from i s) = option_map snd (search_from j s).
Proof.
  induction s as [|c t IH]; intros i j; cbn [search_from].
  - destruct (match_here []); reflexivity.
  - destruct (match_here (c :: t)); [reflexivity | apply IH].
Qed.

Lemma close_here_line (c : ascii) (t more : str) :
  close_here (c :: t ++ newline :: more) = close_here (c :: t).
Proof.
  destruct t as [|c2 t]; [|reflexivity].
  cbn [app close_here]. change (Ascii.eqb newline "]") with false.
  now rewrite andb_false_r.
Qed.

(** The star never looks past the end of the line. *)
Lemma dot_star_close_line (r more : str) :
  dot_star_close (r ++ newline :: more) = dot_star_close r.
Proof.
  induction r as [|c t IH].
  - cbn [app]. rewrite dot_star_close_cons.
    change (dot_matches newline) with false. cbv iota.
    destruct more; reflexivity.
  - cbn [app]. rewrite !dot_star_close_cons, IH, close_here_line. reflexivity.
Qed.

Lemma brace_group_line (r more : str) :
  brace_group (r ++ newline :: more) = brace_group r.
Proof.
  destruct r as [|c t]; [reflexivity|].
  cbn [app brace_group]. now rewrite dot_star_close_line.
Qed.

Lemma name_plus_line (s more : str) :
  name_plus brace_group (s ++ newline :: more) = name_plus brace_group s.
Proof.
  induction s as [|c t IH]; [reflexivity|].
  cbn [app]. rewrite !name_plus_cons, IH, brace_group_line. reflexivity.
Qed.

Lemma match_here_line (s more : str) :
  match_here (s ++ newline :: more) = match_here s.
Proof.
  destruct s as [|c t]; [reflexivity|].
  cbn [app match_here]. now rewrite name_plus_line.
Qed.

(** The search in a text of several lines is the search in its first part,
    then, when that fails, in the rest. *)
Lemma re_search_lines (l1 l2 : str) :
  re_search (l1 ++ newline :: l2)
  = match re_search l1 with
    | Some m => Some m
    | None => re_search l2
    end.
Proof.
  unfold re_search. generalize 0 at 1 2. induction l1 as [|c t IH]; intros i.
  - cbn [app search_from option_map].
    change (match_here (newline :: l2)) with (@None (str * str)). cbv iota.
    apply search_from_index.
  - assert (E : match_here ((c :: t) ++ newline :: l2) = match_here (c :: t))
      by apply match_here_line.
    cbn [app search_from] in *. rewrite E.
    destruct (match_here (c :: t)); [reflexivity | apply IH].
Qed.

(** Text without an opening bracket in front of a text changes nothing. *)
Lemma re_search_skips_prefix (pre s : str) :
  ~ In "["%char pre -> re_search (pre ++ s) = re_search s.
Proof.
  unfold re_search. generalize 0 at 1. induction pre as [|c t IH]; intros i Hpre.
  - apply search_from_index.
  - cbn [app search_from match_here].
    destruct (Ascii.eqb c "[") eqn:Hc.
    + apply Ascii.eqb_eq in Hc. subst c. exfalso. apply Hpre. now left.
    + apply IH. intros H. apply Hpre. now right.
Qed.

Section WithEvaluator.
Context {ast : Ast}.

(** The extractor as a function of the content alone. *)
Lemma extractor_on_content (r : model_response) (text : str) :
  reply_content r = Some text ->
  get_function_and_payload r
  = match re_search text with
    | Some (tool_name, payload_str) =>
        match literal_eval payload_str with
        | Ok payload => Ok (Some tool_name, Some payload)
        | Raise e => Raise e
        end
    | None => Ok (None, None)
    end.
Proof.
  unfold get_function_and_payload, reply_content.
  destruct (choices r) as [|c cs]; [discriminate|]. now intros ->.
Qed.

End WithEvaluator.

End ExtractorFacts.
Import ExtractorFacts.

Section ExtractorShape.
Context {ast : Ast}.

(** X1. What the extractor returns is either no name and no payload, or a
    name together with a payload; a name it returns is never empty and is
    made of the characters [A-Za-z0-9_-] only. *)
Theorem extracted_name_comes_with_payload
  (r : model_response) (n : option str) (p : option pyvalue) :
  get_function_and_payload r = Ok (n, p) ->
  (n = None /\ p = None)
  \/ exists name v,
       n = Some name /\ p = Some v
       /\ name <> [] /\ forallb is_name_char name = true.
Proof.
  unfold get_function_and_payload.
  destruct (choices r) as [|c cs]; [discriminate|].
  destruct (content (message c)) as [text|]; [|discriminate].
  destruct (re_search text) as [[name g]|] eqn:Hs.
  - destruct (literal_eval g) as [v|e]; [|discriminate].
    intros [= <- <-]. right. exists name, v.
    apply re_search_sound in Hs as (pre & b & post & _ & (_ & Hne & Hn & _) & _).
    now repeat split.
  - intros [= <- <-]. now left.
Qed.

(** X2. The extractor raises in three cases only: [IndexError] when the
    reply has no choice, [TypeError] when its content is [None], and the
    error of the evaluator on the brace part of the occurrence the search
    selected, a text of one line between braces. *)
Theorem extractor_raises_only_for
  (r : model_response) (e : exn) :
  get_function_and_payload r = Raise e ->
  (choices r = [] /\ e = IndexError)
  \/ (exists c cs, choices r = c :: cs /\ content (message c) = None /\ e = TypeError)
  \/ (exists text pre name body post,
        reply_content r = Some text
        /\ selected text pre name body post
        /\ forallb dot_matches body = true
        /\ literal_eval (braces body) = Raise e).
Proof.
  unfold get_function_and_payload, reply_content.
  destruct (choices r) as [|c cs].
  - intros [= <-]. now left.
  - destruct (content (message c)) as [text|] eqn:Hc.
    + destruct (re_search text) as [[name g]|] eqn:Hs; [|discriminate].
      destruct (literal_eval g) as [v|e'] eqn:He; [discriminate|].
      intros [= <-]. right. right.
      apply re_search_sound in Hs as (pre & b & post & -> & Hsel).
      exists text, pre, name, b, post.
      split; [reflexivity|]. split; [exact Hsel|]. split; [|exact He].
      now destruct Hsel as ((_ & _ & _ & Hd) & _).
    + intros [= <-]. right. left. exists c, cs.
      split; [reflexivity|]. split; [first [exact Hc | reflexivity] | reflexivity].
Qed.

(** X3. On a content of several lines the extractor gives what it gives on
    the text before a newline, and only when it finds no call there, what it
    gives on the text after it. *)
Theorem extractor_reads_line_by_line
  (r r1 r2 : model_response) (l1 l2 : str) :
  reply_content r = Some (l1 ++ newline :: l2) ->
  reply_content r1 = Some l1 ->
  reply_content r2 = Some l2 ->
  (get_function_and_payload r1 = Ok (None, None) ->
   get_function_and_payload r = get_function_and_payload r2)
  /\ (get_function_and_payload r1 <> Ok (None, None) ->
      get_function_and_payload r = get_function_and_payload r1).
Proof.
  intros H H1 H2.
  rewrite (extractor_on_content r _ H), (extractor_on_content r1 _ H1),
    (extractor_on_content r2 _ H2), re_search_lines.
  destruct (re_search l1) as [[name g]|].
  - split; [|reflexivity].
    destruct (literal_eval g); discriminate.
  - split; [reflexivity | congruence].
Qed.

(** X4. Whatever precedes the content, tags or prose, does not change the
    result as long as it holds no opening square bracket. *)
Theorem extractor_ignores_text_before_first_bracket
  (r r' : model_response) (before text : str) :
  reply_content r = Some (before ++ text) ->
  reply_content r' = Some text ->
  ~ In "["%char before ->
  get_function_and_payload r = get_function_and_payload r'.
Proof.
  intros H H' Hb.
  rewrite (extractor_on_content r _ H), (extractor_on_content r' _ H'),
    (re_search_skips_prefix before text Hb).
  reflexivity.
Qed.

End ExtractorShape.

(** ** The trace of a run *)

Module TraceFacts.

Lemma add_completions_app (acc : Tokens) (e1 e2 : list event) :
  add_completions acc (e1 ++ e2) = add_completions (add_completions acc e1) e2.
Proof. unfold add_completions. apply fold_left_app. Qed.

Section Invariants.
Context {ast : Ast} {W : Type} {platform : Platform W}.

Lemma executes_app (e1 e2 : list event) :
  executes_what_was_extracted e1 -> executes_what_was_extracted e2 ->
  executes_what_was_extracted (e1 ++ e2).
Proof.
  intros H1 H2 cs r Hin. apply in_app_iff in Hin as [Hin | Hin].
  - destruct (H1 _ _ Hin) as (b & resp & c & a & -> & Hc & Ht & Hg).
    exists b, resp, c, (a ++ e2). split; [|now repeat split].
    rewrite <- app_assoc. reflexivity.
  - destruct (H2 _ _ Hin) as (b & resp & c & a & -> & Hc & Ht & Hg).
    exists (e1 ++ b), resp, c, a. split; [|now repeat split].
    rewrite <- app_assoc. reflexivity.
Qed.

Lemma executes_without_tools (evs : list event) :
  tool_executions evs = [] -> executes_what_was_extracted evs.
Proof.
  intros H cs r Hin. exfalso.
  apply in_split in Hin as (a & b & ->).
  rewrite tool_executions_app in H. apply app_eq_nil in H as [_ H]. discriminate H.
Qed.

Lemma loop_body_executes (is_finished : bool) (tokens : Tokens) (w w' : W)
      (out : outcome (bool * Tokens)) (evs : list event) :
  loop_body is_finished tokens w = (out, w', evs) -> executes_what_was_extracted evs.
Proof.
  intros H.
  unfold loop_body, get_response, execute_tool_calls, bind, call, local, lift, ret in H.
  cases H; injection H as <- <- <-;
    try (apply executes_without_tools; reflexivity);
    repeat match goal with u : unit |- _ => destruct u end;
    intros tcs res Hin; simpl in Hin;
    repeat match goal with
           | D : _ \/ _ |- _ => destruct D as [D | D]
           | D : False |- _ => destruct D
           end;
    try discriminate;
    injection Hin as <- <-;
    match goal with
    | E : get_function_and_payload _ = Ok ?tp |- _ =>
        simpl in E; destruct tp as [n p];
        eexists [_; _], _, _, []; split; [reflexivity|];
        split; [reflexivity|]; split; [reflexivity | exact E]
    end.
Qed.

Lemma while_executes (fuel : nat) : forall is_finished tokens w out w' evs,
  while_not_finished fuel is_finished tokens w = (out, w', evs) ->
  executes_what_was_extracted evs.
Proof.
  induction fuel as [|fuel IH]; intros [|] tokens w out w' evs H;
    try (cbn in H; injection H as <- <- <-; apply executes_without_tools; reflexivity).
  rewrite while_not_finished_step in H.
  apply bind_inv in H as [(st & w1 & e1 & e2 & Hm & Hk & ->) | [(e & Hm & _) | (Hm & _)]];
    try (eapply loop_body_executes; eassumption).
  apply executes_app; [eapply loop_body_executes; eassumption|].
  destruct (fst st).
  - injection Hk as <- <- <-. apply executes_without_tools. reflexivity.
  - eapply IH; eassumption.
Qed.

(** The counters the loop returns are the ones it was given plus the usage
    of every completion it made. *)
Lemma loop_body_tokens (is_finished fin : bool) (tokens tokens' : Tokens) (w w' : W)
      (evs : list event) :
  loop_body is_finished tokens w = (Done (fin, tokens'), w', evs) ->
  tokens' = add_completions tokens evs.
Proof.
  intros H.
  unfold loop_body, get_response, execute_tool_calls, bind, call, local, lift, ret in H.
  cases H; try discriminate. injection H as <- <- <- <-. reflexivity.
Qed.

Lemma while_tokens (fuel : nat) : forall is_finished tokens w tokens' w' evs,
  while_not_finished fuel is_finished tokens w = (Done tokens', w', evs) ->
  tokens' = add_completions tokens evs.
Proof.
  induction fuel as [|fuel IH]; intros [|] tokens w tokens' w' evs H;
    try (cbn in H; injection H as <- <- <-; reflexivity);
    try discriminate H.
  rewrite while_not_finished_step in H.
  apply bind_inv in H as [(st & w1 & e1 & e2 & Hm & Hk & ->) | [(e & _ & E) | (_ & E)]];
    try discriminate E.
  destruct st as [fin tk]. apply loop_body_tokens in Hm. cbn [fst snd] in Hk.
  rewrite add_completions_app, <- Hm.
  destruct fin.
  - now injection Hk as <- <- <-.
  - eapply IH; eassumption.
Qed.

Lemma quiet_without_tools (evs : list event) :
  tool_executions evs = [] -> quiet_after_sentinel evs.
Proof.
  intros H e1 cs rs e2 -> _. exfalso.
  rewrite tool_executions_app in H. apply app_eq_nil in H as [_ H]. discriminate H.
Qed.

Lemma sentinel_in_trace_app (e1 e2 : list event) :
  sentinel_in_trace (e1 ++ e2) = sentinel_in_trace e1 || sentinel_in_trace e2.
Proof. unfold sentinel_in_trace. apply existsb_app. Qed.

Lemma quiet_app (a b : list event) :
  quiet_after_sentinel a -> quiet_after_sentinel b ->
  (sentinel_in_trace a = true ->
   forallb (fun ev => negb (asks_model_or_tools ev)) b = true) ->
  quiet_after_sentinel (a ++ b).
Proof.
  intros Ha Hb Hab e1 cs rs e2 E Hs.
  apply app_eq_app in E as [l [[-> E] | [-> E]]].
  - destruct l as [|x l]; simpl in E.
    + subst b. apply (Hb [] cs rs e2 eq_refl Hs).
    + injection E as <- ->. rewrite forallb_app.
      rewrite (Ha e1 cs rs l eq_refl Hs). apply Hab.
      rewrite sentinel_in_trace_app, orb_true_iff. right.
      unfold sentinel_in_trace. cbn [existsb].
      unfold carries_sentinel in Hs. now rewrite Hs.
  - apply (Hb l cs rs e2 E Hs).
Qed.

(** The trace of an iteration: calls of the loop body only, with at most one
    tool execution, which then comes last and decides the flag. *)
Lemma loop_body_trace (is_finished : bool) (tokens : Tokens) (w w' : W)
      (out : outcome (bool * Tokens)) (evs : list event) :
  loop_body is_finished tokens w = (out, w', evs) ->
  forallb loop_event evs = true
  /\ ((tool_executions evs = [] /\ forall x, out <> Done x)
      \/ exists pre cs res,
           evs = pre ++ [RunTools cs res]
           /\ tool_executions pre = []
           /\ (forall rs, res = Ok rs ->
                          exists tk, out = Done (check_responses is_finished rs, tk))
           /\ (forall x, out = Done x -> exists rs, res = Ok rs)).
Proof.
  intros H.
  unfold loop_body, get_response, execute_tool_calls, bind, call, local, lift, ret in H.
  cases H; injection H as <- <- <-; (split; [reflexivity|]);
    first
      [ left; split; [reflexivity | intros x; discriminate]
      | right; eexists [_; _; _], _, _;
        split; [reflexivity|]; split; [reflexivity|];
        split;
        [ intros rs E; first [discriminate E | injection E as <-; eexists; reflexivity]
        | intros x E; first [discriminate E | eexists; reflexivity] ] ].
Qed.

Lemma tools_last_quiet (pre : list event) (cs : list ToolCall.t)
      (res : result (list ToolCallResult.t)) :
  tool_executions pre = [] -> quiet_after_sentinel (pre ++ [RunTools cs res]).
Proof.
  intros Hpre e1 cs' rs e2 E _.
  apply app_eq_app in E as [l [[-> E] | [-> E]]].
  - destruct l as [|x l]; simpl in E.
    + assert (e2 = []) as -> by congruence. reflexivity.
    + assert (x = RunTools cs' (Ok rs)) as -> by congruence.
      rewrite tool_executions_app in Hpre.
      apply app_eq_nil in Hpre as [_ Hpre]. discriminate Hpre.
  - destruct l as [|x l]; simpl in E.
    + assert (e2 = []) as -> by congruence. reflexivity.
    + exfalso. destruct l; discriminate E.
Qed.

Lemma loop_body_quiet (is_finished : bool) (tokens : Tokens) (w w' : W)
      (out : outcome (bool * Tokens)) (evs : list event) :
  loop_body is_finished tokens w = (out, w', evs) ->
  quiet_after_sentinel evs
  /\ forallb loop_event evs = true
  /\ forall fin tokens', out = Done (fin, tokens') ->
                         is_finished = false -> fin = sentinel_in_trace evs.
Proof.
  intros H. apply loop_body_trace in H as [Hl [[Hno Hout] | (pre & cs & res & -> & Hpre & Hok & Hdone)]].
  - split; [now apply quiet_without_tools|]. split; [exact Hl|].
    intros fin tk E. now apply Hout in E.
  - split; [now apply tools_last_quiet|]. split; [exact Hl|].
    intros fin tk E ->. destruct (Hdone _ E) as [rs ->].
    destruct (Hok rs eq_refl) as [tk' E']. rewrite E in E'. injection E' as -> _.
    rewrite check_responses_spec, sentinel_in_trace_app. cbn [orb].
    assert (Hp : sentinel_in_trace pre = false).
    { clear -Hpre. induction pre as [|ev pre IH]; [reflexivity|].
      destruct ev; simpl in *; try (apply IH; exact Hpre). discriminate Hpre. }
    rewrite Hp. simpl. now rewrite orb_false_r.
Qed.

Lemma while_quiet (fuel : nat) : forall tokens w out w' evs,
  while_not_finished fuel false tokens w = (out, w', evs) ->
  quiet_after_sentinel evs /\ forallb loop_event evs = true.
Proof.
  induction fuel as [|fuel IH]; intros tokens w out w' evs H.
  - cbn in H. injection H as <- <- <-.
    split; [apply quiet_without_tools|]; reflexivity.
  - rewrite while_not_finished_step in H.
    apply bind_inv in H as [(st & w1 & e1 & e2 & Hm & Hk & ->) | [(e & Hm & _) | (Hm & _)]].
    + destruct st as [fin tk].
      destruct (loop_body_quiet _ _ _ _ _ _ Hm) as (Hq & Hl & Hfin).
      specialize (Hfin fin tk eq_refl eq_refl). cbn [fst snd] in Hk.
      destruct fin.
      * injection Hk as <- <- <-. rewrite app_nil_r. now split.
      * destruct (IH _ _ _ _ _ Hk) as [Hq2 Hl2]. split.
        -- apply quiet_app; [exact Hq | exact Hq2 | congruence].
        -- now rewrite forallb_app, Hl, Hl2.
    + destruct (loop_body_quiet _ _ _ _ _ _ Hm) as (Hq & Hl & _). now split.
    + destruct (loop_body_quiet _ _ _ _ _ _ Hm) as (Hq & Hl & _). now split.
Qed.

End Invariants.

End TraceFacts.
Import TraceFacts.


(** ** The shape of a whole run *)

Module RunFacts.

Section Shape.
Context {ast : Ast} {W : Type} {platform : Platform W}.

(** A run is the two setup calls, the loop, and the two closing calls; it
    stops at the first of them that does not return. *)
Lemma run_shape (fuel : nat) (prompt thread_id : option str) (w w' : W)
      (out : outcome (str * str)) (evs : list event) :
  run fuel prompt thread_id w = (out, w', evs) ->
  (exists e,
     evs = [AddTask (py_or prompt default_task) (thread_or_none thread_id) (Raise e)]
     /\ out = Raised e)
  \/ (exists stamp e,
        evs = [AddTask (py_or prompt default_task) (thread_or_none thread_id) (Ok tt);
               AddMessages (MessageList stamp) (Raise e)]
        /\ out = Raised e)
  \/ (exists stamp w2 out_loop w3 in_loop closing,
        evs = [AddTask (py_or prompt default_task) (thread_or_none thread_id) (Ok tt);
               AddMessages (MessageList stamp) (Ok tt)] ++ in_loop ++ closing
        /\ while_not_finished fuel false zero_tokens w2 = (out_loop, w3, in_loop)
        /\ ((closing = []
             /\ ((exists e, out_loop = Raised e /\ out = Raised e)
                 \/ (out_loop = OutOfFuel /\ out = OutOfFuel)))
            \/ exists tokens,
                 out_loop = Done tokens
                 /\ ((exists e,
                        closing = [RetrieveExecutionResult (Raise e)] /\ out = Raised e)
                     \/ (exists res e,
                           closing = [RetrieveExecutionResult (Ok res);
                                      ReportExecutionMetrics tokens metrics_model (Raise e)]
                           /\ out = Raised e)
                     \/ (exists res,
                           closing = [RetrieveExecutionResult (Ok res);
                                      ReportExecutionMetrics tokens metrics_model (Ok tt)]
                           /\ out = Done (ExecutionResult.result res,
                                          ExecutionResult.memory_thread_id res))))).
Proof.
  intros H. unfold run, bind, call, local, ret in H.
  cases H; injection H as <- <- <-;
    repeat match goal with u : unit |- _ => destruct u end;
    try (left; eexists; split; reflexivity);
    try (right; left; eexists _, _; split; reflexivity);
    right; right;
    match goal with
    | E : while_not_finished _ _ _ ?w2 = (?o, ?w3, ?l) |- _ =>
        first
          [ eexists _, w2, o, w3, l, [];
            split; [cbn [app]; rewrite app_nil_r; reflexivity|];
            split; [exact E|];
            left; split; [reflexivity|];
            first [ left; eexists; split; reflexivity
                  | right; split; reflexivity ]
          | eexists _, w2, o, w3, l, _;
            split; [reflexivity|];
            split; [exact E|];
            right; eexists; split; [reflexivity|];
            first [ left; eexists; split; reflexivity
                  | right; left; eexists _, _; split; reflexivity
                  | right; right; eexists; split; reflexivity ] ]
    end.
Qed.

(** *** Failed calls *)

Lemma stops_nil {A : Type} (out : outcome A) : stops_at_failure out [].
Proof. intros [|x e1] ev e2 e E; discriminate E. Qed.

Lemma stops_cons {A : Type} (out : outcome A) (ev : event) (evs : list event) :
  succeeded ev = true -> stops_at_failure out evs -> stops_at_failure out (ev :: evs).
Proof.
  intros Hev H [|x e1] ev' e2 e E F.
  - injection E as <- <-. unfold succeeded in Hev. rewrite F in Hev. discriminate Hev.
  - injection E as <- ->. exact (H e1 ev' e2 e eq_refl F).
Qed.

Lemma stops_single {A : Type} (ev : event) (e : exn) :
  failure ev = Some e -> stops_at_failure (Raised e : outcome A) [ev].
Proof.
  intros F [|x [|y e1]] ev' e2 e' E F'; try discriminate E.
  injection E as <- <-. split; [reflexivity|]. congruence.
Qed.

Lemma stops_tail {A : Type} (out : outcome A) (ev : event) (evs : list event) :
  stops_at_failure out (ev :: evs) -> stops_at_failure out evs.
Proof. intros H e1 ev' e2 e -> F. exact (H (ev :: e1) ev' e2 e eq_refl F). Qed.

Lemma stops_done_clean {A : Type} (a : A) (evs : list event) :
  stops_at_failure (Done a) evs -> forallb succeeded evs = true.
Proof.
  induction evs as [|ev evs IH]; intros H; [reflexivity|].
  cbn [forallb]. rewrite (IH (stops_tail _ _ _ H)), andb_true_r.
  unfold succeeded. destruct (failure ev) as [e|] eqn:F; [|reflexivity].
  destruct (H [] ev evs e eq_refl F) as [_ E]. discriminate E.
Qed.

Lemma stops_app {A : Type} (out : outcome A) (e1 e2 : list event) :
  forallb succeeded e1 = true -> stops_at_failure out e2 ->
  stops_at_failure out (e1 ++ e2).
Proof.
  induction e1 as [|ev e1 IH]; intros H1 H2; [exact H2|].
  cbn [forallb] in H1. apply andb_true_iff in H1 as [Hev H1].
  cbn [app]. apply stops_cons; [exact Hev | now apply IH].
Qed.

Lemma stops_bind {A B : Type} (a : A) (out : outcome B) (e1 e2 : list event) :
  stops_at_failure (Done a) e1 -> stops_at_failure out e2 ->
  stops_at_failure out (e1 ++ e2).
Proof. intros H1 H2. apply stops_app; [now apply stops_done_clean in H1 | exact H2]. Qed.

Lemma stops_raised {A B : Type} (e : exn) (evs : list event) :
  stops_at_failure (Raised e : outcome A) evs ->
  stops_at_failure (Raised e : outcome B) evs.
Proof.
  intros H e1 ev e2 e' E F. destruct (H e1 ev e2 e' E F) as [-> Heq].
  split; [reflexivity|]. now injection Heq as ->.
Qed.

Lemma stops_out_of_fuel {A B : Type} (evs : list event) :
  stops_at_failure (OutOfFuel : outcome A) evs ->
  stops_at_failure (OutOfFuel : outcome B) evs.
Proof.
  intros H e1 ev e2 e' E F. destruct (H e1 ev e2 e' E F) as [_ Heq]. discriminate Heq.
Qed.

Ltac stops :=
  repeat first [ apply stops_nil
               | apply stops_single; reflexivity
               | apply stops_cons; [reflexivity|] ].

Lemma loop_body_stops (is_finished : bool) (tokens : Tokens) (w w' : W)
      (out : outcome (bool * Tokens)) (evs : list event) :
  loop_body is_finished tokens w = (out, w', evs) -> stops_at_failure out evs.
Proof.
  intros H.
  unfold loop_body, get_response, execute_tool_calls, bind, call, local, lift, ret in H.
  cases H; injection H as <- <- <-; stops.
Qed.

Lemma while_stops (fuel : nat) : forall is_finished tokens w out w' evs,
  while_not_finished fuel is_finished tokens w = (out, w', evs) ->
  stops_at_failure out evs.
Proof.
  induction fuel as [|fuel IH]; intros [|] tokens w out w' evs H;
    try (cbn in H; injection H as <- <- <-; apply stops_nil).
  rewrite while_not_finished_step in H.
  apply bind_inv in H as [(st & w1 & e1 & e2 & Hm & Hk & ->) | [(e & Hm & ->) | (Hm & ->)]];
    [ | eapply stops_raised, loop_body_stops; eassumption
      | eapply stops_out_of_fuel, loop_body_stops; eassumption ].
  eapply stops_bind; [eapply loop_body_stops; eassumption|].
  destruct (fst st).
  - injection Hk as <- <- <-. apply stops_nil.
  - eapply IH; eassumption.
Qed.

Lemma raised_at_end_app (e : exn) (e1 e2 : list event) :
  raised_at_end e e2 -> raised_at_end e (e1 ++ e2).
Proof.
  intros [(b & ev & -> & F) | (b & r & -> & G)].
  - left. exists (e1 ++ b), ev. now rewrite app_assoc.
  - right. exists (e1 ++ b), r. now rewrite app_assoc.
Qed.

Lemma loop_body_raised (is_finished : bool) (tokens : Tokens) (w w' : W)
      (e : exn) (evs : list event) :
  loop_body is_finished tokens w = (Raised e, w', evs) -> raised_at_end e evs.
Proof.
  intros H.
  unfold loop_body, get_response, execute_tool_calls, bind, call, local, lift, ret in H.
  cases H; try discriminate H; injection H as <- <- <-;
    repeat match goal with u : unit |- _ => destruct u end;
    first
      [ left; eexists [], _; split; reflexivity
      | left; eexists [_], _; split; reflexivity
      | left; eexists [_; _], _; split; reflexivity
      | left; eexists [_; _; _], _; split; reflexivity
      | right; eexists [_; _], _; split; [reflexivity | eassumption] ].
Qed.

Lemma while_raised (fuel : nat) : forall is_finished tokens w e w' evs,
  while_not_finished fuel is_finished tokens w = (Raised e, w', evs) ->
  raised_at_end e evs.
Proof.
  induction fuel as [|fuel IH]; intros [|] tokens w e w' evs H;
    try discriminate H.
  rewrite while_not_finished_step in H.
  apply bind_inv in H as [(st & w1 & e1 & e2 & Hm & Hk & ->) | [(e' & Hm & E) | (_ & E)]];
    try discriminate E.
  - apply raised_at_end_app. destruct (fst st); [discriminate Hk|].
    eapply IH; eassumption.
  - injection E as <-. eapply loop_body_raised; eassumption.
Qed.

(** The first occurrence of a kind of call splits a trace in one way only. *)
Lemma first_occurrence (p : event -> bool) (a : list event) (x : event) (b : list event) :
  forall e1 y e2,
    forallb (fun ev => negb (p ev)) a = true ->
    forallb (fun ev => negb (p ev)) b = true ->
    p y = true ->
    a ++ x :: b = e1 ++ y :: e2 ->
    e1 = a /\ y = x /\ e2 = b.
Proof.
  induction a as [|z a IH]; intros [|z' e1] y e2 Ha Hb Hy E; cbn [app] in E.
  - injection E as -> ->. now repeat split.
  - injection E as -> ->. rewrite forallb_app in Hb. cbn [forallb] in Hb.
    rewrite Hy in Hb. cbn in Hb. rewrite andb_false_r in Hb. discriminate Hb.
  - injection E as -> _. cbn [forallb] in Ha. rewrite Hy in Ha. discriminate Ha.
  - injection E as -> E. cbn [forallb] in Ha. apply andb_true_iff in Ha as [_ Ha].
    destruct (IH e1 y e2 Ha Hb Hy E) as (-> & -> & ->). now repeat split.
Qed.

Lemma forallb_weaken (p q : event -> bool) (l : list event) :
  (forall ev, p ev = true -> q ev = true) ->
  forallb p l = true -> forallb q l = true.
Proof.
  intros Hpq H. apply forallb_forall. intros ev Hin.
  apply Hpq. revert ev Hin. now apply forallb_forall.
Qed.

(** *** Completions *)

Lemma reports_app (e1 e2 : list event) :
  reports_every_completion e1 -> reports_every_completion e2 ->
  reports_every_completion (e1 ++ e2).
Proof.
  intros H1 H2 model messages response Hin. apply in_app_iff in Hin as [Hin | Hin].
  - destruct (H1 _ _ _ Hin) as (Hm & b & r & a & -> & Hr). split; [exact Hm|].
    exists b, r, (a ++ e2). split; [now rewrite <- app_assoc|].
    intros E. destruct (Hr E) as (r' & a' & ->). now exists r', (a' ++ e2).
  - destruct (H2 _ _ _ Hin) as (Hm & b & r & a & -> & Hr). split; [exact Hm|].
    exists (e1 ++ b), r, a. split; [now rewrite <- app_assoc | exact Hr].
Qed.

Lemma reports_without_completions (evs : list event) :
  forallb (fun ev => match ev with ChatCompletion _ _ _ => false | _ => true end) evs
  = true ->
  reports_every_completion evs.
Proof.
  intros H model messages response Hin. exfalso.
  apply (proj1 (forallb_forall _ _) H) in Hin. discriminate Hin.
Qed.

Lemma loop_body_reports (is_finished : bool) (tokens : Tokens) (w w' : W)
      (out : outcome (bool * Tokens)) (evs : list event) :
  loop_body is_finished tokens w = (out, w', evs) -> reports_every_completion evs.
Proof.
  intros H.
  unfold loop_body, get_response, execute_tool_calls, bind, call, local, lift, ret in H.
  cases H; injection H as <- <- <-;
    try (apply reports_without_completions; reflexivity);
    repeat match goal with u : unit |- _ => destruct u end;
    intros model messages response Hin; simpl in Hin;
    repeat match goal with
           | D : _ \/ _ |- _ => destruct D as [D | D]
           | D : False |- _ => destruct D
           end;
    try discriminate;
    injection Hin as <- <- <-;
    (split; [reflexivity|]);
    eexists [], _, _; (split; [reflexivity|]);
    intros E; first [discriminate E | eexists _, _; reflexivity].
Qed.

Lemma while_reports (fuel : nat) : forall is_finished tokens w out w' evs,
  while_not_finished fuel is_finished tokens w = (out, w', evs) ->
  reports_every_completion evs.
Proof.
  induction fuel as [|fuel IH]; intros [|] tokens w out w' evs H;
    try (cbn in H; injection H as <- <- <-;
         apply reports_without_completions; reflexivity).
  rewrite while_not_finished_step in H.
  apply bind_inv in H as [(st & w1 & e1 & e2 & Hm & Hk & ->) | [(e & Hm & _) | (Hm & _)]];
    try (eapply loop_body_reports; eassumption).
  apply reports_app; [eapply loop_body_reports; eassumption|].
  destruct (fst st).
  - injection Hk as <- <- <-. apply reports_without_completions. reflexivity.
  - eapply IH; eassumption.
Qed.

(** *** What a run does with the thread id *)

(** The thread id is read once, for the task: two runs whose task creation
    has the same effect go on in the same way. *)
Lemma run_reads_thread_id_once (fuel : nat) (prompt t1 t2 : option str) (w : W) :
  agent_add_task (py_or prompt default_task) (thread_or_none t1) w
  = agent_add_task (py_or prompt default_task) (thread_or_none t2) w ->
  fst (run fuel prompt t1 w) = fst (run fuel prompt t2 w)
  /\ tl (snd (run fuel prompt t1 w)) = tl (snd (run fuel prompt t2 w)).
Proof.
  intros H. unfold run.
  match goal with
  | |- context [bind (call _ _) ?k] => generalize k
  end.
  intros k. unfold bind, call. rewrite H.
  destruct (agent_add_task (py_or prompt default_task) (thread_or_none t2) w)
    as [[u|e] w1].
  - destruct (k u w1) as [[o w2] e2]. now split.
  - now split.
Qed.

(** A run that returns ends with the two closing calls, and returns what
    the first of them fetched. *)
Lemma run_done (fuel : nat) (prompt thread_id : option str) (w w' : W)
      (result_text thread_id' : str) (evs : list event) :
  run fuel prompt thread_id w = (Done (result_text, thread_id'), w', evs) ->
  exists before res tokens,
    evs = before ++ [RetrieveExecutionResult (Ok res);
                     ReportExecutionMetrics tokens metrics_model (Ok tt)]
    /\ result_text = ExecutionResult.result res
    /\ thread_id' = ExecutionResult.memory_thread_id res.
Proof.
  intros H.
  apply run_shape in H
    as [(e & _ & E)
       | [(stamp & e & _ & E)
         | (stamp & w2 & out_loop & w3 & in_loop & closing & -> & Hloop & Hclose)]];
    try discriminate E.
  destruct Hclose
    as [(_ & [(e & _ & E) | (_ & E)])
       | (tokens & -> & [(e & _ & E) | [(res & e & _ & E) | (res & -> & E)]])];
    try discriminate E.
  injection E as -> ->. eexists (_ ++ in_loop), res, tokens.
  split; [|now split]. now rewrite <- app_assoc.
Qed.

Lemma triple_eta {A B C : Type} (x : A * B * C) : x = (fst (fst x), snd (fst x), snd x).
Proof. now destruct x as [[a b] c]. Qed.

End Shape.

End RunFacts.
Import RunFacts.

Section RunTrace.
Context {ast : Ast} {W : Type} {platform : Platform W}.

Ltac stops :=
  repeat first [ apply stops_nil
               | apply stops_single; reflexivity
               | apply stops_cons; [reflexivity|] ].

Ltac run_cases H :=
  let Hclose := fresh "Hclose" in
  let Hloop := fresh "Hloop" in
  apply run_shape in H
    as [(?e & -> & ->)
       | [(?stamp & ?e & -> & ->)
         | (?stamp & ?w2 & ?out_loop & ?w3 & ?in_loop & ?closing & -> & Hloop & Hclose)]];
  [ | | destruct Hclose
          as [(-> & [(?e & -> & ->) | (-> & ->)])
             | (?tokens & -> & [(?e & -> & ->)
                               | [(?res & ?e & -> & ->) | (?res & -> & ->)]])] ].

(** X5. In every run, whatever its outcome, each tool execution directly
    follows the recording of a reply and executes exactly one invocation, of
    type [XPANDER], whose name and payload are what the extractor returned
    for that reply. *)
Theorem tool_executions_follow_extraction
  (fuel : nat) (prompt thread_id : option str) (w w' : W)
  (out : outcome (str * str)) (evs : list event) :
  run fuel prompt thread_id w = (out, w', evs) ->
  forall tool_calls r,
    In (RunTools tool_calls r) evs ->
    exists before response tool_call after,
      evs = before ++ AddMessages (ResponseDump response) (Ok tt)
                   :: RunTools [tool_call] r :: after
      /\ tool_calls = [tool_call]
      /\ ToolCall.type tool_call = XPANDER
      /\ get_function_and_payload response
         = Ok (ToolCall.name tool_call, ToolCall.payload tool_call).
Proof.
  intros H. change (executes_what_was_extracted evs).
  run_cases H;
    try (apply executes_without_tools; reflexivity);
    (apply executes_app; [apply executes_without_tools; reflexivity|]);
    (apply executes_app; [eapply while_executes; eassumption|]);
    apply executes_without_tools; reflexivity.
Qed.


(** X7. The execution result is fetched at most once, only after a tool
    result carried the sentinel, and the only call that can follow is the
    metrics report, made when the fetch succeeded. *)
Theorem result_fetched_only_after_sentinel
  (fuel : nat) (prompt thread_id : option str) (w w' : W)
  (out : outcome (str * str)) (evs : list event) :
  run fuel prompt thread_id w = (out, w', evs) ->
  forall e1 r e2,
    evs = e1 ++ RetrieveExecutionResult r :: e2 ->
    sentinel_observed e1
    /\ (e2 = []
        \/ exists res r', r = Ok res
                          /\ e2 = [ReportExecutionMetrics (completion_usage e1)
                                     metrics_model r']).
Proof.
  intros H e1 r e2 E.
  pose (p := fun ev => match ev with RetrieveExecutionResult _ => true | _ => false end).
  assert (Hloop_p : forall l, forallb loop_event l = true ->
                              forallb (fun ev => negb (p ev)) l = true).
  { intros l. apply forallb_weaken. now intros []. }
  assert (Hin : In (RetrieveExecutionResult r) evs) by (rewrite E; apply in_elt).
  run_cases H;
    try (simpl in Hin; intuition discriminate);
    pose proof (while_quiet _ _ _ _ _ _ Hloop) as [_ Hl];
    try (exfalso; rewrite app_nil_r in Hin;
         apply in_app_iff in Hin as [Hin | Hin]; [simpl in Hin; intuition discriminate|];
         apply (proj1 (forallb_forall _ _) Hl) in Hin; discriminate Hin);
    rewrite app_assoc in E;
    apply (first_occurrence p) in E as (-> & [= ->] & ->);
    try reflexivity;
    try (rewrite forallb_app; cbn [forallb p negb andb]; now apply Hloop_p);
    (split; [apply sentinel_observed_app; right; eapply while_done_sentinel; eassumption|]).
  - now left.
  - right. exists res, (Raise e). split; [reflexivity|].
    do 3 f_equal. unfold completion_usage. rewrite add_completions_app.
    exact (while_tokens _ _ _ _ _ _ _ Hloop).
  - right. exists res, (Ok tt). split; [reflexivity|].
    do 3 f_equal. unfold completion_usage. rewrite add_completions_app.
    exact (while_tokens _ _ _ _ _ _ _ Hloop).
Qed.

(** X8. A run returns only after the result was fetched and the metrics were
    reported, both successfully, as its last two calls; the pair it returns
    is the text and the thread id of the fetched result. *)
Theorem returned_pair_is_fetched_result
  (fuel : nat) (prompt thread_id : option str) (w w' : W)
  (result_text thread_id' : str) (evs : list event) :
  run fuel prompt thread_id w = (Done (result_text, thread_id'), w', evs) ->
  exists before res,
    evs = before ++ [RetrieveExecutionResult (Ok res);
                     ReportExecutionMetrics (completion_usage before) metrics_model (Ok tt)]
    /\ result_text = ExecutionResult.result res
    /\ thread_id' = ExecutionResult.memory_thread_id res.
Proof.
  intros H.
  apply run_shape in H
    as [(e & _ & E)
       | [(stamp & e & _ & E)
         | (stamp & w2 & out_loop & w3 & in_loop & closing & -> & Hloop & Hclose)]];
    try discriminate E.
  destruct Hclose
    as [(_ & [(e & _ & E) | (_ & E)])
       | (tokens & -> & [(e & _ & E) | [(res & e & _ & E) | (res & -> & E)]])];
    try discriminate E.
  injection E as -> ->. eexists (_ ++ in_loop), res.
  split; [|now split]. rewrite <- app_assoc. repeat f_equal.
  unfold completion_usage. rewrite add_completions_app.
  exact (while_tokens _ _ _ _ _ _ _ Hloop).
Qed.

(** X9. Once a tool result carried the sentinel, a run asks the model for no
    further completion and executes no further tool, whatever its outcome. *)
Theorem nothing_asked_after_sentinel
  (fuel : nat) (prompt thread_id : option str) (w w' : W)
  (out : outcome (str * str)) (evs : list event) :
  run fuel prompt thread_id w = (out, w', evs) ->
  forall e1 tool_calls responses e2,
    evs = e1 ++ RunTools tool_calls (Ok responses) :: e2 ->
    carries_sentinel responses = true ->
    forallb (fun ev => negb (asks_model_or_tools ev)) e2 = true.
Proof.
  intros H. change (quiet_after_sentinel evs).
  run_cases H;
    try (apply quiet_without_tools; reflexivity);
    pose proof (while_quiet _ _ _ _ _ _ Hloop) as [Hq _];
    (apply quiet_app;
     [ apply quiet_without_tools; reflexivity
     | apply quiet_app;
       [ exact Hq | apply quiet_without_tools; reflexivity | reflexivity ]
     | intros Hs; discriminate Hs ]).
Qed.

(** X10. [run] catches nothing: a call that raises is the last call of the
    run, and its exception is the outcome of the run. *)
Theorem failed_call_ends_run
  (fuel : nat) (prompt thread_id : option str) (w w' : W)
  (out : outcome (str * str)) (evs : list event) :
  run fuel prompt thread_id w = (out, w', evs) ->
  forall e1 ev e2 e,
    evs = e1 ++ ev :: e2 -> failure ev = Some e ->
    e2 = [] /\ out = Raised e.
Proof.
  intros H. change (stops_at_failure out evs).
  run_cases H; stops;
    pose proof (while_stops _ _ _ _ _ _ _ Hloop) as Hs;
    try (rewrite app_nil_r;
         first [ now apply (stops_raised (A := Tokens))
               | now apply (stops_out_of_fuel (A := Tokens)) ]);
    (apply stops_app; [now apply stops_done_clean in Hs | stops]).
Qed.

(** X11. An exception that ends a run was raised by the last call of the
    run, or came up right after the last call had recorded a reply, before
    any tool was run for that reply; it is then the exception of the
    extractor whenever the extractor raises on that reply. The second case
    names the place and not the step: between the recording and the tool
    execution the notebook parses the reply and builds the [ToolCall], which
    is taken here as a record. *)
Theorem exception_comes_from_last_step
  (fuel : nat) (prompt thread_id : option str) (w w' : W)
  (e : exn) (evs : list event) :
  run fuel prompt thread_id w = (Raised e, w', evs) ->
  (exists before ev, evs = before ++ [ev] /\ failure ev = Some e)
  \/ (exists before response,
        evs = before ++ [AddMessages (ResponseDump response) (Ok tt)]
        /\ forall e', get_function_and_payload response = Raise e' -> e' = e).
Proof.
  intros H.
  assert (Hend : raised_at_end e evs).
  { apply run_shape in H
      as [(e' & -> & E)
         | [(stamp & e' & -> & E)
           | (stamp & w2 & out_loop & w3 & in_loop & closing & -> & Hloop & Hclose)]].
    - injection E as <-. left. now eexists [], _.
    - injection E as <-. left. now eexists [_], _.
    - apply (raised_at_end_app _ [_; _]).
      destruct Hclose
        as [(-> & [(e' & -> & E) | (_ & E)])
           | (tokens & -> & [(e' & -> & E) | [(res & e' & -> & E) | (res & _ & E)]])];
        try discriminate E; injection E as <-.
      + rewrite app_nil_r. eapply while_raised; eassumption.
      + left. now eexists in_loop, _.
      + left. eexists (in_loop ++ [_]), _.
        split; [now rewrite <- app_assoc | reflexivity]. }
  destruct Hend as [Hcall | (before & response & -> & Hraise)].
  - now left.
  - right. exists before, response. split; [reflexivity|].
    intros e' He'. congruence.
Qed.

(** X29. Every completion a run receives was asked of the one model of the
    driver, and the next call reports its usage; when that report returns,
    the call after it records the reply. This comes before the reply is
    parsed: the usage of a reply that cannot be parsed is reported too. *)
Theorem completions_are_reported_then_recorded
  (fuel : nat) (prompt thread_id : option str) (w w' : W)
  (out : outcome (str * str)) (evs : list event) :
  run fuel prompt thread_id w = (out, w', evs) ->
  forall model messages response,
    In (ChatCompletion model messages (Ok response)) evs ->
    model = model_name
    /\ exists before r after,
         evs = before ++ ChatCompletion model messages (Ok response)
                      :: ReportLLMUsage response r :: after
         /\ (r = Ok tt ->
             exists r' after',
               after = AddMessages (ResponseDump response) r' :: after').
Proof.
  intros H. change (reports_every_completion evs).
  run_cases H;
    try (apply reports_without_completions; reflexivity);
    (apply reports_app; [apply reports_without_completions; reflexivity|]);
    (apply reports_app; [eapply while_reports; eassumption|]);
    apply reports_without_completions; reflexivity.
Qed.

End RunTrace.

Section ThreadRoundTrip.
Context {ast : Ast} {W : Type} {platform : Platform W}.


End ThreadRoundTrip.

(** ** The further properties on the recorded replies and the scripted platform *)

Lemma extracted_name_comes_with_payload_witness :
  (Some sentinel = None /\ Some Replies.finish_payload = None)
  \/ exists name v,
       Some sentinel = Some name /\ Some Replies.finish_payload = Some v
       /\ name <> [] /\ forallb is_name_char name = true.
Proof.
  apply (extracted_name_comes_with_payload (ast := Literal.python)
           (reply Replies.finish) (Some sentinel) (Some Replies.finish_payload)).
  vm_compute. reflexivity.
Defined.

Lemma extractor_raises_only_for_witness :
  (choices (reply Replies.malformed) = [] /\ LiteralError = IndexError)
  \/ (exists c cs,
        choices (reply Replies.malformed) = c :: cs
        /\ content (message c) = None /\ LiteralError = TypeError)
  \/ (exists text pre name body post,
        reply_content (reply Replies.malformed) = Some text
        /\ selected text pre name body post
        /\ forallb dot_matches body = true
        /\ Literal.literal_eval (braces body) = Raise LiteralError).
Proof.
  apply (extractor_raises_only_for (ast := Literal.python)
           (reply Replies.malformed) LiteralError).
  vm_compute. reflexivity.
Defined.

Lemma extractor_reads_line_by_line_witness :
  (@get_function_and_payload Literal.python (reply (call_text (lit "a") (lit "'x': 1")))
   = Ok (None, None) ->
   @get_function_and_payload Literal.python (reply Replies.two_on_two_lines)
   = @get_function_and_payload Literal.python (reply (call_text (lit "b") (lit "'y': 2"))))
  /\ (@get_function_and_payload Literal.python (reply (call_text (lit "a") (lit "'x': 1")))
      <> Ok (None, None) ->
      @get_function_and_payload Literal.python (reply Replies.two_on_two_lines)
      = @get_function_and_payload Literal.python (reply (call_text (lit "a") (lit "'x': 1")))).
Proof.
  apply (extractor_reads_line_by_line (ast := Literal.python)
           (reply Replies.two_on_two_lines)
           (reply (call_text (lit "a") (lit "'x': 1")))
           (reply (call_text (lit "b") (lit "'y': 2")))
           (call_text (lit "a") (lit "'x': 1"))
           (call_text (lit "b") (lit "'y': 2"))); reflexivity.
Defined.

Lemma extractor_ignores_text_before_first_bracket_witness :
  @get_function_and_payload Literal.python (reply Replies.finish)
  = @get_function_and_payload Literal.python
      (reply (call_text sentinel Replies.finish_body ++ lit "</TOOLCALL>")).
Proof.
  apply (extractor_ignores_text_before_first_bracket (ast := Literal.python)
           (reply Replies.finish)
           (reply (call_text sentinel Replies.finish_body ++ lit "</TOOLCALL>"))
           (lit "<TOOLCALL>")
           (call_text sentinel Replies.finish_body ++ lit "</TOOLCALL>")).
  - reflexivity.
  - reflexivity.
  - simpl. intuition discriminate.
Defined.

Lemma tool_executions_follow_extraction_witness :
  exists before response tool_call after,
    snd (Mock.run 5 None None (Mock.start [Replies.finish] Replies.no_call))
    = before ++ AddMessages (ResponseDump response) (Ok tt)
             :: RunTools [tool_call] (Ok [Mock.echo Replies.finish_call]) :: after
    /\ [Replies.finish_call] = [tool_call]
    /\ ToolCall.type tool_call = XPANDER
    /\ @get_function_and_payload Literal.python response
       = Ok (ToolCall.name tool_call, ToolCall.payload tool_call).
Proof.
  apply (tool_executions_follow_extraction (ast := Literal.python)
           (platform := Mock.platform) 5 None None
           (Mock.start [Replies.finish] Replies.no_call) _ _ _
           (triple_eta (Mock.run 5 None None
                          (Mock.start [Replies.finish] Replies.no_call)))).
  vm_compute. do 5 right. left. reflexivity.
Defined.


Lemma result_fetched_only_after_sentinel_witness :
  sentinel_observed
    (firstn 6 (snd (Mock.run 5 None None (Mock.start [Replies.finish] Replies.no_call))))
  /\ (skipn 7 (snd (Mock.run 5 None None (Mock.start [Replies.finish] Replies.no_call)))
      = []
      \/ exists res r',
           fst (Mock.retrieve
                  (snd (fst (Mock.run 5 None None
                               (Mock.start [Replies.finish] Replies.no_call)))))
           = Ok res
           /\ skipn 7 (snd (Mock.run 5 None None
                              (Mock.start [Replies.finish] Replies.no_call)))
              = [ReportExecutionMetrics
                   (completion_usage
                      (firstn 6 (snd (Mock.run 5 None None
                                        (Mock.start [Replies.finish] Replies.no_call)))))
                   metrics_model r']).
Proof.
  apply (result_fetched_only_after_sentinel (ast := Literal.python)
           (platform := Mock.platform) 5 None None
           (Mock.start [Replies.finish] Replies.no_call) _ _ _
           (triple_eta (Mock.run 5 None None
                          (Mock.start [Replies.finish] Replies.no_call)))).
  vm_compute. reflexivity.
Defined.

Lemma returned_pair_is_fetched_result_witness :
  exists before res,
    snd (Mock.run 5 None (Some Replies.thread_1)
           (Mock.start [Replies.finish] Replies.no_call))
    = before ++ [RetrieveExecutionResult (Ok res);
                 ReportExecutionMetrics (completion_usage before) metrics_model (Ok tt)]
    /\ lit "done" = ExecutionResult.result res
    /\ Replies.thread_1 = ExecutionResult.memory_thread_id res.
Proof.
  apply (returned_pair_is_fetched_result (ast := Literal.python)
           (platform := Mock.platform) 5 None (Some Replies.thread_1)
           (Mock.start [Replies.finish] Replies.no_call)
           (snd (fst (Mock.run 5 None (Some Replies.thread_1)
                        (Mock.start [Replies.finish] Replies.no_call))))).
  vm_compute. reflexivity.
Defined.

Lemma nothing_asked_after_sentinel_witness :
  forallb (fun ev => negb (asks_model_or_tools ev))
          (skipn 6 (snd (Mock.run 5 None None
                           (Mock.start [Replies.finish] Replies.no_call))))
  = true.
Proof.
  apply (nothing_asked_after_sentinel (ast := Literal.python)
           (platform := Mock.platform) 5 None None
           (Mock.start [Replies.finish] Replies.no_call) _ _ _
           (triple_eta (Mock.run 5 None None
                          (Mock.start [Replies.finish] Replies.no_call)))
           (firstn 5 (snd (Mock.run 5 None None
                             (Mock.start [Replies.finish] Replies.no_call))))
           [Replies.finish_call] [Mock.echo Replies.finish_call]).
  - vm_compute. reflexivity.
  - vm_compute. reflexivity.
Defined.

Lemma failed_call_ends_run_witness :
  skipn 3 (snd (Outage.run 5 None None (Mock.start [] Replies.no_call))) = []
  /\ fst (fst (Outage.run 5 None None (Mock.start [] Replies.no_call)))
     = Raised Outage.unavailable.
Proof.
  apply (failed_call_ends_run (ast := Literal.python)
           (platform := Outage.platform) 5 None None
           (Mock.start [] Replies.no_call) _ _ _
           (triple_eta (Outage.run 5 None None (Mock.start [] Replies.no_call)))
           (firstn 2 (snd (Outage.run 5 None None (Mock.start [] Replies.no_call))))
           (nth 2 (snd (Outage.run 5 None None (Mock.start [] Replies.no_call)))
                (AddTask [] None (Ok tt)))).
  - vm_compute. reflexivity.
  - vm_compute. reflexivity.
Defined.

Lemma exception_comes_from_last_step_witness :
  (exists before ev,
     snd (Mock.run 5 None None (Mock.start [Replies.malformed] Replies.no_call))
     = before ++ [ev]
     /\ failure ev = Some LiteralError)
  \/ (exists before response,
        snd (Mock.run 5 None None (Mock.start [Replies.malformed] Replies.no_call))
        = before ++ [AddMessages (ResponseDump response) (Ok tt)]
        /\ forall e',
             @get_function_and_payload Literal.python response = Raise e' ->
             e' = LiteralError).
Proof.
  apply (exception_comes_from_last_step (ast := Literal.python)
           (platform := Mock.platform) 5 None None
           (Mock.start [Replies.malformed] Replies.no_call)
           (snd (fst (Mock.run 5 None None
                        (Mock.start [Replies.malformed] Replies.no_call))))).
  vm_compute. reflexivity.
Defined.

(** ** The provisioning loop as a whole *)

Module LookupFacts.
Import Provisioning ProvisioningFacts Lookup.

Lemma contains_nil (s : str) : contains [] s = true.
Proof. destruct s; reflexivity. Qed.

Lemma last_cons (A : Type) (l : list A) : forall x d, last (x :: l) d = last l x.
Proof.
  induction l as [|a l IH]; intros x d; [reflexivity|].
  change (last (x :: a :: l) d) with (last (a :: l) d). now rewrite !IH.
Qed.

(** Looking a key up after [d[k] = v], for a test that reads the key only. *)
Lemma find_dict_set (V : Type) (p : str -> bool) (k : str) (v : V) (d : list (str * V)) :
  find (fun kv => p (fst kv)) (dict_set k v d)
  = match find (fun kv => p (fst kv)) d with
    | Some (k0, v0) => if str_eqb k0 k then Some (k, v) else Some (k0, v0)
    | None => if p k then Some (k, v) else None
    end.
Proof.
  induction d as [|[k1 v1] d IH]; cbn [dict_set find fst].
  - reflexivity.
  - destruct (str_eqb k1 k) eqn:E; cbn [find fst].
    + apply str_eqb_eq in E. subst k1.
      destruct (p k) eqn:Hp; [now rewrite str_eqb_refl|].
      clear IH. induction d as [|[k2 v2] d IH]; cbn [find fst]; [reflexivity|].
      destruct (p k2) eqn:Hp2; [|exact IH].
      destruct (str_eqb k2 k) eqn:E2; [|reflexivity].
      apply str_eqb_eq in E2. congruence.
    + destruct (p k1) eqn:Hp1; [now rewrite E | exact IH].
Qed.

Section Interfaces.
Variable interface_name : str.

(** Once a key of the dict matches, later interfaces only replace its value. *)
Lemma find_after_match (rs : list AgenticInterface) : forall d k0 v0,
  find (fun ni => contains interface_name (fst ni)) d = Some (k0, v0) ->
  find (fun ni => contains interface_name (fst ni))
       (fold_left (fun interfaces i => dict_set (key i) i interfaces) rs d)
  = Some (k0, last (filter (fun i => str_eqb k0 (key i)) rs) v0).
Proof.
  induction rs as [|r rs IH]; intros d k0 v0 H; cbn [fold_left filter].
  - exact H.
  - pose proof (find_dict_set _ (contains interface_name) (key r) r d) as F.
    rewrite H in F.
    destruct (str_eqb k0 (key r)) eqn:E.
    + apply str_eqb_eq in E. subst k0. rewrite (IH _ _ _ F).
      f_equal. f_equal.
      symmetry. apply last_cons.
    + exact (IH _ _ _ F).
Qed.

Lemma find_before_match (rs : list AgenticInterface) : forall d,
  find (fun ni => contains interface_name (fst ni)) d = None ->
  (forall i, In i rs -> contains interface_name (key i) = false) ->
  find (fun ni => contains interface_name (fst ni))
       (fold_left (fun interfaces i => dict_set (key i) i interfaces) rs d)
  = None.
Proof.
  induction rs as [|r rs IH]; intros d H Hrs; cbn [fold_left]; [exact H|].
  apply IH; [|intros i Hi; apply Hrs; now right].
  rewrite (find_dict_set _ (contains interface_name)), H, (Hrs r (or_introl eq_refl)).
  reflexivity.
Qed.

(** The interface the lookup settles on: the key is the first listed name
    that matches, the value the last listed interface of that name. *)
Lemma find_interface_chosen (r1 : list AgenticInterface) (i : AgenticInterface)
      (r2 : list AgenticInterface) :
  contains interface_name (key i) = true ->
  (forall j, In j r1 -> contains interface_name (key j) = false) ->
  find_interface interface_name (build_interfaces (r1 ++ i :: r2))
  = Some (last (filter (fun j => str_eqb (key i) (key j)) r2) i).
Proof.
  intros Hi Hr1. unfold find_interface, build_interfaces.
  change (fun interfaces i0 => dict_set (lower (get_default (name i0))) i0 interfaces)
    with (fun interfaces i0 => dict_set (key i0) i0 interfaces).
  rewrite fold_left_app. cbn [fold_left].
  rewrite (find_after_match r2 _ (key i) i); [reflexivity|].
  rewrite (find_dict_set _ (contains interface_name)).
  now rewrite (find_before_match r1 [] eq_refl Hr1), Hi.
Qed.

Lemma first_match (A : Type) (f : A -> bool) (l : list A) :
  (exists x, In x l /\ f x = true) ->
  exists l1 x l2, l = l1 ++ x :: l2 /\ f x = true /\ forall y, In y l1 -> f y = false.
Proof.
  induction l as [|a l IH]; intros (x & Hin & Hx); [destruct Hin|].
  destruct (f a) eqn:Ha.
  - exists [], a, l. repeat split; [exact Ha | intros y []].
  - destruct Hin as [-> | Hin]; [congruence|].
    destruct (IH (ex_intro _ x (conj Hin Hx))) as (l1 & y & l2 & -> & Hy & Hl1).
    exists (a :: l1), y, l2. repeat split; [exact Hy|].
    intros z [<- | Hz]; [exact Ha | now apply Hl1].
Qed.

End Interfaces.

Section Loop.
Variable W : Type.
Variable retrieve : AgenticInterface -> W -> result (list AgenticOperation) * W.
Variable existing_tools : list str.
Variable interfaces : list (str * AgenticInterface).

Lemma find_operation_id (internal_name : str) (operations : list AgenticOperation)
      (op : AgenticOperation) :
  find_operation internal_name operations = Some op ->
  id_to_use_on_graph op = Some internal_name.
Proof.
  unfold find_operation. intros H. apply find_some in H as [_ H].
  destruct (id_to_use_on_graph op) as [i|]; [|discriminate H].
  apply str_eqb_eq in H. now subst i.
Qed.

Lemma find_operation_first (internal_name : str) (o1 o2 : list AgenticOperation)
      (op : AgenticOperation) :
  id_to_use_on_graph op = Some internal_name ->
  (forall o, In o o1 -> id_to_use_on_graph o <> Some internal_name) ->
  find_operation internal_name (o1 ++ op :: o2) = Some op.
Proof.
  intros Hop Hno. unfold find_operation.
  induction o1 as [|o o1 IH]; cbn [app find].
  - now rewrite Hop, str_eqb_refl.
  - assert (E : match id_to_use_on_graph o with
                | Some i => str_eqb i internal_name
                | None => false
                end = false).
    { specialize (Hno o (or_introl eq_refl)).
      destruct (id_to_use_on_graph o) as [i|]; [|reflexivity].
      apply str_eqb_neq. congruence. }
    rewrite E. apply IH. intros o' Ho'. apply Hno. now right.
Qed.

Lemma process_tool_ineligible (acc : lists * W) (t : tool_config) :
  eligible existing_tools t = false ->
  process_tool retrieve existing_tools interfaces acc t = acc.
Proof.
  unfold eligible, process_tool. destruct acc as [l w].
  destruct (truthy (get_default (internal_name t))); [|reflexivity].
  destruct (existsb _ existing_tools); [reflexivity | discriminate].
Qed.

(** What one eligible tool leaves in the two lists. *)
Lemma process_tool_eligible (l : lists) (w : W) (t : tool_config) :
  eligible existing_tools t = true ->
  exists d w1,
    process_tool retrieve existing_tools interfaces (l, w) t = (merge l d, w1)
    /\ ((exists op, d = {| to_add := [op]; missing := [] |}
                    /\ id_to_use_on_graph op = Some (get_default (internal_name t)))
        \/ d = {| to_add := []; missing := [get_default (internal_name t)] |}).
Proof.
  unfold eligible, process_tool. intros H. apply andb_true_iff in H as [H1 H2].
  rewrite H1. apply negb_true_iff in H2. rewrite H2. cbn [negb].
  destruct (find_interface _ interfaces) as [intf|].
  - destruct (retrieve intf w) as [[operations|e] w1].
    + destruct (find_operation _ operations) as [op|] eqn:Hop.
      * eexists _, w1. split; [|left; exists op; split;
                                 [reflexivity | exact (find_operation_id _ _ _ Hop)]].
        unfold merge. cbn. now rewrite app_nil_r.
      * eexists _, w1. split; [|right; reflexivity].
        unfold merge. cbn. now rewrite app_nil_r.
    + eexists _, w1. split; [|right; reflexivity].
      unfold merge. cbn. now rewrite app_nil_r.
  - eexists _, w. split; [|right; reflexivity].
    unfold merge. cbn. now rewrite app_nil_r.
Qed.

Lemma process_from_app (a b : list tool_config) (acc : lists * W) :
  process_from retrieve existing_tools interfaces acc (a ++ b)
  = process_from retrieve existing_tools interfaces
      (process_from retrieve existing_tools interfaces acc a) b.
Proof. unfold process_from. apply fold_left_app. Qed.

(** The two lists hold, up to order, the internal names of the tools looked
    up. *)
Lemma process_tools_partition (tools : list tool_config) (w : W) :
  Permutation
    (map id_to_use_on_graph
         (to_add (fst (process_tools retrieve existing_tools interfaces tools w)))
     ++ map Some (missing (fst (process_tools retrieve existing_tools interfaces tools w))))
    (map (fun t => Some (get_default (internal_name t)))
         (filter (eligible existing_tools) tools)).
Proof.
  unfold process_tools. revert w.
  induction tools as [|t tools IH]; intros w.
  - apply perm_nil.
  - unfold process_from. cbn [fold_left filter].
    destruct (eligible existing_tools t) eqn:E.
    + destruct (process_tool_eligible empty w t E)
        as (d & w1 & Hd & Hcase).
      rewrite Hd. fold (process_from retrieve existing_tools interfaces (merge empty d, w1) tools).
      rewrite process_from_acc. cbn [fst map].
      specialize (IH w1). revert IH.
      destruct (process_from retrieve existing_tools interfaces (empty, w1) tools)
        as [l2 w2].
      cbn [fst]. intros IH.
      destruct Hcase as [(op & -> & Hop) | ->]; unfold merge, empty; cbn.
      * rewrite Hop. now apply perm_skip.
      * apply Permutation_sym, Permutation_cons_app, Permutation_sym. exact IH.
    + rewrite (process_tool_ineligible (empty, w) t E). apply IH.
Qed.

(** An operation of [to_add] carries the internal name of a tool looked up. *)
Lemma to_add_ids (tools : list tool_config) (w : W) (op : AgenticOperation) :
  In op (to_add (fst (process_tools retrieve existing_tools interfaces tools w))) ->
  exists t,
    In t tools /\ eligible existing_tools t = true
    /\ id_to_use_on_graph op = Some (get_default (internal_name t)).
Proof.
  intros Hin.
  assert (H : In (id_to_use_on_graph op)
                 (map (fun t => Some (get_default (internal_name t)))
                      (filter (eligible existing_tools) tools))).
  { apply (Permutation_in _ (process_tools_partition tools w)).
    apply in_app_iff. left. apply in_map. exact Hin. }
  apply in_map_iff in H as (t & Ht & Hin').
  apply filter_In in Hin' as [Hin' He]. exists t.
  split; [exact Hin' | split; [exact He | now symmetry]].
Qed.

Lemma process_tools_app (before after : list tool_config) (w : W) :
  process_tools retrieve existing_tools interfaces (before ++ after) w
  = (merge (fst (process_tools retrieve existing_tools interfaces before w))
           (fst (process_tools retrieve existing_tools interfaces after
                   (snd (process_tools retrieve existing_tools interfaces before w)))),
     snd (process_tools retrieve existing_tools interfaces after
            (snd (process_tools retrieve existing_tools interfaces before w)))).
Proof.
  unfold process_tools. rewrite process_from_app.
  destruct (process_from retrieve existing_tools interfaces (empty, w) before) as [l1 w1].
  now rewrite process_from_acc.
Qed.

(** A tool between two parts of a configuration. *)
Lemma process_tools_around (before after : list tool_config) (t : tool_config)
      (w w1 w2 w3 : W) (l1 d l2 : lists) :
  process_tools retrieve existing_tools interfaces before w = (l1, w1) ->
  process_tools retrieve existing_tools interfaces [t] w1 = (d, w2) ->
  process_tools retrieve existing_tools interfaces after w2 = (l2, w3) ->
  process_tools retrieve existing_tools interfaces (before ++ t :: after) w
  = ({| to_add := to_add l1 ++ to_add d ++ to_add l2;
        missing := missing l1 ++ missing d ++ missing l2 |}, w3).
Proof.
  intros Hb Ht Ha.
  rewrite process_tools_app, Hb. cbn [fst snd].
  change (t :: after) with ([t] ++ after).
  rewrite process_tools_app, Ht. cbn [fst snd]. rewrite Ha. reflexivity.
Qed.

Lemma eligible_guards (t : tool_config) :
  eligible existing_tools t = true ->
  truthy (get_default (internal_name t)) = true
  /\ existsb (str_eqb (get_default (internal_name t))) existing_tools = false.
Proof.
  unfold eligible. intros H. apply andb_true_iff in H as [H1 H2].
  now apply negb_true_iff in H2.
Qed.

End Loop.

End LookupFacts.

Section LookupProperties.
Import Provisioning ProvisioningFacts Lookup LookupFacts.
Variable W : Type.
Variable retrieve : AgenticInterface -> W -> result (list AgenticOperation) * W.
Variable existing_tools : list str.
Variable interfaces : list (str * AgenticInterface).

(** X12. The loop passes over a configured tool that has no internal name or
    whose internal name is attached already: the lists and the remote calls
    are those of the configuration without such tools. *)
Theorem ineligible_tools_are_passed_over (tools : list tool_config) (w : W) :
  process_tools retrieve existing_tools interfaces tools w
  = process_tools retrieve existing_tools interfaces
      (filter (eligible existing_tools) tools) w.
Proof.
  unfold process_tools, process_from. generalize (empty, w).
  induction tools as [|t tools IH]; intros acc; cbn [fold_left filter]; [reflexivity|].
  destruct (eligible existing_tools t) eqn:E; cbn [fold_left].
  - apply IH.
  - rewrite (process_tool_ineligible W retrieve existing_tools interfaces acc t E). apply IH.
Qed.

(** X13. Every tool the loop looks up ends in exactly one of the two lists,
    and nothing else does: the graph ids of [to_add] together with [missing]
    are, up to order, the internal names of the configured tools that have
    one and are not attached yet, whatever the lookups return or raise. *)
Theorem looked_up_tools_are_added_or_missing (tools : list tool_config) (w : W) :
  Permutation
    (map id_to_use_on_graph
         (to_add (fst (process_tools retrieve existing_tools interfaces tools w)))
     ++ map Some (missing (fst (process_tools retrieve existing_tools interfaces tools w))))
    (map (fun t => Some (get_default (internal_name t)))
         (filter (eligible existing_tools) tools)).
Proof. apply process_tools_partition. Qed.

(** X14. The loop carries nothing from one tool to the next but the remote
    state: the lists of a configuration are those of its first part followed
    by those of the rest, processed from where the first part left the
    remote state. *)
Theorem tools_are_processed_independently (before after : list tool_config) (w : W) :
  process_tools retrieve existing_tools interfaces (before ++ after) w
  = (merge (fst (process_tools retrieve existing_tools interfaces before w))
           (fst (process_tools retrieve existing_tools interfaces after
                   (snd (process_tools retrieve existing_tools interfaces before w)))),
     snd (process_tools retrieve existing_tools interfaces after
            (snd (process_tools retrieve existing_tools interfaces before w)))).
Proof. apply process_tools_app. Qed.

(** X15. A tool that is looked up, whose interface is found and whose
    internal name is the graph id of an operation of that interface, adds to
    [to_add] the first such operation in the order the platform lists them,
    and nothing to [missing]; the tools before and after it are processed as
    they would be without it. *)
Theorem matched_tool_is_added
  (before after : list tool_config) (t : tool_config) (w w1 w2 w3 : W) (l1 l2 : lists)
  (intf : AgenticInterface) (o1 o2 : list AgenticOperation) (op : AgenticOperation) :
  eligible existing_tools t = true ->
  process_tools retrieve existing_tools interfaces before w = (l1, w1) ->
  find_interface (lower (get_default (interface t))) interfaces = Some intf ->
  retrieve intf w1 = (Ok (o1 ++ op :: o2), w2) ->
  id_to_use_on_graph op = Some (get_default (internal_name t)) ->
  (forall o, In o o1 -> id_to_use_on_graph o <> Some (get_default (internal_name t))) ->
  process_tools retrieve existing_tools interfaces after w2 = (l2, w3) ->
  process_tools retrieve existing_tools interfaces (before ++ t :: after) w
  = ({| to_add := to_add l1 ++ op :: to_add l2;
        missing := missing l1 ++ missing l2 |}, w3).
Proof.
  intros He Hb Hi Hr Hop Hno Ha.
  apply (process_tools_around W retrieve existing_tools interfaces before after t
           w w1 w2 w3 l1 {| to_add := [op]; missing := [] |} l2 Hb); [|exact Ha].
  destruct (eligible_guards existing_tools t He) as [H1 H2].
  unfold process_tools, process_from, process_tool. cbn [fold_left empty].
  rewrite H1, H2, Hi, Hr, (find_operation_first _ o1 o2 op Hop Hno). reflexivity.
Qed.

(** X16. An exception raised while the operations of the interface found are
    listed is caught: the internal name of the tool goes to [missing], and
    the loop goes on with the tools after it. *)
Theorem lookup_error_is_reported_missing
  (before after : list tool_config) (t : tool_config) (w w1 w2 w3 : W) (l1 l2 : lists)
  (intf : AgenticInterface) (e : exn) :
  eligible existing_tools t = true ->
  process_tools retrieve existing_tools interfaces before w = (l1, w1) ->
  find_interface (lower (get_default (interface t))) interfaces = Some intf ->
  retrieve intf w1 = (Raise e, w2) ->
  process_tools retrieve existing_tools interfaces after w2 = (l2, w3) ->
  process_tools retrieve existing_tools interfaces (before ++ t :: after) w
  = ({| to_add := to_add l1 ++ to_add l2;
        missing := missing l1 ++ get_default (internal_name t) :: missing l2 |}, w3).
Proof.
  intros He Hb Hi Hr Ha.
  apply (process_tools_around W retrieve existing_tools interfaces before after t
           w w1 w2 w3 l1 {| to_add := []; missing := [get_default (internal_name t)] |}
           l2 Hb); [|exact Ha].
  destruct (eligible_guards existing_tools t He) as [H1 H2].
  unfold process_tools, process_from, process_tool. cbn [fold_left empty].
  rewrite H1, H2, Hi, Hr. reflexivity.
Qed.

End LookupProperties.

Section InterfaceProperties.
Import Provisioning ProvisioningFacts Lookup LookupFacts.

(** X17. Which interface a configured name selects: the names are tried in
    the order the platform lists them, without regard to case, and the first
    one that contains the configured name decides; of the interfaces listed
    under that name, the last one is taken. *)
Theorem first_matching_name_last_interface
  (interface_name : str) (r1 : list AgenticInterface) (i : AgenticInterface)
  (r2 : list AgenticInterface) :
  contains interface_name (key i) = true ->
  (forall j, In j r1 -> contains interface_name (key j) = false) ->
  find_interface interface_name (build_interfaces (r1 ++ i :: r2))
  = Some (last (filter (fun j => str_eqb (key i) (key j)) r2) i).
Proof. apply find_interface_chosen. Qed.

(** X18. The lookup finds no interface exactly when no listed interface has
    a name that contains the configured one; an interface it finds is a
    listed one whose name does. *)
Theorem interface_found_iff_some_name_matches
  (interface_name : str) (remote : list AgenticInterface) :
  (find_interface interface_name (build_interfaces remote) = None
   <-> forall i, In i remote -> contains interface_name (key i) = false)
  /\ (forall intf,
        find_interface interface_name (build_interfaces remote) = Some intf ->
        In intf remote /\ contains interface_name (key intf) = true).
Proof.
  split; [split|].
  - intros Hnone i Hin.
    destruct (contains interface_name (key i)) eqn:E; [|reflexivity].
    destruct (first_match _ (fun j => contains interface_name (key j)) remote
                (ex_intro _ i (conj Hin E))) as (r1 & j & r2 & -> & Hj & Hr1).
    rewrite (find_interface_chosen interface_name r1 j r2 Hj Hr1) in Hnone.
    discriminate Hnone.
  - apply no_interface_find.
  - intros intf H. unfold find_interface in H.
    destruct (find _ (build_interfaces remote)) as [[k v]|] eqn:F; [|discriminate H].
    injection H as <-. apply find_some in F as [Hin Hc].
    apply build_interfaces_in in Hin as [Hin ->]. now split.
Qed.

(** X19. A tool configured without an interface, or with an empty one,
    matches every name: it is looked up in the interface listed first, or in
    the last one listed under the same name. *)
Theorem tool_without_interface_takes_first_listed
  (t : tool_config) (i : AgenticInterface) (rest : list AgenticInterface) :
  get_default (interface t) = [] ->
  find_interface (lower (get_default (interface t))) (build_interfaces (i :: rest))
  = Some (last (filter (fun j => str_eqb (key i) (key j)) rest) i).
Proof.
  intros ->. apply (find_interface_chosen (lower []) [] i rest).
  - apply contains_nil.
  - intros j [].
Qed.

End InterfaceProperties.



(** On the platform that opens a new thread for every task, the run is the
    same whatever id is given, but for the id recorded with the task. *)
Example thread_id_is_read_for_the_task_only :
  fst (Fresh.run 2 None None (Mock.start [Replies.finish] Replies.no_call))
  = fst (Fresh.run 2 None (Some Replies.thread_1)
           (Mock.start [Replies.finish] Replies.no_call))
  /\ tl (snd (Fresh.run 2 None None (Mock.start [Replies.finish] Replies.no_call)))
     = tl (snd (Fresh.run 2 None (Some Replies.thread_1)
                  (Mock.start [Replies.finish] Replies.no_call))).
Proof.
  apply (run_reads_thread_id_once (ast := Literal.python) (platform := Fresh.platform)).
  reflexivity.
Qed.

Lemma completions_are_reported_then_recorded_witness :
  model_name = model_name
  /\ exists before r after,
       snd (Mock.run 5 None None (Mock.start [Replies.malformed] Replies.no_call))
       = before ++ ChatCompletion model_name
                     [ {| role := lit "user"; content := Some default_task |};
                       {| role := lit "assistant";
                          content := Some (lit "the time now is : 2025-04-23 08:00:00") |} ]
                     (Ok (reply Replies.malformed))
                   :: ReportLLMUsage (reply Replies.malformed) r :: after
       /\ (r = Ok tt ->
           exists r' after',
             after = AddMessages (ResponseDump (reply Replies.malformed)) r' :: after').
Proof.
  apply (completions_are_reported_then_recorded (ast := Literal.python)
           (platform := Mock.platform) 5 None None
           (Mock.start [Replies.malformed] Replies.no_call) _ _ _
           (triple_eta (Mock.run 5 None None
                          (Mock.start [Replies.malformed] Replies.no_call)))).
  vm_compute. do 2 right. left. reflexivity.
Defined.

Lemma matched_tool_is_added_witness :
  Provisioning.process_tools Organization.retrieve [sentinel]
    (Provisioning.build_interfaces Organization.remote)
    ([Organization.bot_tool] ++ Organization.email_tool :: []) tt
  = ({| Provisioning.to_add := [Organization.create_bot] ++ Organization.send_email :: [];
        Provisioning.missing := [] ++ [] |}, tt).
Proof.
  apply (matched_tool_is_added unit Organization.retrieve [sentinel]
           (Provisioning.build_interfaces Organization.remote)
           [Organization.bot_tool] [] Organization.email_tool tt tt tt tt
           {| Provisioning.to_add := [Organization.create_bot]; Provisioning.missing := [] |}
           Provisioning.empty
           Organization.tools_interface
           [Organization.create_bot] [] Organization.send_email).
  - vm_compute. reflexivity.
  - vm_compute. reflexivity.
  - vm_compute. reflexivity.
  - vm_compute. reflexivity.
  - reflexivity.
  - intros o [<- | []]. discriminate.
  - reflexivity.
Defined.

Lemma lookup_error_is_reported_missing_witness :
  Provisioning.process_tools Listing.retrieve [sentinel]
    (Provisioning.build_interfaces Organization.remote)
    ([Organization.bot_tool] ++ Listing.calendar_tool :: [Organization.email_tool]) tt
  = ({| Provisioning.to_add := [Organization.create_bot] ++ [Organization.send_email];
        Provisioning.missing :=
          [] ++ lit "CalendarEventManagementGetCalendarEventsById" :: [] |}, tt).
Proof.
  apply (lookup_error_is_reported_missing unit Listing.retrieve [sentinel]
           (Provisioning.build_interfaces Organization.remote)
           [Organization.bot_tool] [Organization.email_tool] Listing.calendar_tool
           tt tt tt tt
           {| Provisioning.to_add := [Organization.create_bot]; Provisioning.missing := [] |}
           {| Provisioning.to_add := [Organization.send_email]; Provisioning.missing := [] |}
           Organization.calendar_interface Listing.timeout).
  - vm_compute. reflexivity.
  - vm_compute. reflexivity.
  - vm_compute. reflexivity.
  - vm_compute. reflexivity.
  - vm_compute. reflexivity.
Defined.

Lemma first_matching_name_last_interface_witness :
  Provisioning.find_interface (lit "xpanderai tools")
    (Provisioning.build_interfaces
       ([Organization.calendar_interface]
          ++ Organization.tools_interface :: [Listing.tools_interface_again]))
  = Some (last (filter (fun j => str_eqb (Lookup.key Organization.tools_interface)
                                         (Lookup.key j))
                       [Listing.tools_interface_again])
               Organization.tools_interface).
Proof.
  apply (first_matching_name_last_interface (lit "xpanderai tools")
           [Organization.calendar_interface] Organization.tools_interface
           [Listing.tools_interface_again]).
  - vm_compute. reflexivity.
  - intros j [<- | []]. vm_compute. reflexivity.
Defined.

Lemma tool_without_interface_takes_first_listed_witness :
  Provisioning.find_interface
    (lower (Provisioning.get_default (Provisioning.interface Listing.bot_tool_anywhere)))
    (Provisioning.build_interfaces
       (Organization.calendar_interface
          :: [Organization.tools_interface; Listing.tools_interface_again]))
  = Some (last (filter (fun j => str_eqb (Lookup.key Organization.calendar_interface)
                                         (Lookup.key j))
                       [Organization.tools_interface; Listing.tools_interface_again])
               Organization.calendar_interface).
Proof.
  apply (tool_without_interface_takes_first_listed Listing.bot_tool_anywhere
           Organization.calendar_interface
           [Organization.tools_interface; Listing.tools_interface_again]).
  reflexivity.
Defined.

(** The duplicate name and the missing interface key, evaluated: the later
    interface of the same name is the one selected, and the tool without an
    interface is looked up where it cannot be found. *)
Example selection_on_the_listing :
  Provisioning.find_interface (lit "xpanderai tools")
    (Provisioning.build_interfaces Listing.remote)
  = Some Listing.tools_interface_again
  /\ Provisioning.process_tools Organization.retrieve [sentinel]
       (Provisioning.build_interfaces Listing.remote) [Listing.bot_tool_anywhere] tt
     = ({| Provisioning.to_add := [];
           Provisioning.missing := [lit "XpanderMeetingManagementCreateRecordingBot"] |}, tt).
Proof. vm_compute. split; reflexivity. Qed.

(** ** Attaching the operations *)

Module AttachFacts.
Import Provisioning Attach.

Section Cell.
Context {W : Type} {agent : Agent W}.

(** The nodes are added in the order of the list, up to the first operation
    without a graph id or the first call that raises. *)
Lemma add_nodes_shape (ops : list AgenticOperation) : forall w r w' cs,
  add_nodes ops w = (r, w', cs) ->
  exists done items,
    map node done = map Some items
    /\ ((r = None /\ ops = done
         /\ cs = map (fun item => AddNode item (Ok tt)) items)
        \/ (exists op rest,
              r = Some AttributeError /\ ops = done ++ op :: rest
              /\ id_to_use_on_graph op = None
              /\ cs = map (fun item => AddNode item (Ok tt)) items)
        \/ (exists op rest item e,
              r = Some (Remote e) /\ ops = done ++ op :: rest
              /\ node op = Some item
              /\ cs = map (fun item => AddNode item (Ok tt)) items
                      ++ [AddNode item (Raise e)])).
Proof.
  induction ops as [|op ops IH]; intros w r w' cs H; cbn [add_nodes] in H.
  - injection H as <- <- <-. exists [], []. split; [reflexivity|]. now left.
  - destruct (node op) as [item|] eqn:Hn.
    + destruct (agent_graph_add_node item w) as [[u|e] w1].
      * destruct (add_nodes ops w1) as [[r1 w2] cs1] eqn:Hrec.
        injection H as <- <- <-.
        destruct (IH _ _ _ _ Hrec) as (done & items & Hmap & Hcase).
        exists (op :: done), (item :: items).
        split; [cbn [map]; now rewrite Hn, Hmap|].
        destruct Hcase as [(-> & -> & ->)
                          | [(o & rest & -> & -> & Ho & ->)
                            | (o & rest & it & e & -> & -> & Ho & ->)]].
        -- now left.
        -- right. left. now exists o, rest.
        -- right. right. now exists o, rest, it, e.
      * injection H as <- <- <-. exists [], []. split; [reflexivity|].
        right. right. now exists op, ops, item, e.
    + injection H as <- <- <-. exists [], []. split; [reflexivity|].
      right. left. exists op, ops. repeat split.
      unfold node in Hn. now destruct (id_to_use_on_graph op).
Qed.

Lemma list_eq_dec_nil (A : Type) (l : list A) : {l = []} + {l <> []}.
Proof. destruct l; [now left | right; discriminate]. Qed.

Lemma add_tools_nonempty (to_add : list AgenticOperation) (w : W) :
  to_add <> [] ->
  add_tools to_add w
  = match agent_attach_operations to_add w with
    | (Raise e, w1) =>
        (w1, [AttachOperations to_add (Raise e)],
         [Adding (List.length to_add); ErrorAdding (Remote e)])
    | (Ok _, w1) =>
        match add_nodes to_add w1 with
        | (Some e, w2, cs) =>
            (w2, AttachOperations to_add (Ok tt) :: cs,
             [Adding (List.length to_add); ErrorAdding e])
        | (None, w2, cs) =>
            match agent_sync w2 with
            | (Ok _, w3) =>
                (w3, AttachOperations to_add (Ok tt) :: cs ++ [Sync (Ok tt)],
                 [Adding (List.length to_add); Added (List.length to_add)])
            | (Raise e, w3) =>
                (w3, AttachOperations to_add (Ok tt) :: cs ++ [Sync (Raise e)],
                 [Adding (List.length to_add); ErrorAdding (Remote e)])
            end
        end
    end.
Proof. destruct to_add; [congruence | reflexivity]. Qed.

Lemma raised_ok_nodes (items : list GraphItem) (c : call) :
  In c (map (fun item => AddNode item (Ok tt)) items) -> raised c = None.
Proof. intros H. apply in_map_iff in H as (item & <- & _). reflexivity. Qed.

Lemma node_item (op : AgenticOperation) (item : GraphItem) :
  node op = Some item ->
  id_to_use_on_graph op = Some (item_id item) /\ is_local_tool item = false.
Proof.
  unfold node. destruct (id_to_use_on_graph op) as [i|]; [|discriminate].
  intros [= <-]. now split.
Qed.

Lemma nodes_of (done : list AgenticOperation) : forall items item,
  map node done = map Some items -> In item items ->
  exists op, In op done /\ node op = Some item.
Proof.
  induction done as [|op done IH]; intros [|it items] item H Hin;
    try discriminate H; [destruct Hin|].
  cbn [map] in H. injection H as Hop H.
  destruct Hin as [<- | Hin].
  - exists op. split; [now left | exact Hop].
  - destruct (IH _ _ H Hin) as (o & Ho & Hn). exists o. split; [now right | exact Hn].
Qed.

(** Every node call of the loop is for an operation of the list, and the
    loop stops on a missing attribute only at an operation without graph id. *)
Lemma add_nodes_calls (ops : list AgenticOperation) (w w' : W) (r : option caught)
      (cs : list call) :
  add_nodes ops w = (r, w', cs) ->
  (r = Some AttributeError -> exists op, In op ops /\ id_to_use_on_graph op = None)
  /\ (forall c, In c cs ->
                exists item res op,
                  c = AddNode item res /\ In op ops /\ node op = Some item).
Proof.
  intros H. destruct (add_nodes_shape _ _ _ _ _ H) as (done & items & Hmap & Hcase).
  assert (Hok : forall ops', (forall op, In op done -> In op ops') ->
                  forall c, In c (map (fun item => AddNode item (Ok tt)) items) ->
                            exists item res op,
                              c = AddNode item res /\ In op ops' /\ node op = Some item).
  { intros ops' Hsub c Hc. apply in_map_iff in Hc as (item & <- & Hin).
    destruct (nodes_of done items item Hmap Hin) as (op & Hop & Hn).
    exists item, (Ok tt), op. repeat split; [now apply Hsub | exact Hn]. }
  destruct Hcase as [(-> & -> & ->)
                    | [(o & rest & -> & -> & Ho & ->)
                      | (o & rest & it & e & -> & -> & Ho & ->)]].
  - split; [discriminate | now apply Hok].
  - split.
    + intros _. exists o. split; [apply in_elt | exact Ho].
    + apply Hok. intros op Hop. apply in_app_iff. now left.
  - split; [discriminate|].
    intros c Hc. apply in_app_iff in Hc as [Hc | [<- | []]].
    + revert c Hc. apply Hok. intros op Hop. apply in_app_iff. now left.
    + exists it, (Raise e), o. repeat split; [apply in_elt | exact Ho].
Qed.

Lemma add_tools_calls (to_add : list AgenticOperation) (w w' : W)
      (cs : list call) (out : list printed) :
  add_tools to_add w = (w', cs, out) ->
  (In (ErrorAdding AttributeError) out ->
   exists op, In op to_add /\ id_to_use_on_graph op = None)
  /\ (forall item res, In (AddNode item res) cs ->
                       exists op, In op to_add /\ node op = Some item).
Proof.
  intros H.
  destruct (list_eq_dec_nil _ to_add) as [-> | Hne].
  { injection H as <- <- <-. split; [|intros item res []].
    intros [Hin | []]. discriminate Hin. }
  rewrite (add_tools_nonempty to_add w Hne) in H.
  destruct (agent_attach_operations to_add w) as [[u|e] w1].
  - destruct (add_nodes to_add w1) as [[r w2] cs1] eqn:Hn.
    destruct (add_nodes_calls _ _ _ _ _ Hn) as [Hattr Hnodes].
    assert (Hcalls : forall tail,
               (forall item res, ~ In (AddNode item res) tail) ->
               forall item res,
                 In (AddNode item res) (AttachOperations to_add (Ok tt) :: cs1 ++ tail) ->
                 exists op, In op to_add /\ node op = Some item).
    { intros tail Htail item res [Hc | Hc]; [discriminate Hc|].
      apply in_app_iff in Hc as [Hc | Hc]; [|now apply Htail in Hc].
      destruct (Hnodes _ Hc) as (it & r' & op & [= <- _] & Hop & Hnode).
      now exists op. }
    destruct r as [err|].
    + injection H as <- <- <-. split.
      * intros [Hin | [Hin | []]]; [discriminate Hin|]. injection Hin as ->.
        now apply Hattr.
      * intros item res Hc. apply (Hcalls [] ltac:(intros ? ? []) item res).
        now rewrite app_nil_r.
    + destruct (agent_sync w2) as [[u2|e] w3]; injection H as <- <- <-.
      * split; [simpl; intuition discriminate|].
        apply Hcalls. intros item res [Hc | []]. discriminate Hc.
      * split; [simpl; intuition discriminate|].
        apply Hcalls. intros item res [Hc | []]. discriminate Hc.
  - injection H as <- <- <-. split; [simpl; intuition discriminate|].
    intros item res [Hc | []]. discriminate Hc.
Qed.

End Cell.

End AttachFacts.

Section AttachProperties.
Import Provisioning Attach AttachFacts Lookup LookupFacts.
Context {W : Type} {agent : Agent W}.

(** X20. The cell prints its success line only after the operations were
    attached in one call, one node per operation was added to the graph in
    the order of [to_add], and the agent was synced, every call having
    returned. *)
Theorem success_means_attached_added_and_synced
  (to_add : list AgenticOperation) (w w' : W) (cs : list call) (out : list printed)
  (n : nat) :
  add_tools to_add w = (w', cs, out) ->
  In (Added n) out ->
  exists items,
    map node to_add = map Some items
    /\ cs = AttachOperations to_add (Ok tt)
            :: map (fun item => AddNode item (Ok tt)) items ++ [Sync (Ok tt)]
    /\ n = List.length to_add
    /\ to_add <> [].
Proof.
  intros H Hin.
  destruct (list_eq_dec_nil _ to_add) as [-> | Hne].
  { injection H as <- <- <-. destruct Hin as [Hin | []]. discriminate Hin. }
  rewrite (add_tools_nonempty to_add w Hne) in H.
  destruct (agent_attach_operations to_add w) as [[u|e] w1].
  - destruct (add_nodes to_add w1) as [[[err|] w2] cs1] eqn:Hn.
    + injection H as <- <- <-. simpl in Hin. intuition discriminate.
    + destruct (agent_sync w2) as [[u2|e] w3]; injection H as <- <- <-.
      * destruct Hin as [Hin | [Hin | []]]; [discriminate Hin|]. injection Hin as <-.
        destruct (add_nodes_shape _ _ _ _ _ Hn) as (done & items & Hmap & Hcase).
        destruct Hcase as [(_ & -> & ->)
                          | [(o & rest & E & _) | (o & rest & it & e & E & _)]];
          try discriminate E.
        exists items. now repeat split.
      * simpl in Hin. intuition discriminate.
  - injection H as <- <- <-. simpl in Hin. intuition discriminate.
Qed.

(** X21. An error the cell reports is the exception of the last call it
    made, every call before it having returned, or the missing graph id of
    an operation, met after the operations were attached and the nodes of
    the operations before it were added. Nothing is undone and nothing is
    called afterwards. *)
Theorem reported_error_is_first_failure
  (to_add : list AgenticOperation) (w w' : W) (cs : list call) (out : list printed)
  (err : caught) :
  add_tools to_add w = (w', cs, out) ->
  In (ErrorAdding err) out ->
  (exists e before c,
     err = Remote e /\ cs = before ++ [c] /\ raised c = Some e
     /\ forall c', In c' before -> raised c' = None)
  \/ (exists done op rest items,
        err = AttributeError
        /\ to_add = done ++ op :: rest
        /\ id_to_use_on_graph op = None
        /\ map node done = map Some items
        /\ cs = AttachOperations to_add (Ok tt)
                :: map (fun item => AddNode item (Ok tt)) items).
Proof.
  intros H Hin.
  destruct (list_eq_dec_nil _ to_add) as [-> | Hne].
  { injection H as <- <- <-. destruct Hin as [Hin | []]. discriminate Hin. }
  rewrite (add_tools_nonempty to_add w Hne) in H.
  destruct (agent_attach_operations to_add w) as [[u|e] w1].
  - destruct (add_nodes to_add w1) as [[[err'|] w2] cs1] eqn:Hn.
    + injection H as <- <- <-.
      destruct Hin as [Hin | [Hin | []]]; [discriminate Hin|]. injection Hin as ->.
      destruct (add_nodes_shape _ _ _ _ _ Hn) as (done & items & Hmap & Hcase).
      destruct Hcase as [(E & _)
                        | [(o & rest & E & -> & Ho & ->)
                          | (o & rest & it & e & E & -> & Ho & ->)]];
        try discriminate E; injection E as ->.
      * right. now exists done, o, rest, items.
      * left. exists e, (AttachOperations (done ++ o :: rest) (Ok tt)
                           :: map (fun item => AddNode item (Ok tt)) items),
                 (AddNode it (Raise e)).
        repeat split.
        intros c' [<- | Hc]; [reflexivity | now apply raised_ok_nodes in Hc].
    + destruct (agent_sync w2) as [[u2|e] w3]; injection H as <- <- <-.
      * simpl in Hin. intuition discriminate.
      * destruct Hin as [Hin | [Hin | []]]; [discriminate Hin|]. injection Hin as <-.
        destruct (add_nodes_shape _ _ _ _ _ Hn) as (done & items & Hmap & Hcase).
        destruct Hcase as [(_ & -> & ->)
                          | [(o & rest & E & _) | (o & rest & it & e' & E & _)]];
          try discriminate E.
        left. exists e, (AttachOperations done (Ok tt)
                           :: map (fun item => AddNode item (Ok tt)) items),
                 (Sync (Raise e)).
        repeat split.
        intros c' [<- | Hc]; [reflexivity | now apply raised_ok_nodes in Hc].
  - injection H as <- <- <-.
    destruct Hin as [Hin | [Hin | []]]; [discriminate Hin|]. injection Hin as <-.
    left. exists e, [], (AttachOperations to_add (Raise e)). repeat split. intros c' [].
Qed.

(** X22. The two cells together: on the operations the loop selected, the
    attaching cell never stops on a missing graph id, and every node it adds
    to the graph, or tries to add, is a remote tool whose id is the internal
    name of a configured tool that was not attached yet. *)
Theorem selected_operations_give_configured_nodes
  (W0 : Type) (retrieve : AgenticInterface -> W0 -> result (list AgenticOperation) * W0)
  (existing_tools : list str) (interfaces : list (str * AgenticInterface))
  (tools : list tool_config) (w0 : W0)
  (w w' : W) (cs : list call) (out : list printed) :
  add_tools (to_add (fst (process_tools retrieve existing_tools interfaces tools w0))) w
  = (w', cs, out) ->
  ~ In (ErrorAdding AttributeError) out
  /\ forall item res,
       In (AddNode item res) cs ->
       exists t,
         In t tools /\ eligible existing_tools t = true
         /\ item_id item = get_default (internal_name t)
         /\ is_local_tool item = false.
Proof.
  intros H. destruct (add_tools_calls _ _ _ _ _ H) as [Hattr Hnodes]. split.
  - intros Hin. destruct (Hattr Hin) as (op & Hop & Hnone).
    destruct (to_add_ids W0 retrieve existing_tools interfaces tools w0 op Hop)
      as (t & _ & _ & Hid).
    congruence.
  - intros item res Hc. destruct (Hnodes item res Hc) as (op & Hop & Hnode).
    destruct (to_add_ids W0 retrieve existing_tools interfaces tools w0 op Hop)
      as (t & Ht & He & Hid).
    apply node_item in Hnode as [Hitem Hlocal].
    exists t. repeat split; [exact Ht | exact He | congruence | exact Hlocal].
Qed.

End AttachProperties.

Lemma success_means_attached_added_and_synced_witness :
  exists items,
    map Attach.node [Organization.create_bot; Organization.send_email] = map Some items
    /\ snd (fst (Attach.add_tools (agent := Attach.strict [])
                   [Organization.create_bot; Organization.send_email] []))
       = Attach.AttachOperations [Organization.create_bot; Organization.send_email] (Ok tt)
         :: map (fun item => Attach.AddNode item (Ok tt)) items
            ++ [Attach.Sync (Ok tt)]
    /\ 2 = List.length [Organization.create_bot; Organization.send_email]
    /\ [Organization.create_bot; Organization.send_email] <> [].
Proof.
  apply (success_means_attached_added_and_synced (agent := Attach.strict [])
           [Organization.create_bot; Organization.send_email] []
           (fst (fst (Attach.add_tools (agent := Attach.strict [])
                        [Organization.create_bot; Organization.send_email] [])))
           _
           (snd (Attach.add_tools (agent := Attach.strict [])
                   [Organization.create_bot; Organization.send_email] []))).
  - apply triple_eta.
  - vm_compute. right. left. reflexivity.
Defined.

Lemma reported_error_is_first_failure_witness :
  (exists e before c,
     Attach.Remote (RemoteError (lit "rejected")) = Attach.Remote e
     /\ snd (fst (Attach.add_tools
                    (agent := Attach.strict
                                [lit "XpanderMessagingServiceSendEmailWithContent"])
                    [Organization.create_bot; Organization.send_email] []))
        = before ++ [c]
     /\ Attach.raised c = Some e
     /\ forall c', In c' before -> Attach.raised c' = None)
  \/ (exists done op rest items,
        Attach.Remote (RemoteError (lit "rejected")) = Attach.AttributeError
        /\ [Organization.create_bot; Organization.send_email] = done ++ op :: rest
        /\ Provisioning.id_to_use_on_graph op = None
        /\ map Attach.node done = map Some items
        /\ snd (fst (Attach.add_tools
                       (agent := Attach.strict
                                   [lit "XpanderMessagingServiceSendEmailWithContent"])
                       [Organization.create_bot; Organization.send_email] []))
           = Attach.AttachOperations [Organization.create_bot; Organization.send_email]
               (Ok tt)
             :: map (fun item => Attach.AddNode item (Ok tt)) items).
Proof.
  apply (reported_error_is_first_failure
           (agent := Attach.strict [lit "XpanderMessagingServiceSendEmailWithContent"])
           [Organization.create_bot; Organization.send_email] []
           (fst (fst (Attach.add_tools
                        (agent := Attach.strict
                                    [lit "XpanderMessagingServiceSendEmailWithContent"])
                        [Organization.create_bot; Organization.send_email] [])))
           _
           (snd (Attach.add_tools
                   (agent := Attach.strict
                               [lit "XpanderMessagingServiceSendEmailWithContent"])
                   [Organization.create_bot; Organization.send_email] []))).
  - apply triple_eta.
  - vm_compute. right. left. reflexivity.
Defined.

Lemma selected_operations_give_configured_nodes_witness :
  ~ In (Attach.ErrorAdding Attach.AttributeError)
       (snd (Attach.add_tools (agent := Attach.strict [])
               (Provisioning.to_add
                  (fst (Provisioning.process_tools Organization.retrieve [sentinel]
                          (Provisioning.build_interfaces Organization.remote)
                          [Organization.bot_tool; Organization.email_tool] tt)))
               []))
  /\ forall item res,
       In (Attach.AddNode item res)
          (snd (fst (Attach.add_tools (agent := Attach.strict [])
                       (Provisioning.to_add
                          (fst (Provisioning.process_tools Organization.retrieve [sentinel]
                                  (Provisioning.build_interfaces Organization.remote)
                                  [Organization.bot_tool; Organization.email_tool] tt)))
                       []))) ->
       exists t,
         In t [Organization.bot_tool; Organization.email_tool]
         /\ Lookup.eligible [sentinel] t = true
         /\ Attach.item_id item
            = Provisioning.get_default (Provisioning.internal_name t)
         /\ Attach.is_local_tool item = false.
Proof.
  eapply (selected_operations_give_configured_nodes (agent := Attach.strict [])
           unit Organization.retrieve [sentinel]
           (Provisioning.build_interfaces Organization.remote)
           [Organization.bot_tool; Organization.email_tool] tt []).
  apply triple_eta.
Defined.

(** ** The [.env] file *)

Module DotEnvFacts.
Import DotEnv.

Lemma splitlines_char (c : ascii) (t : str) :
  is_line_boundary c = false ->
  splitlines (c :: t)
  = match splitlines t with
    | [] => [[c]]
    | l :: ls => (c :: l) :: ls
    end.
Proof. intros H. cbn [splitlines]. now rewrite H. Qed.

Lemma splitlines_newline (t : str) : splitlines (newline :: t) = [] :: splitlines t.
Proof. reflexivity. Qed.

(** A line followed by a newline is the first line. *)
Lemma splitlines_line (l rest : str) :
  one_line l = true -> splitlines (l ++ newline :: rest) = l :: splitlines rest.
Proof.
  induction l as [|c l IH]; intros H; [reflexivity|].
  cbn [one_line forallb] in H. apply andb_true_iff in H as [Hc Hl].
  apply negb_true_iff in Hc. cbn [app]. rewrite (splitlines_char c _ Hc).
  now rewrite (IH Hl).
Qed.

Lemma splitlines_single (l : str) :
  one_line l = true -> l <> [] -> splitlines l = [l].
Proof.
  induction l as [|c l IH]; intros H Hne; [congruence|].
  cbn [one_line forallb] in H. apply andb_true_iff in H as [Hc Hl].
  apply negb_true_iff in Hc. rewrite (splitlines_char c _ Hc).
  destruct l as [|c2 l]; [reflexivity|].
  rewrite (IH Hl); [reflexivity | discriminate].
Qed.

Lemma join_cons (sep l : str) (rest : list str) :
  rest <> [] -> join sep (l :: rest) = l ++ sep ++ join sep rest.
Proof. destruct rest; [congruence | reflexivity]. Qed.

(** Lines written one per line are read back as they were written. *)
Lemma splitlines_join (lines : list str) :
  lines <> [] ->
  forallb one_line lines = true ->
  splitlines (join [newline] lines ++ [newline]) = lines.
Proof.
  induction lines as [|l lines IH]; intros Hne H; [congruence|].
  cbn [forallb] in H. apply andb_true_iff in H as [Hl H].
  destruct lines as [|l2 lines].
  - cbn [join]. now rewrite (splitlines_line l [] Hl).
  - rewrite join_cons by discriminate. rewrite <- !app_assoc. cbn [app].
    rewrite (splitlines_line l _ Hl). f_equal. apply IH; [discriminate | exact H].
Qed.

Lemma join_in (sep l : str) (lines : list str) :
  In l lines -> exists a b, join sep lines = a ++ l ++ b.
Proof.
  induction lines as [|x lines IH]; intros Hin; [destruct Hin|].
  destruct lines as [|y lines].
  - destruct Hin as [-> | []]. exists [], []. cbn [join app]. now rewrite app_nil_r.
  - rewrite join_cons by discriminate. destruct Hin as [-> | Hin].
    + exists [], (sep ++ join sep (y :: lines)). reflexivity.
    + destruct (IH Hin) as (a & b & ->). exists (x ++ sep ++ a), b.
      now rewrite <- !app_assoc.
Qed.

(** A text that has a line starting with the prefix mentions the key. *)
Lemma assigned_key_is_mentioned (lines : list str) (l tail : str) :
  In l lines -> startswith prefix l = true ->
  contains key (join [newline] lines ++ tail) = true.
Proof.
  intros Hin Hl. apply contains_spec.
  apply startswith_spec in Hl as [t ->].
  destruct (join_in [newline] _ _ Hin) as (a & b & ->).
  exists a, ("="%char :: t ++ b ++ tail).
  change prefix with (key ++ ["="%char]). now rewrite <- !app_assoc.
Qed.

(** After any text and a newline, a non-empty line is the last line. *)
Lemma splitlines_last (a : str) :
  one_line a = true -> a <> [] ->
  forall n c, List.length c <= n ->
    exists l ls, splitlines (c ++ newline :: a) = l :: ls ++ [a].
Proof.
  intros Ha Hne. induction n as [|n IH]; intros c Hlen.
  - destruct c; [|simpl in Hlen; lia].
    exists [], []. cbn [app]. now rewrite splitlines_newline, (splitlines_single a Ha Hne).
  - destruct c as [|x c].
    { exists [], []. cbn [app].
      now rewrite splitlines_newline, (splitlines_single a Ha Hne). }
    cbn [List.length] in Hlen. apply le_S_n in Hlen.
    destruct (is_line_boundary x) eqn:Hx.
    + cbn [app splitlines]. rewrite Hx.
      destruct (Ascii.eqb x carriage_return).
      * destruct c as [|c2 c]; cbn [app].
        -- rewrite Ascii.eqb_refl.
           exists [], []. now rewrite (splitlines_single a Ha Hne).
        -- destruct (Ascii.eqb c2 newline).
           ++ destruct (IH c ltac:(simpl in Hlen; lia)) as (l & ls & ->).
              now exists [], (l :: ls).
           ++ destruct (IH (c2 :: c) Hlen) as (l & ls & E).
              cbn [app] in E. rewrite E. now exists [], (l :: ls).
      * destruct (IH c Hlen) as (l & ls & ->). now exists [], (l :: ls).
    + cbn [app]. rewrite (splitlines_char x _ Hx).
      destruct (IH c Hlen) as (l & ls & ->). now exists (x :: l), ls.
Qed.

Lemma one_line_assignment (agent_id : str) :
  one_line agent_id = true -> one_line (assignment agent_id) = true.
Proof.
  intros H. unfold assignment, one_line in *. rewrite forallb_app, H. reflexivity.
Qed.

End DotEnvFacts.

Section DotEnvProperties.
Import DotEnv DotEnvFacts.

(** X23. When the file mentions the key but no line starts with
    [XPANDER_AGENT_ID=] (the key is in a comment, indented, or exported), the
    id of the agent is not written: what is written does not depend on it. *)
Theorem unassigned_key_loses_the_agent_id (env_content agent_id : str) :
  contains key env_content = true ->
  (forall line, In line (splitlines env_content) -> startswith prefix line = false) ->
  update_env env_content agent_id = join [newline] (splitlines env_content).
Proof.
  intros Hk Hlines. unfold update_env. rewrite Hk. f_equal.
  rewrite <- (map_id (splitlines env_content)) at 2.
  apply map_ext_in. intros line Hin. unfold replace_line.
  now rewrite (Hlines line Hin).
Qed.

(** X24. On a file of lines each ended by a newline, one of which starts
    with [XPANDER_AGENT_ID=], every line that starts with it becomes the new
    assignment, the other lines stay as they are and where they are, and the
    newline that ended the file is not written back. *)
Theorem assignment_lines_are_replaced
  (lines : list str) (agent_id : str) (assigned : str) :
  forallb one_line lines = true ->
  In assigned lines ->
  startswith prefix assigned = true ->
  update_env (join [newline] lines ++ [newline]) agent_id
  = join [newline] (map (replace_line agent_id) lines).
Proof.
  intros Hl Hin Ha. unfold update_env.
  rewrite (assigned_key_is_mentioned lines assigned [newline] Hin Ha).
  rewrite splitlines_join; [reflexivity | | exact Hl].
  intros ->. destruct Hin.
Qed.

(** X25. When the file does not mention the key, the assignment is written
    as the last line, on a line of its own, whether or not the content was
    ended by a newline. *)
Theorem new_assignment_is_the_last_line (env_content agent_id : str) :
  contains key env_content = false ->
  one_line agent_id = true ->
  exists l ls,
    splitlines (update_env env_content agent_id) = l :: ls ++ [assignment agent_id].
Proof.
  intros Hk Hid. unfold update_env. rewrite Hk. cbn [app].
  apply (splitlines_last (assignment agent_id) (one_line_assignment agent_id Hid)
           ltac:(discriminate) (List.length env_content) env_content (le_n _)).
Qed.

End DotEnvProperties.

(** ** Getting or creating the agent *)

Section RegistrationProperties.
Import DotEnv Registration.
Context {W : Type} {client : Client W}.

(** X26. The cell writes [.env] only after it created an agent, and only
    when the file was there: the content is then the update of the old one
    with the id of that agent. With an id in the environment it creates no
    agent; without the file, the agent it created stays created and its id
    is written nowhere. *)
Theorem env_file_is_written_only_after_creation
  (environ_agent_id env_file0 : option str) (w : W) :
  (env_file (get_or_create environ_agent_id env_file0 w) <> env_file0 ->
   exists env_content a,
     env_file0 = Some env_content
     /\ calls (get_or_create environ_agent_id env_file0 w) = [Create agent_name (Ok a)]
     /\ env_file (get_or_create environ_agent_id env_file0 w)
        = Some (update_env env_content (id a))
     /\ agent_id (get_or_create environ_agent_id env_file0 w) = Some (id a))
  /\ ((exists i, environ_agent_id = Some i /\ i <> []) ->
      forall name r, ~ In (Create name r) (calls (get_or_create environ_agent_id env_file0 w)))
  /\ (env_file0 = None ->
      env_file (get_or_create environ_agent_id env_file0 w) = None
      /\ forall a,
           In (Create agent_name (Ok a)) (calls (get_or_create environ_agent_id env_file0 w)) ->
           output (get_or_create environ_agent_id env_file0 w)
           = [ErrorWithAgent FileNotFoundError]).
Proof.
  unfold get_or_create.
  destruct environ_agent_id as [[|c i]|]; cbn [truthy];
    repeat match goal with
           | |- context [agents_get ?i ?w] => destruct (agents_get i w) as [[a|e] w1]
           | |- context [agents_create ?n ?w] => destruct (agents_create n w) as [[a|e] w1]
           end;
    destruct env_file0 as [env_content|]; cbn;
    (split; [|split]);
    try (intros H; congruence);
    try (intros _; now exists env_content, a);
    try (intros (i' & E & Hi); congruence);
    try (intros (i' & E & Hi) name r [Hc | []]; discriminate Hc);
    try (intros _; split; [reflexivity | intros a' [Hc | []]; first [discriminate Hc | reflexivity]]);
    try (intros E; discriminate E).
Qed.

End RegistrationProperties.

(** ** The tools already attached *)

Module ExistingToolsFacts.
Import Provisioning ProvisioningFacts ExistingTools.

Lemma dict_set_keys (V : Type) (k : str) (v : V) (d : list (str * V)) (k' : str) :
  In k' (map fst (dict_set k v d)) <-> k' = k \/ In k' (map fst d).
Proof.
  induction d as [|[k0 v0] d IH]; cbn [dict_set map fst In].
  - intuition.
  - destruct (str_eqb k0 k) eqn:E; cbn [map fst In].
    + apply str_eqb_eq in E. subst k0. intuition.
    + rewrite IH. intuition.
Qed.

(** What one tool adds to the keys. *)
Lemma add_tool_keys (d d' : list (str * bool)) (tool : pyvalue) (n : str) :
  add_tool d tool = Ok d' ->
  (In n (map fst d') <->
   In n (map fst d) \/ (n <> [] /\ function_name tool = Some (PStr n))).
Proof.
  unfold add_tool.
  destruct (function_name tool) as [[| b | z | s | l | items]|];
    cbn [truthy_value];
    try (intros [= <-]; split; [now left | intros [H | [_ H]]; [exact H | discriminate H]]).
  - destruct b; intros [= <-];
      (split; [now left | intros [H | [_ H]]; [exact H | discriminate H]]).
  - destruct (negb (z =? 0)%Z); intros [= <-];
      (split; [now left | intros [H | [_ H]]; [exact H | discriminate H]]).
  - destruct s as [|c s]; cbn [truthy]; intros [= <-].
    + split; [now left | intros [H | [Hne H]]; [exact H | injection H as <-; congruence]].
    + rewrite dict_set_keys. split.
      * intros [-> | H]; [right; split; [discriminate | reflexivity] | now left].
      * intros [H | [_ [= <-]]]; [now right | now left].
  - destruct l; [|discriminate].
    intros [= <-]. split; [now left | intros [H | [_ H]]; [exact H | discriminate H]].
  - destruct items; [|discriminate].
    intros [= <-]. split; [now left | intros [H | [_ H]]; [exact H | discriminate H]].
Qed.

Lemma add_tools_from_keys (tools_list : list pyvalue) : forall d d' n,
  add_tools_from d tools_list = Ok d' ->
  (In n (map fst d') <->
   In n (map fst d)
   \/ (n <> [] /\ exists tool, In tool tools_list /\ function_name tool = Some (PStr n))).
Proof.
  induction tools_list as [|tool rest IH]; intros d d' n H; cbn [add_tools_from] in H.
  - injection H as <-. split; [now left | intros [H | (_ & t & [] & _)]; exact H].
  - destruct (add_tool d tool) as [d1|e] eqn:E; [|discriminate H].
    rewrite (IH _ _ n H), (add_tool_keys d d1 tool n E). split.
    + intros [[H1 | (Hne & Hf)] | (Hne & t & Ht & Hf)].
      * now left.
      * right. split; [exact Hne|]. exists tool. split; [now left | exact Hf].
      * right. split; [exact Hne|]. exists t. split; [now right | exact Hf].
    + intros [H1 | (Hne & t & [<- | Ht] & Hf)].
      * left. now left.
      * left. right. now split.
      * right. split; [exact Hne|]. now exists t.
Qed.

End ExistingToolsFacts.

Section ExistingToolsProperties.
Import Provisioning ProvisioningFacts ExistingTools ExistingToolsFacts Lookup LookupFacts.

(** X27. When the cell completes, the string keys of [existing_tools] are
    the non-empty names found under ['function']['name'] in the listed
    tools that are dicts with a dict under ['function']; every other entry
    of the listing is passed over. *)
Theorem existing_tools_are_the_listed_function_names
  (tools_list : list pyvalue) (d : list (str * bool)) (n : str) :
  existing_tools tools_list = Ok d ->
  (In n (map fst d) <->
   n <> [] /\ exists tool, In tool tools_list /\ function_name tool = Some (PStr n)).
Proof.
  intros H. rewrite (add_tools_from_keys tools_list [] d n H).
  split; [intros [[] | H']; exact H' | now right].
Qed.

(** X28. The two cells together: the internal name of a tool that the agent
    lists already is neither put in [to_add] nor reported in [missing],
    whatever the configuration holds and the lookups return. *)
Theorem attached_tool_is_neither_added_nor_missing
  (W : Type) (retrieve : AgenticInterface -> W -> result (list AgenticOperation) * W)
  (interfaces : list (str * AgenticInterface)) (tools : list tool_config) (w : W)
  (tools_list : list pyvalue) (d : list (str * bool)) (listed : pyvalue) (n : str) :
  existing_tools tools_list = Ok d ->
  In listed tools_list ->
  function_name listed = Some (PStr n) ->
  ~ In (Some n)
       (map id_to_use_on_graph
            (to_add (fst (process_tools retrieve (map fst d) interfaces tools w))))
  /\ ~ In n (missing (fst (process_tools retrieve (map fst d) interfaces tools w))).
Proof.
  intros Hd Hin Hname.
  assert (Hnot : ~ In (Some n)
                      (map (fun t => Some (get_default (internal_name t)))
                           (filter (eligible (map fst d)) tools))).
  { intros H. apply in_map_iff in H as (t & [= Ht] & Hf).
    apply filter_In in Hf as [_ He].
    destruct (eligible_guards (map fst d) t He) as [Htruthy Hex].
    rewrite Ht in Htruthy, Hex.
    assert (Hk : In n (map fst d)).
    { apply (add_tools_from_keys tools_list [] d n Hd). right.
      split; [now destruct n | now exists listed]. }
    assert (Hex' : existsb (str_eqb n) (map fst d) = true).
    { apply existsb_exists. exists n. split; [exact Hk | apply str_eqb_refl]. }
    congruence. }
  pose proof (process_tools_partition W retrieve (map fst d) interfaces tools w) as P.
  split; intros H; apply Hnot; apply (Permutation_in _ P); apply in_app_iff.
  - now left.
  - right. now apply in_map.
Qed.

End ExistingToolsProperties.

Lemma unassigned_key_loses_the_agent_id_witness :
  DotEnv.update_env EnvFiles.exported (lit "agent-0")
  = DotEnv.join [newline] (DotEnv.splitlines EnvFiles.exported).
Proof.
  apply (unassigned_key_loses_the_agent_id EnvFiles.exported (lit "agent-0")).
  - vm_compute. reflexivity.
  - intros line H. vm_compute in H. destruct H as [<- | [<- | []]]; reflexivity.
Defined.

Lemma assignment_lines_are_replaced_witness :
  DotEnv.update_env
    (DotEnv.join [newline]
       [lit "XPANDER_API_KEY=abc"; lit "XPANDER_AGENT_ID="; lit "NVIDIA_NIM_API_KEY=def"]
     ++ [newline])
    (lit "agent-0")
  = DotEnv.join [newline]
      (map (DotEnv.replace_line (lit "agent-0"))
           [lit "XPANDER_API_KEY=abc"; lit "XPANDER_AGENT_ID=";
            lit "NVIDIA_NIM_API_KEY=def"]).
Proof.
  apply (assignment_lines_are_replaced
           [lit "XPANDER_API_KEY=abc"; lit "XPANDER_AGENT_ID="; lit "NVIDIA_NIM_API_KEY=def"]
           (lit "agent-0") (lit "XPANDER_AGENT_ID=")).
  - vm_compute. reflexivity.
  - right. left. reflexivity.
  - vm_compute. reflexivity.
Defined.

Lemma new_assignment_is_the_last_line_witness :
  exists l ls,
    DotEnv.splitlines (DotEnv.update_env EnvFiles.without_key (lit "agent-0"))
    = l :: ls ++ [DotEnv.assignment (lit "agent-0")].
Proof.
  apply (new_assignment_is_the_last_line EnvFiles.without_key (lit "agent-0")).
  - vm_compute. reflexivity.
  - vm_compute. reflexivity.
Defined.

Lemma existing_tools_are_the_listed_function_names_witness :
  In sentinel (map fst [(sentinel, true)])
  <-> sentinel <> []
      /\ exists tool,
           In tool [PStr (lit "not a tool"); ExistingTools.tool sentinel]
           /\ ExistingTools.function_name tool = Some (PStr sentinel).
Proof.
  apply (existing_tools_are_the_listed_function_names
           [PStr (lit "not a tool"); ExistingTools.tool sentinel]
           [(sentinel, true)] sentinel).
  vm_compute. reflexivity.
Defined.

Lemma attached_tool_is_neither_added_nor_missing_witness :
  ~ In (Some (lit "CalendarEventManagementGetCalendarEventsById"))
       (map Provisioning.id_to_use_on_graph
            (Provisioning.to_add
               (fst (Provisioning.process_tools Organization.retrieve
                       (map fst [(sentinel, true);
                                 (lit "CalendarEventManagementGetCalendarEventsById", true)])
                       (Provisioning.build_interfaces Organization.remote)
                       [Organization.bot_tool; Listing.calendar_tool] tt))))
  /\ ~ In (lit "CalendarEventManagementGetCalendarEventsById")
          (Provisioning.missing
             (fst (Provisioning.process_tools Organization.retrieve
                     (map fst [(sentinel, true);
                               (lit "CalendarEventManagementGetCalendarEventsById", true)])
                     (Provisioning.build_interfaces Organization.remote)
                     [Organization.bot_tool; Listing.calendar_tool] tt))).
Proof.
  apply (attached_tool_is_neither_added_nor_missing unit Organization.retrieve
           (Provisioning.build_interfaces Organization.remote)
           [Organization.bot_tool; Listing.calendar_tool] tt
           [ExistingTools.tool sentinel;
            ExistingTools.tool (lit "CalendarEventManagementGetCalendarEventsById")]
           [(sentinel, true); (lit "CalendarEventManagementGetCalendarEventsById", true)]
           (ExistingTools.tool (lit "CalendarEventManagementGetCalendarEventsById"))
           (lit "CalendarEventManagementGetCalendarEventsById")).
  - vm_compute. reflexivity.
  - right. left. reflexivity.
  - vm_compute. reflexivity.
Defined.

(** The three files, evaluated: the empty assignment is filled in and the
    last newline lost; the exported key keeps the file without the id; the
    file without the key gets the assignment on a new last line. A second
    creation without [.env] makes a second agent. *)
Example env_files_updated :
  DotEnv.update_env EnvFiles.template (lit "agent-0")
  = lit "XPANDER_API_KEY=abc" ++ newline :: lit "XPANDER_AGENT_ID=agent-0" ++ newline
    :: lit "NVIDIA_NIM_API_KEY=def"
  /\ DotEnv.update_env EnvFiles.exported (lit "agent-0")
     = lit "export XPANDER_API_KEY=abc" ++ newline :: lit "export XPANDER_AGENT_ID="
  /\ DotEnv.update_env EnvFiles.without_key (lit "agent-0")
     = lit "XPANDER_API_KEY=abc" ++ newline :: lit "XPANDER_AGENT_ID=agent-0"
  /\ Registration.agent_id
       (Registration.get_or_create (client := Registration.counting) None None
          (Registration.world
             (Registration.get_or_create (client := Registration.counting) None None 0)))
     = Some (lit "agent-1").
Proof. vm_compute. repeat split. Qed.
